(** * Conversation-tree canvas: model and verified properties

    A shallow embedding of the branching-chat canvas (the page component
    with its tree mutations, layout effect, canvas and card handlers and
    streaming client), of the two [/api/chat] route handlers and of the
    [/api/assistant] route handler.

    Conventions of the model.

    - A JavaScript [number] is modelled as an exact rational in canonical
      form ([Qc]): every value has one representation, so [===] on numbers
      is Leibniz equality.  Rounding, [NaN] and infinities of IEEE doubles
      are outside the model; the layout only adds, subtracts and halves.
    - A JavaScript string is the list of its UTF-16 code units, which is
      what [length] and [slice] count.
    - An optional field ([quotedText?], [manualPosition?], [isThinking?])
      is an [option]; [undefined] is [None].
    - React state updates are explicit state passing: every handler is a
      function from the current tree to the next one.  What the browser or
      the network supplies (measured heights, response chunks, upstream
      results) is an explicit argument. *)

From Stdlib Require Import String Ascii ZArith NArith QArith Qcanon List Bool Lia Lqa.
From Stdlib Require Import Permutation.
Import ListNotations.

#[local] Set Warnings "-register-all".

(* ================================================================== *)
(** * Numbers *)

Definition ofZ (z : Z) : Qc := Q2Qc (inject_Z z).

(** [Math.max] on two numbers. *)
Definition Qcmax (a b : Qc) : Qc := if Qclt_le_dec a b then b else a.

(** [a !== b] on numbers. *)
Definition neqb (a b : Qc) : bool := negb (Qc_eq_bool a b).

(* ================================================================== *)
(** * Strings *)

Module JsString.

(** A string is its sequence of UTF-16 code units. *)
Definition t := list N.

(** An ASCII literal as a string. *)
Definition js (s : string) : t := map N_of_ascii (list_ascii_of_string s).

Definition LF : N := 10.
Definition CR : N := 13.
Definition SPACE : N := 32.
(** U+2026, the single code unit of the ellipsis character. *)
Definition ELLIPSIS : N := 8230.

(** The code units [String.prototype.trim] strips: WhiteSpace and
    LineTerminator of the language specification. *)
Definition isWhiteSpace (c : N) : bool :=
  ((9 <=? c) && (c <=? 13) || (c =? 32) || (c =? 160) || (c =? 5760)
   || (8192 <=? c) && (c <=? 8202) || (c =? 8232) || (c =? 8233)
   || (c =? 8239) || (c =? 8287) || (c =? 12288) || (c =? 65279))%N.

Fixpoint trimStart (s : t) : t :=
  match s with
  | c :: rest => if isWhiteSpace c then trimStart rest else s
  | [] => []
  end.

Definition trimEnd (s : t) : t := rev (trimStart (rev s)).

Definition trim (s : t) : t := trimEnd (trimStart s).

(** [s.split(/\r?\n/)]: the separators are the leftmost matches of a line
    feed with at most one carriage return before it. *)
Fixpoint splitLines (s : t) : list t :=
  match s with
  | [] => [[]]
  | c :: rest =>
      if (c =? LF)%N then [] :: splitLines rest
      else
        match rest with
        | c2 :: rest2 =>
            if ((c =? CR) && (c2 =? LF))%N then [] :: splitLines rest2
            else match splitLines rest with
                 | l :: ls => (c :: l) :: ls
                 | [] => [[c]]
                 end
        | [] => [[c]]
        end
  end.

(** [Boolean(s)] for a string: the empty string is the only falsy one. *)
Definition truthy (s : t) : bool :=
  match s with [] => false | _ :: _ => true end.

(** [parts.join(sep)]. *)
Fixpoint join (sep : t) (parts : list t) : t :=
  match parts with
  | [] => []
  | [p] => p
  | p :: ps => p ++ sep ++ join sep ps
  end.

(** [s.slice(0, n)] for [n >= 0]. *)
Definition slice0 (n : nat) (s : t) : t := firstn n s.

End JsString.

Import JsString.

(** [truncateSelection] of the page component. *)
Definition maxChars : nat := 240.

Definition firstTwo (text : JsString.t) : JsString.t :=
  let lines := filter truthy (splitLines (trim text)) in
  join [SPACE] (firstn 2 lines).

Definition truncateSelection (text : JsString.t) : JsString.t :=
  let firstTwo := firstTwo text in
  if (maxChars <? length firstTwo)%nat
  then slice0 maxChars firstTwo ++ [ELLIPSIS]
  else firstTwo.

(* ================================================================== *)
(** * Data model *)

Inductive Role : Type := user | assistant.

Record ChatMessage : Type := mkChatMessage {
  role : Role;
  content : JsString.t }.

Inductive ChatNode : Type := mkChatNode {
  id : Z;
  quotedText : option JsString.t;
  children : list ChatNode;
  x : Qc;
  y : Qc;
  height : Qc;
  manualPosition : option bool;
  conversation : list ChatMessage;
  isThinking : option bool }.

(** [!node.manualPosition] is false exactly when the flag is [true]. *)
Definition isManual (node : ChatNode) : bool :=
  match manualPosition node with Some true => true | _ => false end.

(** Object spreads [{ ...node, field: v }]. *)
Definition withChildren (node : ChatNode) (cs : list ChatNode) : ChatNode :=
  mkChatNode (id node) (quotedText node) cs (x node) (y node) (height node)
             (manualPosition node) (conversation node) (isThinking node).

Definition withPosition (node : ChatNode) (nx ny : Qc) : ChatNode :=
  mkChatNode (id node) (quotedText node) (children node) nx ny (height node)
             (manualPosition node) (conversation node) (isThinking node).

Definition withConversation (node : ChatNode) (conv : list ChatMessage)
           (thinking : option bool) : ChatNode :=
  mkChatNode (id node) (quotedText node) (children node) (x node) (y node)
             (height node) (manualPosition node) conv thinking.

Definition CARD_WIDTH : Qc := ofZ 700.
Definition HORIZONTAL_SPACING : Qc := ofZ 100.
Definition VERTICAL_SPACING : Qc := ofZ 80.
(** The literal [2] of the halvings. *)
Definition two : Qc := ofZ 2.

(** The initial state of [chatTree]. *)
Definition initialTree : list ChatNode :=
  [ mkChatNode 1 None [] (ofZ 725) (ofZ 500) (ofZ 200) None [] None ].

(** ** [flatChats] *)

Record FlatChat : Type := mkFlatChat {
  flat_id : Z;
  flat_x : Qc;
  flat_y : Qc;
  flat_height : Qc;
  flat_quotedText : option JsString.t;
  flat_conversation : list ChatMessage;
  flat_isThinking : option bool }.

Definition flat (node : ChatNode) : FlatChat :=
  mkFlatChat (id node) (x node) (y node) (height node) (quotedText node)
             (conversation node) (isThinking node).

Fixpoint flattenNode (node : ChatNode) : list FlatChat :=
  flat node :: flat_map flattenNode (children node).

Definition flatten (nodes : list ChatNode) : list FlatChat :=
  flat_map flattenNode nodes.

(** [isRoot] as the page passes it to each card. *)
Definition isRoot (chatTree : list ChatNode) (chatId : Z) : bool :=
  match chatTree with
  | first :: _ => (chatId =? id first)%Z
  | [] => false
  end.

(** ** Lookups of [handleNewMessage] *)

(** The first result a [for ... of] loop returns. *)
Definition firstSome {A B : Type} (f : A -> option B) : list A -> option B :=
  fix go (l : list A) : option B :=
    match l with
    | [] => None
    | a :: rest => match f a with Some b => Some b | None => go rest end
    end.

Fixpoint findNodeIn (chatId : Z) (node : ChatNode) : option ChatNode :=
  if (id node =? chatId)%Z then Some node
  else firstSome (findNodeIn chatId) (children node).

Definition findNode (nodes : list ChatNode) (chatId : Z) : option ChatNode :=
  firstSome (findNodeIn chatId) nodes.

(* ================================================================== *)
(** * Tree mutations *)

(** ** [handleCreateFromSelection] and [handleBranch] *)

Fixpoint addChildIn (sourceChatId : Z) (newNode : ChatNode) (node : ChatNode)
  : ChatNode :=
  if (id node =? sourceChatId)%Z
  then withChildren node (children node ++ [newNode])
  else match children node with
       | [] => node
       | _ :: _ =>
           withChildren node (map (addChildIn sourceChatId newNode) (children node))
       end.

Definition addChild (sourceChatId : Z) (newNode : ChatNode)
           (nodes : list ChatNode) : list ChatNode :=
  map (addChildIn sourceChatId newNode) nodes.

(** [newId] is the value [Date.now()] returned. *)
Definition handleCreateFromSelection (sourceChatId : Z) (text : JsString.t)
           (newId : Z) (currentTree : list ChatNode) : list ChatNode :=
  let newNode :=
    mkChatNode newId (Some (truncateSelection text)) [] (ofZ 0) (ofZ 0)
               (ofZ 150) None [] None in
  addChild sourceChatId newNode currentTree.

Definition handleBranch (sourceChatId : Z) (newId : Z)
           (currentTree : list ChatNode) : list ChatNode :=
  let newNode :=
    mkChatNode newId None [] (ofZ 0) (ofZ 0) (ofZ 150) None [] None in
  addChild sourceChatId newNode currentTree.

(** ** [handleDelete] *)

Definition keeps (chatId : Z) (node : ChatNode) : bool :=
  negb (id node =? chatId)%Z.

(** [nodes.filter(keep).map(f)] in one pass. *)
Definition filterThenMap {A B : Type} (keep : A -> bool) (f : A -> B)
  : list A -> list B :=
  fix go (l : list A) : list B :=
    match l with
    | [] => []
    | a :: rest => if keep a then f a :: go rest else go rest
    end.

Fixpoint removeNodeIn (chatId : Z) (node : ChatNode) : ChatNode :=
  withChildren node
    (filterThenMap (keeps chatId) (removeNodeIn chatId) (children node)).

Definition removeNode (chatId : Z) (nodes : list ChatNode) : list ChatNode :=
  filterThenMap (keeps chatId) (removeNodeIn chatId) nodes.

Definition handleDelete (chatId : Z) (currentTree : list ChatNode)
  : list ChatNode :=
  removeNode chatId currentTree.

(** ** [handleChatPositionChange] *)

Fixpoint moveChild (dx dy : Qc) (child : ChatNode) : ChatNode :=
  mkChatNode (id child) (quotedText child)
             (map (moveChild dx dy) (children child))
             (x child + dx) (y child + dy) (height child)
             (manualPosition child) (conversation child) (isThinking child).

Definition moveChildren (dx dy : Qc) (cs : list ChatNode) : list ChatNode :=
  map (moveChild dx dy) cs.

Fixpoint updatePositionIn (chatId : Z) (nx ny : Qc) (node : ChatNode)
  : ChatNode :=
  if (id node =? chatId)%Z
  then
    let dx := nx - x node in
    let dy := ny - y node in
    mkChatNode (id node) (quotedText node)
               (moveChildren dx dy (children node))
               nx ny (height node) (Some true)
               (conversation node) (isThinking node)
  else withChildren node (map (updatePositionIn chatId nx ny) (children node)).

Definition updatePosition (chatId : Z) (nx ny : Qc) (nodes : list ChatNode)
  : list ChatNode :=
  map (updatePositionIn chatId nx ny) nodes.

Definition handleChatPositionChange (chatId : Z) (nx ny : Qc)
           (currentTree : list ChatNode) : list ChatNode :=
  updatePosition chatId nx ny currentTree.

(* ================================================================== *)
(** * Streaming client: the state updates of [handleNewMessage] *)

Fixpoint appendMessage (chatId : Z) (message : JsString.t) (node : ChatNode)
  : ChatNode :=
  if (id node =? chatId)%Z
  then withConversation node
         (conversation node ++ [mkChatMessage user message]) (Some true)
  else withChildren node (map (appendMessage chatId message) (children node)).

Fixpoint setErrorState (chatId : Z) (node : ChatNode) : ChatNode :=
  if (id node =? chatId)%Z
  then withConversation node (conversation node) (Some false)
  else withChildren node (map (setErrorState chatId) (children node)).

Fixpoint addAssistantPlaceholder (chatId : Z) (node : ChatNode) : ChatNode :=
  if (id node =? chatId)%Z
  then withConversation node
         (conversation node ++ [mkChatMessage assistant []]) (Some false)
  else withChildren node (map (addAssistantPlaceholder chatId) (children node)).

(** [conversation[conversation.length - 1]], [undefined] on an empty list. *)
Definition lastMessage (conv : list ChatMessage) : option ChatMessage :=
  match conv with
  | [] => None
  | m :: rest => Some (last rest m)
  end.

Fixpoint appendResponseChunk (chatId : Z) (chunkValue : JsString.t)
         (node : ChatNode) : ChatNode :=
  let recurse :=
    withChildren node
      (map (appendResponseChunk chatId chunkValue) (children node)) in
  if (id node =? chatId)%Z
  then
    match lastMessage (conversation node) with
    | Some last =>
        match role last with
        | assistant =>
            let updatedLastMessage :=
              mkChatMessage (role last) (content last ++ chunkValue) in
            withConversation node
              (removelast (conversation node) ++ [updatedLastMessage])
              (isThinking node)
        | user => recurse
        end
    | None => recurse
    end
  else recurse.

(** What [fetch] gave back: a failure status, a response without a body,
    or a body read as the listed text chunks before the reader reports
    [done]. *)
Inductive FetchResult : Type :=
| NotOk
| OkNoBody
| OkBody (chunks : list JsString.t).

(** The read loop: one state update per [reader.read()], the last one
    with [done] set and the empty text [decoder.decode(undefined)]. *)
Definition readLoop (chatId : Z) (chunks : list JsString.t)
           (tree : list ChatNode) : list ChatNode :=
  fold_left (fun t chunkValue => map (appendResponseChunk chatId chunkValue) t)
            (chunks ++ [[]]) tree.

Definition handleNewMessage (chatId : Z) (message : JsString.t)
           (res : FetchResult) (tree : list ChatNode) : list ChatNode :=
  let tree1 := map (appendMessage chatId message) tree in
  match res with
  | NotOk => map (setErrorState chatId) tree1
  | OkNoBody => tree1
  | OkBody chunks =>
      readLoop chatId chunks (map (addAssistantPlaceholder chatId) tree1)
  end.

(* ================================================================== *)
(** * Layout effect *)

Inductive LayoutMode : Type := horizontal | vertical.

(** [nodes.forEach(f)] where [f] updates a node in place and may set the
    shared [hasChanges] flag: the updated nodes and whether any call set
    the flag. *)
Definition forEachNode (f : ChatNode -> ChatNode * bool)
  : list ChatNode -> list ChatNode * bool :=
  fix go (nodes : list ChatNode) : list ChatNode * bool :=
    match nodes with
    | [] => ([], false)
    | node :: rest =>
        let r := f node in
        let rs := go rest in
        (fst r :: fst rs, snd r || snd rs)
    end.

(** ** [updateHeights]

    [clientHeight chatId] is [el.clientHeight] of the element
    [document.querySelector] finds for the id, [None] when there is none. *)
Fixpoint updateHeightsIn (clientHeight : Z -> option Z) (node : ChatNode)
  : ChatNode * bool :=
  let measured :=
    match clientHeight (id node) with
    | Some h => (0 <? h)%Z && neqb (height node) (ofZ h)
    | None => false
    end in
  let newHeight :=
    match clientHeight (id node) with
    | Some h => if measured then ofZ h else height node
    | None => height node
    end in
  let rs := forEachNode (updateHeightsIn clientHeight) (children node) in
  (mkChatNode (id node) (quotedText node) (fst rs) (x node) (y node) newHeight
              (manualPosition node) (conversation node) (isThinking node),
   measured || snd rs).

Definition updateHeights (clientHeight : Z -> option Z)
           (nodes : list ChatNode) : list ChatNode * bool :=
  forEachNode (updateHeightsIn clientHeight) nodes.

(** ** Subtree extents *)

(** [sizes.reduce((acc, s) => acc + s + spacing, -spacing)]. *)
Definition reduceWithSpacing (spacing : Qc) (sizes : list Qc) : Qc :=
  fold_left (fun acc s => acc + s + spacing) sizes (- spacing).

Fixpoint getSubtreeWidth (node : ChatNode) : Qc :=
  match children node with
  | [] => CARD_WIDTH
  | _ :: _ =>
      reduceWithSpacing HORIZONTAL_SPACING (map getSubtreeWidth (children node))
  end.

Fixpoint getSubtreeHeight (node : ChatNode) : Qc :=
  match children node with
  | [] => height node
  | _ :: _ =>
      let childrenHeight :=
        reduceWithSpacing VERTICAL_SPACING
                          (map getSubtreeHeight (children node)) in
      Qcmax (height node) childrenHeight
  end.

(** ** [positionChildren]

    The source assigns [child.x] and [child.y] and then recurses on the
    assigned child.  Here the position a node ends up with is passed along
    with the node: [positionFrom nx ny node] is the node at [(nx, ny)] with
    its subtree positioned, and [positionChildren node] starts from the
    node's own position. *)

(** The test [!child.manualPosition && (child.x !== newX || child.y !== newY)]. *)
Definition moves (child : ChatNode) (newX newY : Qc) : bool :=
  negb (isManual child) && (neqb (x child) newX || neqb (y child) newY).

(** The loop [children.forEach((child) => { ... })] that both layouts run.
    [offset] is the running [yOffset] or [xOffset]; [extent] is
    [getSubtreeHeight] or [getSubtreeWidth], added to the offset with
    [spacing] after each child ([yOffset += childHeight +
    VERTICAL_SPACING]); [newPosition offset child] is the pair
    [(newX, newY)] the body computes. *)
Definition forEachChild (extent : ChatNode -> Qc) (spacing : Qc)
           (newPosition : Qc -> ChatNode -> Qc * Qc)
           (positionFrom : Qc -> Qc -> ChatNode -> ChatNode * bool)
  : list ChatNode -> Qc -> list ChatNode * bool :=
  fix forEach (cs : list ChatNode) (offset : Qc) : list ChatNode * bool :=
    match cs with
    | [] => ([], false)
    | child :: rest =>
        let newXY := newPosition offset child in
        let changed := moves child (fst newXY) (snd newXY) in
        let r :=
          if changed then positionFrom (fst newXY) (snd newXY) child
          else positionFrom (x child) (y child) child in
        let rs := forEach rest (offset + (extent child + spacing)) in
        (fst r :: fst rs, changed || snd r || snd rs)
    end.

(** [newX] and [newY] of [layoutHorizontal] for a child of a node at
    [nodeX]. *)
Definition newPositionHorizontal (nodeX : Qc) (yOffset : Qc) (child : ChatNode)
  : Qc * Qc :=
  let childHeight := getSubtreeHeight child in
  (nodeX + CARD_WIDTH + HORIZONTAL_SPACING,
   yOffset + childHeight / two - height child / two).

Fixpoint positionFromHorizontal (nx ny : Qc) (node : ChatNode)
  : ChatNode * bool :=
  let totalHeight :=
    reduceWithSpacing VERTICAL_SPACING (map getSubtreeHeight (children node)) in
  let yOffset := ny + height node / two - totalHeight / two in
  let rs := forEachChild getSubtreeHeight VERTICAL_SPACING
                         (newPositionHorizontal nx)
                         positionFromHorizontal (children node) yOffset in
  (mkChatNode (id node) (quotedText node) (fst rs) nx ny (height node)
              (manualPosition node) (conversation node) (isThinking node),
   snd rs).

(** [newX] and [newY] of [layoutVertical] for a child of a node at
    [nodeY] with height [nodeHeight]. *)
Definition newPositionVertical (nodeY nodeHeight : Qc) (xOffset : Qc)
           (child : ChatNode) : Qc * Qc :=
  let childWidth := getSubtreeWidth child in
  (xOffset + childWidth / two - CARD_WIDTH / two,
   nodeY + nodeHeight + VERTICAL_SPACING).

Fixpoint positionFromVertical (nx ny : Qc) (node : ChatNode)
  : ChatNode * bool :=
  let totalWidth :=
    reduceWithSpacing HORIZONTAL_SPACING (map getSubtreeWidth (children node)) in
  let xOffset := nx + CARD_WIDTH / two - totalWidth / two in
  let rs := forEachChild getSubtreeWidth HORIZONTAL_SPACING
                         (newPositionVertical ny (height node))
                         positionFromVertical (children node) xOffset in
  (mkChatNode (id node) (quotedText node) (fst rs) nx ny (height node)
              (manualPosition node) (conversation node) (isThinking node),
   snd rs).

Definition positionChildrenHorizontal (node : ChatNode) : ChatNode * bool :=
  positionFromHorizontal (x node) (y node) node.

Definition positionChildrenVertical (node : ChatNode) : ChatNode * bool :=
  positionFromVertical (x node) (y node) node.

Definition layoutHorizontal (nodes : list ChatNode) : list ChatNode * bool :=
  forEachNode positionChildrenHorizontal nodes.

Definition layoutVertical (nodes : list ChatNode) : list ChatNode * bool :=
  forEachNode positionChildrenVertical nodes.

(** The body of the effect: the working copy [newTree] after
    [updateHeights] and the layout of the mode, and [hasChanges]. *)
Definition layoutEffect (clientHeight : Z -> option Z) (layoutMode : LayoutMode)
           (chatTree : list ChatNode) : list ChatNode * bool :=
  let measured := updateHeights clientHeight chatTree in
  let placed :=
    match layoutMode with
    | horizontal => layoutHorizontal (fst measured)
    | vertical => layoutVertical (fst measured)
    end in
  (fst placed, snd measured || snd placed).

(** The state after the effect: [setChatTree(newTree)] only if
    [hasChanges]. *)
Definition runLayout (clientHeight : Z -> option Z) (layoutMode : LayoutMode)
           (chatTree : list ChatNode) : list ChatNode :=
  let r := layoutEffect clientHeight layoutMode chatTree in
  if snd r then fst r else chatTree.

(* ================================================================== *)
(** * User actions on the canvas *)

(** The handlers the page passes to each card, with what the environment
    supplies ([Date.now()], the fetch result, the measured heights). *)
Inductive Action : Type :=
| CreateFromSelection (sourceChatId : Z) (text : JsString.t) (newId : Z)
| Branch (sourceChatId : Z) (newId : Z)
| Delete (chatId : Z)
| PositionChange (chatId : Z) (nx ny : Qc)
| NewMessage (chatId : Z) (message : JsString.t) (res : FetchResult)
| Layout (clientHeight : Z -> option Z) (layoutMode : LayoutMode).

Definition perform (a : Action) (chatTree : list ChatNode) : list ChatNode :=
  match a with
  | CreateFromSelection sourceChatId text newId =>
      handleCreateFromSelection sourceChatId text newId chatTree
  | Branch sourceChatId newId => handleBranch sourceChatId newId chatTree
  | Delete chatId => handleDelete chatId chatTree
  | PositionChange chatId nx ny => handleChatPositionChange chatId nx ny chatTree
  | NewMessage chatId message res => handleNewMessage chatId message res chatTree
  | Layout clientHeight layoutMode => runLayout clientHeight layoutMode chatTree
  end.

(** The card renders its delete button under [!isRoot && onDelete]; every
    other control is always rendered. *)
Definition offered (chatTree : list ChatNode) (a : Action) : bool :=
  match a with
  | Delete chatId => negb (isRoot chatTree chatId)
  | _ => true
  end.

(** The states the user interface can reach from the initial tree. *)
Inductive reachable : list ChatNode -> Prop :=
| reachable_initial : reachable initialTree
| reachable_step : forall chatTree a,
    reachable chatTree -> offered chatTree a = true ->
    reachable (perform a chatTree).

(** ** Addressing nodes

    [nodeAt path nodes]: the node reached from the top-level list by taking
    the child of index [i] at each step of [path]. *)
Fixpoint nodeAt (path : list nat) (nodes : list ChatNode) : option ChatNode :=
  match path with
  | [] => None
  | i :: rest =>
      match nth_error nodes i with
      | None => None
      | Some node =>
          match rest with
          | [] => Some node
          | _ :: _ => nodeAt rest (children node)
          end
      end
  end.

(* ================================================================== *)
(** * The [/api/chat] route handlers *)

Module Route.

(** A value of a parsed JSON body, or [undefined] for an absent field. *)
Inductive JsValue : Type :=
| JUndefined
| JNull
| JBool (b : bool)
| JNumber (n : Qc)
| JString (s : JsString.t)
| JArray (items : list JsValue)
| JObject (fields : list (JsString.t * JsValue)).

(** [Boolean(v)]. *)
Definition truthy (v : JsValue) : bool :=
  match v with
  | JUndefined | JNull => false
  | JBool b => b
  | JNumber n => neqb n (ofZ 0)
  | JString s => JsString.truthy s
  | JArray _ | JObject _ => true
  end.

Definition isString (v : JsValue) : bool :=
  match v with JString _ => true | _ => false end.

(** The fields the handlers destructure from [await req.json()]. *)
Record Fields : Type := mkFields {
  prompt : JsValue;
  quotedText : JsValue;
  parentConversation : JsValue;
  conversation : JsValue }.

(** The body given to [new Response]: [JSON.stringify({ error })], a
    string, or a stream of chunks.  The first two are told apart by how
    the handler makes them, not by their characters: the statements below
    only say which of them a response is equal to. *)
Inductive Body : Type :=
| JsonError (error : string)
| Text (text : string)
| Stream (chunks : list JsString.t).

Record Response : Type := mkResponse {
  status : Z;
  body : Body }.

(** What a [try] block can catch: an [OpenAI.APIError] with its message
    and its [status], which is [undefined] ([None]) for an error that
    comes with no response, such as a connection error; or anything
    else. *)
Inductive Thrown : Type :=
| APIError (errorStatus : option Z) (message : string)
| OtherError.

Inductive Outcome (A : Type) : Type :=
| Returns (a : A)
| Throws (e : Thrown).
Arguments Returns {A} a.
Arguments Throws {A} e.

Definition promptRequired : Response :=
  mkResponse 400 (JsonError "Prompt is required").

Definition internalServerError : Response :=
  mkResponse 500 (Text "Internal Server Error").

(** The environment variables the two modules name. *)
Record Env : Type := mkEnv {
  OPENAI_API_KEY : option JsString.t;
  PARALLEL_API_KEY : option JsString.t }.

(** ** [new Response(body, { status })]

    The constructor as the Fetch standard defines it.  An [undefined]
    status is the default 200.  A given status is converted to an
    unsigned short, that is taken modulo 65536; outside 200..599 the
    constructor throws a [RangeError], and for a null-body status (204,
    205, 304 in that range) with a body it throws a [TypeError].  Every
    body the handlers pass is a string or a stream, so never null.  [None]
    stands for the thrown error. *)
Definition isNullBodyStatus (code : Z) : bool :=
  ((code =? 204) || (code =? 205) || (code =? 304))%Z.

Definition newResponse (init_status : option Z) (responseBody : Body)
  : option Response :=
  match init_status with
  | None => Some (mkResponse 200 responseBody)
  | Some given =>
      let code := (given mod 65536)%Z in
      if ((200 <=? code) && (code <=? 599))%Z && negb (isNullBodyStatus code)
      then Some (mkResponse code responseBody)
      else None
  end.

(** ** Plain variant

    The module makes its client when it loads, from the key in the
    environment, and the handler uses that client; the handler itself
    reads no environment variable.  The client and its constructor are
    the library's: [Client] is any type and [newOpenAI] gives the client
    for a key, or [None] where the constructor throws. *)


(** The [catch] block.  Its [new Response] is not inside a [try]: where
    the constructor throws, the handler throws and returns no response
    ([None]). *)
Definition catchPlain (e : Thrown) : option Response :=
  match e with
  | APIError errorStatus message => newResponse errorStatus (Text message)
  | OtherError => Some internalServerError
  end.

Definition enqueueContent (chunk : option JsString.t) : list JsString.t :=
  match chunk with
  | Some content => if JsString.truthy content then [content] else []
  | None => []
  end.

(** The handler.  [parsed] is [None] when [req.json()] or the
    destructuring throws; [create] stands for what lies between the check
    of the prompt and the response, the assembling of the messages and
    the call [openai.chat.completions.create] of the module's client: it
    gives the [delta.content] of each chunk or throws.  The result is the
    response returned, or [None] where the handler throws. *)
Definition POST_plain (parsed : option Fields)
           (create : Fields -> Outcome (list (option JsString.t)))
  : option Response :=
  match parsed with
  | None => catchPlain OtherError
  | Some f =>
      if negb (truthy (prompt f)) then Some promptRequired
      else
        match create f with
        | Returns chunks =>
            Some (mkResponse 200 (Stream (flat_map enqueueContent chunks)))
        | Throws e => catchPlain e
        end
  end.



(** ** Tool variant

    The handler reads [PARALLEL_API_KEY] inside the search tool; the key
    of the model provider is read by the provider's library, not by the
    module. *)

(** What the search tool returns: [{ error: "parallel api key is
    missing" }], [{ error: `parallel error ${status}` }] or
    [{ answer: content }]. *)
Inductive ToolOutput : Type :=
| MissingKey
| ParallelError (respStatus : Z)
| Answer (content : JsString.t).

(** The reply of the search endpoint: [resp.ok] with the content of its
    first choice, or a failure status. *)
Inductive SearchReply : Type :=
| SearchOk (content : JsString.t)
| SearchFailed (respStatus : Z).

Definition search_execute (env : Env) (reply : SearchReply) : ToolOutput :=
  match PARALLEL_API_KEY env with
  | None => MissingKey
  | Some apiKey =>
      if negb (JsString.truthy apiKey) then MissingKey
      else match reply with
           | SearchFailed respStatus => ParallelError respStatus
           | SearchOk content => Answer content
           end
  end.

(** The parts of [result.fullStream]: text of the model, a call of the
    search tool (answered by the given reply), or any other part. *)
Inductive Part : Type :=
| TextDelta (text : JsString.t)
| ToolCall (reply : SearchReply)
| OtherPart.

Definition enqueuePart (env : Env) (part : Part) : list JsString.t :=
  match part with
  | TextDelta text => [text]
  | ToolCall reply =>
      match search_execute env reply with
      | Answer content => if JsString.truthy content then [content] else []
      | _ => []
      end
  | OtherPart => []
  end.

Definition POST_tool (env : Env) (parsed : option Fields)
           (streamText : Fields -> Outcome (list Part)) : Response :=
  match parsed with
  | None => internalServerError
  | Some f =>
      if negb (truthy (prompt f)) then promptRequired
      else
        match streamText f with
        | Returns parts => mkResponse 200 (Stream (flat_map (enqueuePart env) parts))
        | Throws _ => internalServerError
        end
  end.

End Route.

(* ================================================================== *)
(** * The specification's reading of [truncateSelection] *)

(** A blank line: nothing but white space. *)
Definition isBlank (line : JsString.t) : bool := forallb isWhiteSpace line.

(** [truncateSelection] as the specification words it: the first two
    non-blank lines joined by a space, capped at 240 characters with a
    trailing ellipsis if truncated.  It differs from the code only in the
    lines it drops. *)
Definition truncateSelection_spec (text : JsString.t) : JsString.t :=
  let lines := filter (fun l => negb (isBlank l)) (splitLines (trim text)) in
  let joined := join [SPACE] (firstn 2 lines) in
  if (240 <? length joined)%nat
  then firstn 240 joined ++ [ELLIPSIS]
  else joined.

(* ================================================================== *)
(** * Notions used in the statements *)

(** The ids of a forest, in the order of [flatChats]. *)
Definition ids (nodes : list ChatNode) : list Z := map flat_id (flatten nodes).

(** The node with its position and those of its descendants erased: what
    the layout never changes. *)
Fixpoint forgetPosition (node : ChatNode) : ChatNode :=
  mkChatNode (id node) (quotedText node) (map forgetPosition (children node))
             0 0 (height node) (manualPosition node) (conversation node)
             (isThinking node).

(** The room the siblings [before] a child take in the stack: the extent
    of each followed by one spacing. *)
Definition stackOffset (extent : ChatNode -> Qc) (spacing : Qc)
           (before : list ChatNode) : Qc :=
  fold_right (fun c acc => extent c + spacing + acc) 0 before.

(** Sum of the extents of the children with one spacing between
    neighbours. *)
Definition stackExtent (extent : ChatNode -> Qc) (spacing : Qc)
           (cs : list ChatNode) : Qc :=
  stackOffset extent spacing cs - spacing.

(** The running offset of the loop when it comes to a child: from
    [start], each of the siblings [before] the child has pushed it along
    by its extent and one spacing, in the order and the grouping of
    [offset += extent + spacing]. *)
Definition offsetAfter (extent : ChatNode -> Qc) (spacing : Qc)
           (before : list ChatNode) (start : Qc) : Qc :=
  fold_left (fun offset c => offset + (extent c + spacing)) before start.

(** The children of [parent] that are not manually positioned sit where
    [layoutHorizontal] puts them: to the right of the parent by the card
    width and the horizontal gap, each centred in its slot of a stack that
    starts at [parent.y + parent.height / 2 - totalHeight / 2], where
    [totalHeight] is the summed subtree heights of the children with the
    gaps between them. *)
Definition stackedHorizontal (parent : ChatNode) : Prop :=
  forall before child after,
    children parent = before ++ child :: after ->
    isManual child = false ->
    x child = x parent + CARD_WIDTH + HORIZONTAL_SPACING
    /\ y child
       = offsetAfter getSubtreeHeight VERTICAL_SPACING before
           (y parent + height parent / two
            - reduceWithSpacing VERTICAL_SPACING
                (map getSubtreeHeight (children parent)) / two)
         + getSubtreeHeight child / two - height child / two.

(** The same for [layoutVertical]: below the parent by its height and the
    vertical gap, each centred in its slot of a row that starts at
    [parent.x + CARD_WIDTH / 2 - totalWidth / 2]. *)
Definition stackedVertical (parent : ChatNode) : Prop :=
  forall before child after,
    children parent = before ++ child :: after ->
    isManual child = false ->
    x child
    = offsetAfter getSubtreeWidth HORIZONTAL_SPACING before
        (x parent + CARD_WIDTH / two
         - reduceWithSpacing HORIZONTAL_SPACING
             (map getSubtreeWidth (children parent)) / two)
      + getSubtreeWidth child / two - CARD_WIDTH / two
    /\ y child = y parent + height parent + VERTICAL_SPACING.

Definition stacked (layoutMode : LayoutMode) (parent : ChatNode) : Prop :=
  match layoutMode with
  | horizontal => stackedHorizontal parent
  | vertical => stackedVertical parent
  end.

(** Where the loop leaves a child: at [newPosition] if the test of the
    loop body fires, where it was otherwise. *)
Definition landing (newPosition : Qc -> ChatNode -> Qc * Qc) (offset : Qc)
           (child : ChatNode) : Qc * Qc :=
  if moves child (fst (newPosition offset child)) (snd (newPosition offset child))
  then newPosition offset child
  else (x child, y child).

(** The child as the loop leaves it: positioned from where it landed. *)
Definition settle (newPosition : Qc -> ChatNode -> Qc * Qc)
           (positionFrom : Qc -> Qc -> ChatNode -> ChatNode * bool)
           (offset : Qc) (c : ChatNode) : ChatNode :=
  fst (positionFrom (fst (landing newPosition offset c))
                    (snd (landing newPosition offset c)) c).

(** What both [positionFrom] functions do to a node whatever position
    they are given: they put it there and change nothing else but the
    positions below it. *)
Definition placesOnly (positionFrom : Qc -> Qc -> ChatNode -> ChatNode * bool)
           (c : ChatNode) : Prop :=
  forall px py,
    forgetPosition (fst (positionFrom px py c)) = forgetPosition c
    /\ x (fst (positionFrom px py c)) = px
    /\ y (fst (positionFrom px py c)) = py.

(** The layout of a mode without the measuring step. *)
Definition layout (layoutMode : LayoutMode) (nodes : list ChatNode)
  : list ChatNode * bool :=
  match layoutMode with
  | horizontal => layoutHorizontal nodes
  | vertical => layoutVertical nodes
  end.

(** A parent at [y = 500] of height 200 with two children of height 100,
    not yet placed. *)
Definition centeringExample : list ChatNode :=
  [ mkChatNode 1 None
      [ mkChatNode 2 None [] (ofZ 0) (ofZ 0) (ofZ 100) None [] None;
        mkChatNode 3 None [] (ofZ 0) (ofZ 0) (ofZ 100) None [] None ]
      (ofZ 725) (ofZ 500) (ofZ 200) None [] None ].

(** A parent at [y = 500] of height 200 with three children: card 2 of
    height 100, lower than its two children of height 100 stacked with
    the gap (280); card 5 of height 500, higher than its two children
    stacked (280); and the leaf 8 of height 100. *)
Definition subtreeExample : list ChatNode :=
  [ mkChatNode 1 None
      [ mkChatNode 2 None
          [ mkChatNode 3 None [] (ofZ 0) (ofZ 0) (ofZ 100) None [] None;
            mkChatNode 4 None [] (ofZ 0) (ofZ 0) (ofZ 100) None [] None ]
          (ofZ 0) (ofZ 0) (ofZ 100) None [] None;
        mkChatNode 5 None
          [ mkChatNode 6 None [] (ofZ 0) (ofZ 0) (ofZ 100) None [] None;
            mkChatNode 7 None [] (ofZ 0) (ofZ 0) (ofZ 100) None [] None ]
          (ofZ 0) (ofZ 0) (ofZ 500) None [] None;
        mkChatNode 8 None [] (ofZ 0) (ofZ 0) (ofZ 100) None [] None ]
      (ofZ 725) (ofZ 500) (ofZ 200) None [] None ].

(** A root whose only child was dragged to [(10, 20)] and has a child of
    its own. *)
Definition draggedNode : ChatNode :=
  mkChatNode 2 None
    [ mkChatNode 3 None [] (ofZ 0) (ofZ 0) (ofZ 150) None [] None ]
    (ofZ 10) (ofZ 20) (ofZ 150) (Some true) [] None.

Definition draggedExample : list ChatNode :=
  [ mkChatNode 1 None [draggedNode] (ofZ 725) (ofZ 500) (ofZ 200) None [] None ].

(** The id of the first top-level node, which the page takes for the
    root ([chatTree[0]?.id]). *)
Definition rootId (chatTree : list ChatNode) : option Z :=
  option_map id (hd_error chatTree).

(** A tree to try the operations on: the root, a branch [2] with the two
    leaves [3] and [4], and a second branch [5]. *)
Definition leafNode (i : Z) : ChatNode :=
  mkChatNode i None [] (ofZ 0) (ofZ 0) (ofZ 150) None [] None.

Definition branchNode (i : Z) (cs : list ChatNode) : ChatNode :=
  mkChatNode i None cs (ofZ 0) (ofZ 0) (ofZ 150) None [] None.

Definition sampleTree : list ChatNode :=
  [ mkChatNode 1 None [branchNode 2 [leafNode 3; leafNode 4]; leafNode 5]
               (ofZ 725) (ofZ 500) (ofZ 200) None [] None ].

(** A request that asks for the news, and one whose prompt is the number
    five. *)
Definition newsRequest : Route.Fields :=
  Route.mkFields (Route.JString (js "news")) Route.JUndefined
                 Route.JUndefined Route.JUndefined.

Definition numberRequest : Route.Fields :=
  Route.mkFields (Route.JNumber (ofZ 5)) Route.JUndefined
                 Route.JUndefined Route.JUndefined.

Definition noSearchKey : Route.Env := Route.mkEnv (Some (js "sk")) None.



(* ================================================================== *)
(** * More of the page component *)

(** [Math.min] on two numbers. *)
Definition Qcmin (a b : Qc) : Qc := if Qclt_le_dec a b then a else b.

(** ** [links] *)

(** [findPairs]: every node paired with each of its children, then the
    pairs found below it. *)
Fixpoint findPairsIn (node : ChatNode) : list (ChatNode * ChatNode) :=
  map (fun child => (node, child)) (children node)
  ++ flat_map findPairsIn (children node).

Definition links (chatTree : list ChatNode) : list (ChatNode * ChatNode) :=
  flat_map findPairsIn chatTree.

(** ** [findParent] and the request of [handleNewMessage] *)

Fixpoint findParentIn (childId : Z) (node : ChatNode) : option ChatNode :=
  if existsb (fun child => (id child =? childId)%Z) (children node)
  then Some node
  else firstSome (findParentIn childId) (children node).

Definition findParent (nodes : list ChatNode) (childId : Z) : option ChatNode :=
  firstSome (findParentIn childId) nodes.

Definition roleName (r : Role) : JsString.t :=
  match r with user => js "user" | assistant => js "assistant" end.

(** [conversation.map((m) => `${m.role}: ${m.content}`).join("\n")]. *)
Definition transcript (conv : list ChatMessage) : JsString.t :=
  join [LF] (map (fun m => roleName (role m) ++ js ": " ++ content m) conv).

(** A message as [JSON.stringify] and [req.json()] carry it. *)
Definition messageValue (m : ChatMessage) : Route.JsValue :=
  Route.JObject [ (js "role", Route.JString (roleName (role m)));
                  (js "content", Route.JString (content m)) ].

Definition optionalString (s : option JsString.t) : Route.JsValue :=
  match s with Some v => Route.JString v | None => Route.JUndefined end.

(** The body [handleNewMessage] posts, as the route reads it back.
    [chatTree] is the tree of the render the handler was created in, so
    the conversation does not yet hold the message being sent. *)
Definition requestBody (chatTree : list ChatNode) (chatId : Z)
           (message : JsString.t) : Route.Fields :=
  let currentNodeDetails := findNode chatTree chatId in
  let parentConversation :=
    option_map (fun parentNode => transcript (conversation parentNode))
               (findParent chatTree chatId) in
  Route.mkFields
    (Route.JString message)
    (optionalString (match currentNodeDetails with
                     | Some node => quotedText node
                     | None => None
                     end))
    (optionalString parentConversation)
    (match currentNodeDetails with
     | Some node => Route.JArray (map messageValue (conversation node))
     | None => Route.JUndefined
     end).

(** ** The card: sending and dragging *)

(** [handleSend]: the message handed to [onNewMessage], if any, and the
    input value afterwards. *)
Definition handleSend (chatId : Z) (inputValue : JsString.t)
  : option (Z * JsString.t) * JsString.t :=
  if negb (truthy (trim inputValue)) then (None, inputValue)
  else (Some (chatId, inputValue), []).

(** The state of a card that dragging uses, and the props it reads. *)
Record DragState : Type := mkDragState {
  boxPosition : Qc * Qc;
  isDragging : bool;
  dragStart : Qc * Qc }.

Record CardProps : Type := mkCardProps {
  cardId : Z;
  cardScale : Qc;
  canvasPosition : Qc * Qc }.

(** [(e.clientX - canvasPosition.x) / scale], and the same for [y].  The
    quotient is that of the rationals; a scale of zero, where the code's
    division gives an infinity or [NaN], is outside the model, and the
    statements about dragging take the scale to be positive, as the zoom
    handlers keep it. *)
Definition toCanvas (canvasPos : Qc * Qc) (scale : Qc) (client : Qc * Qc)
  : Qc * Qc :=
  ((fst client - fst canvasPos) / scale, (snd client - snd canvasPos) / scale).

Definition handleHeaderMouseDown (props : CardProps) (client : Qc * Qc)
           (st : DragState) : DragState :=
  let canvas := toCanvas (canvasPosition props) (cardScale props) client in
  mkDragState (boxPosition st) true
              (fst canvas - fst (boxPosition st),
               snd canvas - snd (boxPosition st)).

(** [handleGlobalMouseMove]: the state afterwards and the payload given to
    [onPositionChange], if any. *)
Definition handleGlobalMouseMove (props : CardProps) (client : Qc * Qc)
           (st : DragState) : DragState * option (Z * Qc * Qc) :=
  if isDragging st then
    let canvas := toCanvas (canvasPosition props) (cardScale props) client in
    let nextX := fst canvas - fst (dragStart st) in
    let nextY := snd canvas - snd (dragStart st) in
    (mkDragState (nextX, nextY) (isDragging st) (dragStart st),
     Some (cardId props, nextX, nextY))
  else (st, None).

Definition handleGlobalMouseUp (st : DragState) : DragState :=
  mkDragState (boxPosition st) false (dragStart st).

(** ** The canvas: panning, zooming, resetting the view *)

Record CanvasState : Type := mkCanvasState {
  position : Qc * Qc;
  scale : Qc;
  isPanning : bool;
  startPan : Qc * Qc }.

Definition minScale : Qc := Q2Qc (1 # 10).
Definition maxScale : Qc := ofZ 3.
Definition defaultScale : Qc := Q2Qc (4 # 5).
Definition wheelFactor : Qc := Q2Qc (-1 # 1000).

Definition initialCanvas : CanvasState :=
  mkCanvasState (ofZ 0, ofZ 0) defaultScale false (ofZ 0, ofZ 0).

(** [onStopPan]: whether the target is inside a [data-stop-pan] element. *)
Definition handleMouseDown (onStopPan : bool) (button : Z) (client : Qc * Qc)
           (st : CanvasState) : CanvasState :=
  if onStopPan then st
  else if (button =? 0)%Z
       then mkCanvasState (position st) (scale st) true
                          (fst client - fst (position st),
                           snd client - snd (position st))
       else st.

Definition handleMouseMove (client : Qc * Qc) (st : CanvasState) : CanvasState :=
  if isPanning st
  then mkCanvasState (fst client - fst (startPan st),
                      snd client - snd (startPan st))
                     (scale st) (isPanning st) (startPan st)
  else st.

Definition handleMouseUp (st : CanvasState) : CanvasState :=
  mkCanvasState (position st) (scale st) false (startPan st).

(** [rect] is the corner [(rect.left, rect.top)] of the canvas element,
    [None] when [canvasRef.current] is not set. *)
Definition handleWheel (deltaY : Qc) (client : Qc * Qc)
           (rect : option (Qc * Qc)) (st : CanvasState) : CanvasState :=
  let delta := deltaY * wheelFactor in
  let newScale := Qcmin (Qcmax minScale (scale st + delta)) maxScale in
  let newPosition :=
    match rect with
    | Some (rectLeft, rectTop) =>
        let mouseX := fst client - rectLeft in
        let mouseY := snd client - rectTop in
        let scaleChange := newScale / scale st in
        (mouseX - (mouseX - fst (position st)) * scaleChange,
         mouseY - (mouseY - snd (position st)) * scaleChange)
    | None => position st
    end in
  mkCanvasState newPosition newScale (isPanning st) (startPan st).

(** [window] is [(window.innerWidth, window.innerHeight)]. *)
Definition handleResetView (chatTree : list ChatNode) (window : Qc * Qc)
           (st : CanvasState) : CanvasState :=
  let newScale := defaultScale in
  match chatTree with
  | firstNode :: _ =>
      mkCanvasState
        (fst window / two - (x firstNode + CARD_WIDTH / two) * newScale,
         snd window / two - (y firstNode + height firstNode / two) * newScale)
        newScale (isPanning st) (startPan st)
  | [] => mkCanvasState (position st) newScale (isPanning st) (startPan st)
  end.

Inductive CanvasEvent : Type :=
| MouseDown (onStopPan : bool) (button : Z) (client : Qc * Qc)
| MouseMove (client : Qc * Qc)
| MouseUp
| Wheel (deltaY : Qc) (client : Qc * Qc) (rect : option (Qc * Qc))
| ResetView (chatTree : list ChatNode) (window : Qc * Qc).

Definition handleCanvasEvent (st : CanvasState) (e : CanvasEvent) : CanvasState :=
  match e with
  | MouseDown onStopPan button client => handleMouseDown onStopPan button client st
  | MouseMove client => handleMouseMove client st
  | MouseUp => handleMouseUp st
  | Wheel deltaY client rect => handleWheel deltaY client rect st
  | ResetView chatTree window => handleResetView chatTree window st
  end.

(** ** The connecting curves *)

(** The box of the [svg] element and the end points of the path inside it,
    for a link from [(x1, y1)] to [(x2, y2)]. *)
Record LinkBox : Type := mkLinkBox {
  boxLeft : Qc; boxTop : Qc; boxWidth : Qc; boxHeight : Qc;
  sx1 : Qc; sy1 : Qc; sx2 : Qc; sy2 : Qc }.

Definition Qcabs (a : Qc) : Qc := if Qclt_le_dec a 0 then - a else a.

Definition linkEnds (layoutMode : LayoutMode) (parent child : ChatNode)
  : (Qc * Qc) * (Qc * Qc) :=
  match layoutMode with
  | horizontal =>
      ((x parent + CARD_WIDTH, y parent + height parent / two),
       (x child, y child + height child / two))
  | vertical =>
      ((x parent + CARD_WIDTH / two, y parent + height parent),
       (x child + CARD_WIDTH / two, y child))
  end.

Definition linkBox (layoutMode : LayoutMode) (parent child : ChatNode)
  : LinkBox :=
  let ends := linkEnds layoutMode parent child in
  let x1 := fst (fst ends) in
  let y1 := snd (fst ends) in
  let x2 := fst (snd ends) in
  let y2 := snd (snd ends) in
  let left := Qcmin x1 x2 - ofZ 10 in
  let top := Qcmin y1 y2 - ofZ 10 in
  let width := Qcabs (x2 - x1) + ofZ 20 in
  let height := Qcabs (y2 - y1) + ofZ 20 in
  mkLinkBox left top width height (x1 - left) (y1 - top) (x2 - left) (y2 - top).

(* ================================================================== *)
(** * The [/api/assistant] route handler *)

Module Assistant.

(** What the [try] block can catch: any value, with the [message] it may
    carry. *)
Inductive Outcome (A : Type) : Type :=
| Returns (a : A)
| Throws (message : option string).
Arguments Returns {A} a.
Arguments Throws {A} message.

(** [error?.message || "internal server error"]. *)
Definition errorMessage (message : option string) : string :=
  match message with
  | Some m => if String.eqb m EmptyString then "internal server error" else m
  | None => "internal server error"
  end.

Definition catchAll (message : option string) : Route.Response :=
  Route.mkResponse 500 (Route.JsonError (errorMessage message)).

(** [parsed] is the [prompt] field of the body, or what [req.json()] or
    the destructuring threw; [create] is the streaming call of the client
    built with the key, giving the [delta.content] of each chunk. *)
Definition POST (apiKey : option JsString.t)
           (parsed : Outcome Route.JsValue)
           (create : JsString.t -> JsString.t
                     -> Outcome (list (option JsString.t)))
  : Route.Response :=
  match parsed with
  | Throws message => catchAll message
  | Returns prompt =>
      match prompt with
      | Route.JString promptText =>
          if negb (JsString.truthy promptText)
          then Route.mkResponse 400 (Route.JsonError "prompt is required")
          else
            match apiKey with
            | None =>
                Route.mkResponse 500 (Route.JsonError "missing PARALLEL_API_KEY")
            | Some key =>
                if negb (JsString.truthy key)
                then Route.mkResponse 500
                       (Route.JsonError "missing PARALLEL_API_KEY")
                else
                  match create key promptText with
                  | Returns chunks =>
                      Route.mkResponse 200
                        (Route.Stream (flat_map Route.enqueueContent chunks))
                  | Throws message => catchAll message
                  end
            end
      | _ => Route.mkResponse 400 (Route.JsonError "prompt is required")
      end
  end.

End Assistant.

(* ================================================================== *)
(** * Notions used in the further statements *)

(** A flattened entry moved by [(dx, dy)]. *)
Definition shiftFlat (dx dy : Qc) (f : FlatChat) : FlatChat :=
  mkFlatChat (flat_id f) (flat_x f + dx) (flat_y f + dy) (flat_height f)
             (flat_quotedText f) (flat_conversation f) (flat_isThinking f).

(** What of a flattened entry the message handlers never touch. *)
Definition placement (f : FlatChat)
  : Z * Qc * Qc * Qc * option JsString.t :=
  (flat_id f, flat_x f, flat_y f, flat_height f, flat_quotedText f).

(** What of a flattened entry the layout never touches. *)
Definition payload (f : FlatChat)
  : Z * option JsString.t * list ChatMessage * option bool :=
  (flat_id f, flat_quotedText f, flat_conversation f, flat_isThinking f).

(** A node of the forest has a child with the given id. *)
Definition hasChildWithId (childId : Z) (node : ChatNode) : bool :=
  existsb (fun child => (id child =? childId)%Z) (children node).

(** The path, in the sense of [nodeAt], of the node [findNode] returns:
    [findPathIn] gives it from a node on, the empty path for the node
    itself. *)
Definition bump (path : list nat) : list nat :=
  match path with
  | i :: rest => S i :: rest
  | [] => []
  end.

Definition firstPath (f : ChatNode -> option (list nat))
  : list ChatNode -> option (list nat) :=
  fix go (l : list ChatNode) : option (list nat) :=
    match l with
    | [] => None
    | a :: rest =>
        match f a with
        | Some p => Some (0%nat :: p)
        | None => option_map bump (go rest)
        end
    end.

Fixpoint findPathIn (chatId : Z) (node : ChatNode) : option (list nat) :=
  if (id node =? chatId)%Z then Some []
  else firstPath (findPathIn chatId) (children node).

Definition findPath (nodes : list ChatNode) (chatId : Z) : option (list nat) :=
  firstPath (findPathIn chatId) nodes.

(* ================================================================== *)
(** * Properties of [truncateSelection] *)

Lemma splitLines_cons_cases (c : N) (rest : JsString.t) :
  (exists tl, splitLines (c :: rest) = [] :: splitLines tl
              /\ (length tl <= length rest)%nat)
  \/ (c <> LF /\ exists l ls, splitLines rest = l :: ls
                              /\ splitLines (c :: rest) = (c :: l) :: ls)
  \/ (c <> LF /\ rest = [] /\ splitLines (c :: rest) = [[c]]).
Proof.
  simpl. destruct (N.eqb_spec c LF) as [->|Hc].
  - left. exists rest. split; [reflexivity | lia].
  - destruct rest as [|c2 rest2].
    + right. right. auto.
    + destruct ((c =? CR) && (c2 =? LF))%N eqn:E.
      * left. exists rest2. split; [reflexivity | simpl; lia].
      * right. left. split; [assumption|].
        destruct (splitLines (c2 :: rest2)) as [|l ls] eqn:El.
        -- exfalso. simpl in El.
           destruct (c2 =? LF)%N; [discriminate|].
           destruct rest2 as [|c3 r3]; [discriminate|].
           destruct ((c2 =? CR) && (c3 =? LF))%N; [discriminate|].
           destruct (splitLines (c3 :: r3)); discriminate.
        -- exists l, ls. auto.
Qed.

Lemma splitLines_no_LF_bounded (n : nat) :
  forall s : JsString.t, (length s <= n)%nat ->
  Forall (fun l => ~ In LF l) (splitLines s).
Proof.
  induction n as [|n IH]; intros s Hlen.
  - destruct s; [|simpl in Hlen; lia].
    simpl. constructor; [intros []| constructor].
  - destruct s as [|c rest].
    + simpl. constructor; [intros []| constructor].
    + simpl in Hlen.
      destruct (splitLines_cons_cases c rest)
        as [(tl & -> & Htl) | [(Hc & l & ls & Hrest & ->) | (Hc & -> & ->)]].
      * constructor; [intros []|]. apply IH. lia.
      * assert (H : Forall (fun l => ~ In LF l) (splitLines rest))
          by (apply IH; lia).
        rewrite Hrest in H. inversion H; subst.
        constructor; [|assumption].
        intros [Heq|Hin]; [congruence | contradiction].
      * constructor; [|constructor].
        intros [Heq|[]]. congruence.
Qed.

Lemma splitLines_no_LF (s : JsString.t) :
  Forall (fun l => ~ In LF l) (splitLines s).
Proof. apply (splitLines_no_LF_bounded (length s)). lia. Qed.

Lemma Forall_filter_keep {A : Type} (P : A -> Prop) (p : A -> bool) (l : list A) :
  Forall P l -> Forall P (filter p l).
Proof.
  induction 1 as [|a l Ha Hl IH]; simpl; [constructor|].
  destruct (p a); [constructor|]; assumption.
Qed.

Lemma Forall_filter_true {A : Type} (p : A -> bool) (l : list A) :
  Forall (fun a => p a = true) (filter p l).
Proof.
  induction l as [|a l IH]; simpl; [constructor|].
  destruct (p a) eqn:E; [constructor|]; assumption.
Qed.

Lemma Forall_firstn_keep {A : Type} (P : A -> Prop) (n : nat) (l : list A) :
  Forall P l -> Forall P (firstn n l).
Proof.
  intros H. revert n. induction H as [|a l Ha Hl IH]; intros [|n]; simpl;
    constructor; auto.
Qed.

Lemma truthy_nonempty (s : JsString.t) : truthy s = true -> s <> [].
Proof. destruct s; [discriminate | discriminate]. Qed.

(** [C1], as amended.  The text is trimmed and cut at line feeds (each with
    at most one carriage return before it); the lines kept are the first
    two of non-zero length, a line of white space included; they are joined
    by one space; the result is the joined text when it has at most 240
    code units and otherwise its first 240 code units followed by the
    ellipsis, so an ellipsis is appended exactly when something was cut
    off.  The three-line example gives ["Line one. Line two."]. *)
Theorem truncateSelection_first_two_nonempty_lines :
  (forall text : JsString.t,
     let lines := firstn 2 (filter truthy (splitLines (trim text))) in
     let joined := join [SPACE] lines in
     (length lines <= 2)%nat
     /\ Forall (fun l => l <> [] /\ ~ In LF l) lines
     /\ ((length joined <= 240)%nat -> truncateSelection text = joined)
     /\ ((240 < length joined)%nat ->
         truncateSelection text = firstn 240 joined ++ [ELLIPSIS]
         /\ length (truncateSelection text) = 241%nat)
     /\ (length (truncateSelection text) <= 241)%nat)
  /\ truncateSelection
       (js "Line one." ++ [LF] ++ js "Line two." ++ [LF] ++ js "Line three.")
     = js "Line one. Line two.".
Proof.
  split; [|reflexivity].
  intros text lines joined.
  assert (Hcut : (240 < length joined)%nat ->
                 length (firstn 240 joined ++ [ELLIPSIS]) = 241%nat).
  { intros H. rewrite length_app, firstn_length_le by lia. reflexivity. }
  repeat split.
  - subst lines. rewrite length_firstn. lia.
  - subst lines. apply Forall_firstn_keep.
    pose proof (Forall_filter_true truthy (splitLines (trim text))) as Ht.
    pose proof (Forall_filter_keep _ truthy _ (splitLines_no_LF (trim text))) as Hn.
    rewrite Forall_forall in *. intros l Hl. split.
    + apply truthy_nonempty, Ht, Hl.
    + apply Hn, Hl.
  - intros Hle. unfold truncateSelection. fold joined.
    change (firstTwo text) with joined.
    destruct (Nat.ltb_spec maxChars (length joined)) as [H|H];
      [unfold maxChars in H; lia | reflexivity].
  - unfold truncateSelection. change (firstTwo text) with joined.
    destruct (Nat.ltb_spec maxChars (length joined)) as [H1|H1];
      [reflexivity | unfold maxChars in H1; lia].
  - unfold truncateSelection. change (firstTwo text) with joined.
    destruct (Nat.ltb_spec maxChars (length joined)) as [H1|H1];
      [apply Hcut; assumption | unfold maxChars in H1; lia].
  - unfold truncateSelection. change (firstTwo text) with joined.
    destruct (Nat.ltb_spec maxChars (length joined)) as [H1|H1].
    + unfold slice0, maxChars in *. rewrite Hcut by assumption. lia.
    + unfold maxChars in H1. lia.
Qed.

(** [C1] as stated fails where the second kept line is white space: the
    code keeps it and never reaches ["b"]. *)
Lemma truncateSelection_keeps_blank_line :
  truncateSelection (js "a" ++ [LF; SPACE; LF] ++ js "b") = js "a  "
  /\ truncateSelection_spec (js "a" ++ [LF; SPACE; LF] ++ js "b") = js "a b"
  /\ truncateSelection (js "a" ++ [LF; SPACE; LF] ++ js "b")
     <> truncateSelection_spec (js "a" ++ [LF; SPACE; LF] ++ js "b").
Proof.
  repeat split; try reflexivity. vm_compute. discriminate.
Qed.

(** Where the trimmed text has no line of white space only, the code and
    the specification's reading agree. *)
Lemma truncateSelection_agrees_without_blank_lines (text : JsString.t) :
  Forall (fun l => isBlank l = true -> l = []) (splitLines (trim text)) ->
  truncateSelection text = truncateSelection_spec text.
Proof.
  intros H. unfold truncateSelection, truncateSelection_spec, firstTwo, slice0, maxChars.
  replace (filter (fun l => negb (isBlank l)) (splitLines (trim text)))
    with (filter truthy (splitLines (trim text))); [reflexivity|].
  apply filter_ext_in. intros l Hl.
  rewrite Forall_forall in H. specialize (H l Hl).
  destruct l as [|c l]; [reflexivity|].
  destruct (isBlank (c :: l)) eqn:E; [|reflexivity].
  specialize (H eq_refl). discriminate.
Qed.

(* ================================================================== *)
(** * Induction over the tree *)

Lemma ChatNode_nested_ind (P : ChatNode -> Prop) :
  (forall node, Forall P (children node) -> P node) ->
  forall node, P node.
Proof.
  intros step. fix IH 1. intros node. apply step.
  destruct node as [i q cs px py h m conv th]. simpl.
  induction cs as [|c cs IHcs]; constructor; [apply IH | exact IHcs].
Qed.

Lemma map_fixed {A : Type} (f : A -> A) (l : list A) :
  Forall (fun a => f a = a) l -> map f l = l.
Proof. induction 1; simpl; congruence. Qed.

Lemma map_idempotent {A : Type} (f : A -> A) (l : list A) :
  Forall (fun a => f (f a) = f a) l -> map f (map f l) = map f l.
Proof. induction 1; simpl; congruence. Qed.

(* ================================================================== *)
(** * [updatePosition] *)

Lemma moveChild_zero (node : ChatNode) : moveChild 0 0 node = node.
Proof.
  induction node as [node IH] using ChatNode_nested_ind.
  destruct node as [i q cs px py h m conv th]. simpl in *.
  rewrite (map_fixed _ _ IH), !Qcplus_0_r. reflexivity.
Qed.

Lemma moveChildren_zero (cs : list ChatNode) : moveChildren 0 0 cs = cs.
Proof.
  unfold moveChildren. apply map_fixed, Forall_forall.
  intros c _. apply moveChild_zero.
Qed.

Lemma Qcminus_diag (a : Qc) : a - a = 0.
Proof. ring. Qed.

Lemma updatePositionIn_idempotent (chatId : Z) (nx ny : Qc) (node : ChatNode) :
  updatePositionIn chatId nx ny (updatePositionIn chatId nx ny node)
  = updatePositionIn chatId nx ny node.
Proof.
  induction node as [node IH] using ChatNode_nested_ind.
  destruct node as [i q cs px py h m conv th]. simpl in *.
  destruct (i =? chatId)%Z eqn:E; simpl; rewrite E.
  - rewrite !Qcminus_diag, moveChildren_zero. reflexivity.
  - unfold withChildren. simpl. rewrite (map_idempotent _ _ IH). reflexivity.
Qed.

(** [C6].  Applying [updatePosition(id, x, y)] a second time with the same
    arguments gives the tree the first application gave, for every tree,
    id and coordinates; a node the first application placed is at
    [(x, y)], so the second one moves it and its descendants by the delta
    [(0, 0)], which leaves them as they are. *)
Theorem updatePosition_idempotent :
  forall (chatId : Z) (nx ny : Qc) (chatTree : list ChatNode),
    handleChatPositionChange chatId nx ny
      (handleChatPositionChange chatId nx ny chatTree)
    = handleChatPositionChange chatId nx ny chatTree
    /\ (forall node, id node = chatId ->
          let placed := updatePositionIn chatId nx ny node in
          nx - x placed = 0 /\ ny - y placed = 0
          /\ moveChildren (nx - x placed) (ny - y placed) (children placed)
             = children placed).
Proof.
  intros chatId nx ny chatTree. split.
  - unfold handleChatPositionChange, updatePosition.
    apply map_idempotent, Forall_forall. intros node _.
    apply updatePositionIn_idempotent.
  - intros node Hid placed.
    assert (Hx : x placed = nx /\ y placed = ny).
    { subst placed. destruct node as [i q cs px py h m conv th].
      simpl in *. subst i. rewrite Z.eqb_refl. simpl. auto. }
    destruct Hx as [-> ->]. rewrite !Qcminus_diag.
    repeat split. apply moveChildren_zero.
Qed.

(* ================================================================== *)
(** * Forests *)

Lemma forest_ind (P : list ChatNode -> Prop) :
  P [] ->
  (forall node rest, P (children node) -> P rest -> P (node :: rest)) ->
  forall nodes, P nodes.
Proof.
  intros Hnil Hcons.
  assert (Hnode : forall node rest, P rest -> P (node :: rest)).
  { intros node. induction node as [node IH] using ChatNode_nested_ind.
    intros rest Hrest. apply Hcons; [|assumption].
    induction IH as [|c cs Hc _ IHcs]; [assumption | apply Hc, IHcs]. }
  induction nodes; auto.
Qed.

Lemma flatten_cons (node : ChatNode) (rest : list ChatNode) :
  flatten (node :: rest)
  = flat node :: flatten (children node) ++ flatten rest.
Proof. destruct node; reflexivity. Qed.

Lemma ids_cons (node : ChatNode) (rest : list ChatNode) :
  ids (node :: rest) = id node :: ids (children node) ++ ids rest.
Proof. unfold ids. rewrite flatten_cons. simpl. rewrite map_app. reflexivity. Qed.

Lemma findNode_cons (node : ChatNode) (rest : list ChatNode) (chatId : Z) :
  findNode (node :: rest) chatId
  = if (id node =? chatId)%Z then Some node
    else match findNode (children node) chatId with
         | Some found => Some found
         | None => findNode rest chatId
         end.
Proof.
  destruct node as [i q cs px py h m conv th].
  unfold findNode. simpl. destruct (i =? chatId)%Z; reflexivity.
Qed.

Lemma removeNode_cons (chatId : Z) (node : ChatNode) (rest : list ChatNode) :
  removeNode chatId (node :: rest)
  = if (id node =? chatId)%Z then removeNode chatId rest
    else withChildren node (removeNode chatId (children node))
         :: removeNode chatId rest.
Proof.
  destruct node as [i q cs px py h m conv th].
  unfold removeNode, keeps. simpl. destruct (i =? chatId)%Z; reflexivity.
Qed.

Lemma NoDup_app_disjoint {A : Type} (l1 l2 : list A) (a : A) :
  NoDup (l1 ++ l2) -> In a l1 -> ~ In a l2.
Proof.
  induction l1 as [|b l1 IH]; simpl; intros Hnd Hin; [contradiction|].
  inversion Hnd as [|? ? Hb Hrest]; subst.
  destruct Hin as [->|Hin]; [|auto].
  intros Ha. apply Hb, in_or_app. auto.
Qed.

(* ================================================================== *)
(** * [deleteNode] *)

Lemma findNode_None_absent (chatId : Z) (nodes : list ChatNode) :
  findNode nodes chatId = None -> ~ In chatId (ids nodes).
Proof.
  induction nodes as [|node rest IHc IHr] using forest_ind; intros Hf.
  - intros [].
  - rewrite findNode_cons in Hf. rewrite ids_cons.
    destruct (Z.eqb_spec (id node) chatId) as [|Hne]; [discriminate|].
    destruct (findNode (children node) chatId) eqn:Ec; [discriminate|].
    intros [Heq|Hin]; [contradiction|].
    apply in_app_or in Hin. destruct Hin; [apply IHc | apply IHr]; auto.
Qed.

Lemma findNode_Some_present (chatId : Z) (nodes : list ChatNode) (n : ChatNode) :
  findNode nodes chatId = Some n -> id n = chatId /\ In chatId (ids nodes).
Proof.
  induction nodes as [|node rest IHc IHr] using forest_ind; intros Hf.
  - discriminate.
  - rewrite findNode_cons in Hf. rewrite ids_cons.
    destruct (Z.eqb_spec (id node) chatId) as [Heq|Hne].
    + inversion Hf; subst. split; [reflexivity | left; reflexivity].
    + destruct (findNode (children node) chatId) eqn:Ec.
      * inversion Hf; subst. destruct (IHc eq_refl) as [? Hin].
        split; [assumption|]. right. apply in_or_app. auto.
      * destruct (IHr Hf) as [? Hin].
        split; [assumption|]. right. apply in_or_app. auto.
Qed.

Lemma removeNode_absent (chatId : Z) (nodes : list ChatNode) :
  ~ In chatId (ids nodes) -> removeNode chatId nodes = nodes.
Proof.
  induction nodes as [|node rest IHc IHr] using forest_ind; intros Hn.
  - reflexivity.
  - rewrite ids_cons in Hn. rewrite removeNode_cons.
    destruct (Z.eqb_spec (id node) chatId) as [Heq|Hne].
    + exfalso. apply Hn. left. assumption.
    + rewrite IHc, IHr.
      * destruct node; reflexivity.
      * intros H. apply Hn. right. apply in_or_app. auto.
      * intros H. apply Hn. right. apply in_or_app. auto.
Qed.

Lemma flatten_withChildren (node : ChatNode) (cs rest : list ChatNode) :
  flatten (withChildren node cs :: rest) = flat node :: flatten cs ++ flatten rest.
Proof. destruct node; reflexivity. Qed.

Lemma removeNode_cuts_subtree (chatId : Z) (nodes : list ChatNode) :
  forall n, NoDup (ids nodes) -> findNode nodes chatId = Some n ->
  exists before after,
    flatten nodes = before ++ flattenNode n ++ after
    /\ flatten (removeNode chatId nodes) = before ++ after.
Proof.
  induction nodes as [|node rest IHc IHr] using forest_ind; intros n Hnd Hf.
  - discriminate.
  - rewrite ids_cons in Hnd. inversion Hnd as [|? ? Hhead Htail]; subst.
    rewrite findNode_cons in Hf. rewrite removeNode_cons.
    destruct (Z.eqb_spec (id node) chatId) as [Heq|Hne].
    + inversion Hf; subst n. exists [], (flatten rest). split.
      * simpl. reflexivity.
      * rewrite removeNode_absent; [reflexivity|].
        intros Hin. apply Hhead, in_or_app. rewrite Heq. auto.
    + destruct (findNode (children node) chatId) eqn:Ec.
      * inversion Hf; subst c.
        destruct (IHc n (NoDup_app_remove_r _ _ Htail) eq_refl)
          as (before & after & Hflat & Hrem).
        exists (flat node :: before), (after ++ flatten rest). split.
        -- rewrite flatten_cons, Hflat. simpl. rewrite <- !app_assoc. reflexivity.
        -- rewrite flatten_withChildren, Hrem.
           rewrite (removeNode_absent chatId rest).
           ++ simpl. rewrite <- app_assoc. reflexivity.
           ++ apply (NoDup_app_disjoint _ _ _ Htail).
              apply (findNode_Some_present _ _ _ Ec).
      * destruct (IHr n (NoDup_app_remove_l _ _ Htail) Hf)
          as (before & after & Hflat & Hrem).
        exists (flat node :: flatten (children node) ++ before), after. split.
        -- rewrite flatten_cons, Hflat. simpl. rewrite <- !app_assoc. reflexivity.
        -- rewrite flatten_withChildren, Hrem.
           rewrite (removeNode_absent chatId (children node)).
           ++ simpl. rewrite <- app_assoc. reflexivity.
           ++ apply findNode_None_absent, Ec.
Qed.

(** [C5].  In a tree with unique ids, deleting the node [n] with the given
    id cuts the block of [n] and its descendants out of the flattened list
    and leaves the entries before and after it as they were, however many
    descendants [n] has: the flattened list is shorter by one more than
    the number of descendants, so by exactly three when [n] has exactly
    two. *)
Theorem deleteNode_removes_subtree :
  forall (chatTree : list ChatNode) (chatId : Z) (n : ChatNode),
    NoDup (ids chatTree) ->
    findNode chatTree chatId = Some n ->
    (exists before after,
        flatten chatTree = before ++ flattenNode n ++ after
        /\ flatten (handleDelete chatId chatTree) = before ++ after)
    /\ (length (flatten (handleDelete chatId chatTree))
        + (1 + length (flatten (children n)))
        = length (flatten chatTree))%nat
    /\ (length (flatten (children n)) = 2%nat ->
        (length (flatten (handleDelete chatId chatTree)) + 3
         = length (flatten chatTree))%nat).
Proof.
  intros chatTree chatId n Hnd Hf.
  destruct (removeNode_cuts_subtree chatId chatTree n Hnd Hf)
    as (before & after & Hflat & Hrem).
  assert (Hlen : (length (flatten (handleDelete chatId chatTree))
                  + (1 + length (flatten (children n)))
                  = length (flatten chatTree))%nat).
  { unfold handleDelete. rewrite Hrem, Hflat, !length_app.
    destruct n as [i q cs px py h m conv th]. simpl.
    change (flat_map flattenNode cs) with (flatten cs). lia. }
  split; [exists before, after; auto|].
  split; [exact Hlen|]. intros Htwo. rewrite Htwo in Hlen. lia.
Qed.

Lemma deleteNode_removes_subtree_witness :
  (exists before after,
      flatten sampleTree
      = before ++ flattenNode (branchNode 2 [leafNode 3; leafNode 4]) ++ after
      /\ flatten (handleDelete 2 sampleTree) = before ++ after)
  /\ (length (flatten (handleDelete 2 sampleTree)) + 3
      = length (flatten sampleTree))%nat.
Proof.
  assert (Hnd : NoDup (ids sampleTree))
    by (repeat constructor; simpl; intuition discriminate).
  destruct (deleteNode_removes_subtree sampleTree 2
              (branchNode 2 [leafNode 3; leafNode 4]) Hnd eq_refl)
    as (Hcut & _ & Hthree).
  split; [exact Hcut|]. apply Hthree. reflexivity.
Defined.

(* ================================================================== *)
(** * Updates addressed by id *)

Section UpdateById.

Variable chatId : Z.
Variable g : ChatNode -> ChatNode.

(** Off the addressed id, the update keeps the node and maps over its
    children. *)
Hypothesis g_recurses :
  forall node, id node <> chatId ->
               g node = withChildren node (map g (children node)).

Lemma findNode_map_None (nodes : list ChatNode) :
  findNode nodes chatId = None -> findNode (map g nodes) chatId = None.
Proof.
  induction nodes as [|node rest IHc IHr] using forest_ind; intros Hf.
  - reflexivity.
  - rewrite findNode_cons in Hf.
    destruct (Z.eqb_spec (id node) chatId) as [|Hne]; [discriminate|].
    destruct (findNode (children node) chatId) eqn:Ec; [discriminate|].
    rewrite map_cons, (g_recurses _ Hne), findNode_cons.
    destruct node as [i q cs px py h m conv th]. simpl in *.
    destruct (Z.eqb_spec i chatId); [contradiction|].
    rewrite (IHc eq_refl). apply IHr, Hf.
Qed.

Lemma findNode_map_Some (nodes : list ChatNode) (n : ChatNode) :
  findNode nodes chatId = Some n -> id (g n) = chatId ->
  findNode (map g nodes) chatId = Some (g n).
Proof.
  induction nodes as [|node rest IHc IHr] using forest_ind; intros Hf Hid.
  - discriminate.
  - rewrite findNode_cons in Hf. rewrite map_cons.
    destruct (Z.eqb_spec (id node) chatId) as [Heq|Hne].
    + inversion Hf; subst n. rewrite findNode_cons.
      rewrite Hid, Z.eqb_refl. reflexivity.
    + rewrite (g_recurses _ Hne), findNode_cons.
      destruct node as [i q cs px py h m conv th]. simpl in *.
      destruct (Z.eqb_spec i chatId); [contradiction|].
      destruct (findNode cs chatId) eqn:Ec.
      * inversion Hf; subst c. rewrite (IHc eq_refl Hid). reflexivity.
      * rewrite (findNode_map_None cs Ec). apply IHr; assumption.
Qed.

End UpdateById.

(* ================================================================== *)
(** * Streaming *)

Lemma lastMessage_snoc (base : list ChatMessage) (m : ChatMessage) :
  lastMessage (base ++ [m]) = Some m.
Proof.
  destruct base as [|b base]; [reflexivity|].
  simpl. f_equal. apply last_last.
Qed.

Lemma appendMessage_off (chatId : Z) (message : JsString.t) (node : ChatNode) :
  id node <> chatId ->
  appendMessage chatId message node
  = withChildren node (map (appendMessage chatId message) (children node)).
Proof.
  intros Hne. destruct node as [i q cs px py h m conv th]. simpl in *.
  destruct (Z.eqb_spec i chatId); [contradiction | reflexivity].
Qed.

Lemma appendMessage_at (chatId : Z) (message : JsString.t) (node : ChatNode) :
  id node = chatId ->
  appendMessage chatId message node
  = withConversation node (conversation node ++ [mkChatMessage user message])
                     (Some true).
Proof.
  intros Heq. destruct node as [i q cs px py h m conv th]. simpl in *.
  subst i. rewrite Z.eqb_refl. reflexivity.
Qed.

Lemma addAssistantPlaceholder_off (chatId : Z) (node : ChatNode) :
  id node <> chatId ->
  addAssistantPlaceholder chatId node
  = withChildren node (map (addAssistantPlaceholder chatId) (children node)).
Proof.
  intros Hne. destruct node as [i q cs px py h m conv th]. simpl in *.
  destruct (Z.eqb_spec i chatId); [contradiction | reflexivity].
Qed.

Lemma addAssistantPlaceholder_at (chatId : Z) (node : ChatNode) :
  id node = chatId ->
  addAssistantPlaceholder chatId node
  = withConversation node (conversation node ++ [mkChatMessage assistant []])
                     (Some false).
Proof.
  intros Heq. destruct node as [i q cs px py h m conv th]. simpl in *.
  subst i. rewrite Z.eqb_refl. reflexivity.
Qed.

Lemma appendResponseChunk_off (chatId : Z) (chunkValue : JsString.t)
      (node : ChatNode) :
  id node <> chatId ->
  appendResponseChunk chatId chunkValue node
  = withChildren node
      (map (appendResponseChunk chatId chunkValue) (children node)).
Proof.
  intros Hne. destruct node as [i q cs px py h m conv th]. simpl in *.
  destruct (Z.eqb_spec i chatId); [contradiction | reflexivity].
Qed.

Lemma appendResponseChunk_at (chatId : Z) (chunkValue : JsString.t)
      (node : ChatNode) (base : list ChatMessage) (text : JsString.t) :
  id node = chatId ->
  conversation node = base ++ [mkChatMessage assistant text] ->
  appendResponseChunk chatId chunkValue node
  = withConversation node
      (base ++ [mkChatMessage assistant (text ++ chunkValue)])
      (isThinking node).
Proof.
  intros Heq Hconv. destruct node as [i q cs px py h m conv th]. simpl in *.
  subst i conv. rewrite Z.eqb_refl, lastMessage_snoc. simpl.
  rewrite removelast_last. reflexivity.
Qed.

(** Every read appends its chunk to the placeholder at once: after the
    loop the placeholder holds what it held before followed by the chunks
    in the order they were read. *)
Lemma readLoop_appends_in_order (chatId : Z) (chunks : list JsString.t) :
  forall (tree : list ChatNode) (n : ChatNode) (base : list ChatMessage)
         (text : JsString.t),
    findNode tree chatId = Some n ->
    conversation n = base ++ [mkChatMessage assistant text] ->
    exists n',
      findNode (fold_left
                  (fun t chunkValue =>
                     map (appendResponseChunk chatId chunkValue) t)
                  chunks tree) chatId = Some n'
      /\ conversation n'
         = base ++ [mkChatMessage assistant (text ++ concat chunks)].
Proof.
  induction chunks as [|chunkValue chunks IH]; intros tree n base text Hf Hconv.
  - exists n. simpl. rewrite app_nil_r. auto.
  - simpl.
    destruct (findNode_Some_present _ _ _ Hf) as [Hid _].
    pose proof (appendResponseChunk_at chatId chunkValue n base text Hid Hconv) as Hat.
    assert (Hf' : findNode (map (appendResponseChunk chatId chunkValue) tree) chatId
                  = Some (appendResponseChunk chatId chunkValue n)).
    { apply findNode_map_Some; [apply appendResponseChunk_off | assumption |].
      rewrite Hat. destruct n; assumption. }
    destruct (IH _ _ base (text ++ chunkValue) Hf') as (n' & Hn' & Hc').
    { rewrite Hat. destruct n; reflexivity. }
    exists n'. split; [assumption|]. rewrite Hc', <- app_assoc. reflexivity.
Qed.

(** [C9].  For a node found in the tree, a successful request leaves its
    conversation extended by the user message and one assistant message
    whose content is the chunks concatenated in the order they were read;
    the chunks ["Hel"], ["lo"], [" world"] give ["Hello world"]. *)
Theorem stream_chunks_appended_in_order :
  (forall (chatTree : list ChatNode) (chatId : Z) (message : JsString.t)
          (chunks : list JsString.t) (n : ChatNode),
      findNode chatTree chatId = Some n ->
      exists n',
        findNode (handleNewMessage chatId message (OkBody chunks) chatTree)
                 chatId = Some n'
        /\ conversation n'
           = conversation n
               ++ [mkChatMessage user message;
                   mkChatMessage assistant (concat chunks)])
  /\ option_map conversation
       (findNode (handleNewMessage 1 (js "hi")
                    (OkBody [js "Hel"; js "lo"; js " world"]) initialTree) 1)
     = Some [mkChatMessage user (js "hi");
             mkChatMessage assistant (js "Hello world")].
Proof.
  split; [|reflexivity].
  intros chatTree chatId message chunks n Hf.
  destruct (findNode_Some_present _ _ _ Hf) as [Hid _].
  unfold handleNewMessage, readLoop.
  set (n1 := appendMessage chatId message n).
  assert (H1 : findNode (map (appendMessage chatId message) chatTree) chatId
               = Some n1).
  { apply findNode_map_Some; [apply appendMessage_off | assumption |].
    subst n1. rewrite appendMessage_at by assumption. destruct n; assumption. }
  assert (Hid1 : id n1 = chatId).
  { subst n1. rewrite appendMessage_at by assumption. destruct n; assumption. }
  set (n2 := addAssistantPlaceholder chatId n1).
  assert (H2 : findNode (map (addAssistantPlaceholder chatId)
                             (map (appendMessage chatId message) chatTree))
                        chatId = Some n2).
  { apply findNode_map_Some; [apply addAssistantPlaceholder_off | assumption |].
    subst n2. rewrite addAssistantPlaceholder_at by assumption.
    destruct n1; assumption. }
  assert (Hconv : conversation n2
                  = (conversation n ++ [mkChatMessage user message])
                      ++ [mkChatMessage assistant []]).
  { subst n2. rewrite addAssistantPlaceholder_at by assumption.
    subst n1. rewrite appendMessage_at by assumption. destruct n; reflexivity. }
  destruct (readLoop_appends_in_order chatId (chunks ++ [[]]) _ _ _ _ H2 Hconv)
    as (n' & Hn' & Hc').
  exists n'. split; [assumption|].
  rewrite Hc', concat_app. simpl. rewrite !app_nil_r, <- app_assoc. reflexivity.
Qed.

Lemma stream_chunks_appended_in_order_witness :
  exists n',
    findNode (handleNewMessage 2 (js "hi") (OkBody [js "Hel"; js "lo"; js " world"])
                               sampleTree) 2 = Some n'
    /\ conversation n'
       = conversation (branchNode 2 [leafNode 3; leafNode 4])
           ++ [mkChatMessage user (js "hi");
               mkChatMessage assistant (concat [js "Hel"; js "lo"; js " world"])].
Proof.
  apply (proj1 stream_chunks_appended_in_order sampleTree 2%Z (js "hi")
               [js "Hel"; js "lo"; js " world"]
               (branchNode 2 [leafNode 3; leafNode 4])).
  reflexivity.
Defined.

(* ================================================================== *)
(** * Route handlers *)

Lemma POST_plain_falsy_prompt (f : Route.Fields)
      (create : Route.Fields -> Route.Outcome (list (option JsString.t))) :
  Route.truthy (Route.prompt f) = false ->
  Route.POST_plain (Some f) create = Some Route.promptRequired.
Proof. intros H. unfold Route.POST_plain. rewrite H. reflexivity. Qed.

Lemma POST_tool_falsy_prompt (env : Route.Env) (f : Route.Fields)
      (streamText : Route.Fields -> Route.Outcome (list Route.Part)) :
  Route.truthy (Route.prompt f) = false ->
  Route.POST_tool env (Some f) streamText = Route.promptRequired.
Proof. intros H. unfold Route.POST_tool. rewrite H. reflexivity. Qed.

Lemma POST_plain_truthy_prompt (f : Route.Fields)
      (create : Route.Fields -> Route.Outcome (list (option JsString.t))) :
  Route.truthy (Route.prompt f) = true ->
  Route.POST_plain (Some f) create
  = match create f with
    | Route.Returns chunks =>
        Some (Route.mkResponse 200
                (Route.Stream (flat_map Route.enqueueContent chunks)))
    | Route.Throws e => Route.catchPlain e
    end.
Proof. intros H. unfold Route.POST_plain. rewrite H. reflexivity. Qed.

Lemma POST_tool_truthy_prompt (env : Route.Env) (f : Route.Fields)
      (streamText : Route.Fields -> Route.Outcome (list Route.Part)) :
  Route.truthy (Route.prompt f) = true ->
  Route.POST_tool env (Some f) streamText
  = match streamText f with
    | Route.Returns parts =>
        Route.mkResponse 200
          (Route.Stream (flat_map (Route.enqueuePart env) parts))
    | Route.Throws _ => Route.internalServerError
    end.
Proof. intros H. unfold Route.POST_tool. rewrite H. reflexivity. Qed.






(** [C10].  In both variants an empty-string prompt is answered with 400,
    the check being [!prompt]; a truthy prompt that is not a string is not
    turned away by it: the handler goes on to the completion call and the
    response is the one that call determines, 200 when it returns. *)
Theorem chat_routes_validate_by_falsiness :
  (forall f create, Route.prompt f = Route.JString [] ->
     Route.POST_plain (Some f) create = Some Route.promptRequired
     /\ option_map Route.status (Route.POST_plain (Some f) create)
        = Some 400%Z)
  /\ (forall env f streamText, Route.prompt f = Route.JString [] ->
        Route.POST_tool env (Some f) streamText = Route.promptRequired
        /\ Route.status (Route.POST_tool env (Some f) streamText) = 400%Z)
  /\ (forall f create,
        Route.truthy (Route.prompt f) = true ->
        Route.isString (Route.prompt f) = false ->
        Route.POST_plain (Some f) create
        = match create f with
          | Route.Returns chunks =>
              Some (Route.mkResponse 200
                      (Route.Stream (flat_map Route.enqueueContent chunks)))
          | Route.Throws e => Route.catchPlain e
          end)
  /\ (forall env f streamText,
        Route.truthy (Route.prompt f) = true ->
        Route.isString (Route.prompt f) = false ->
        Route.POST_tool env (Some f) streamText
        = match streamText f with
          | Route.Returns parts =>
              Route.mkResponse 200
                (Route.Stream (flat_map (Route.enqueuePart env) parts))
          | Route.Throws _ => Route.internalServerError
          end).
Proof.
  repeat split.
  - rewrite POST_plain_falsy_prompt; [reflexivity|]. rewrite H. reflexivity.
  - rewrite POST_plain_falsy_prompt; [reflexivity|]. rewrite H. reflexivity.
  - rewrite POST_tool_falsy_prompt; [reflexivity|]. rewrite H. reflexivity.
  - rewrite POST_tool_falsy_prompt; [reflexivity|]. rewrite H. reflexivity.
  - intros f create H _. apply POST_plain_truthy_prompt, H.
  - intros env f streamText H _. apply POST_tool_truthy_prompt, H.
Qed.

Lemma chat_routes_validate_by_falsiness_witness :
  Route.POST_plain (Some numberRequest) (fun _ => Route.Returns [Some (js "ok")])
  = Some (Route.mkResponse 200 (Route.Stream [js "ok"]))
  /\ Route.POST_tool noSearchKey (Some numberRequest)
                     (fun _ => Route.Returns [Route.TextDelta (js "ok")])
     = Route.mkResponse 200 (Route.Stream [js "ok"]).
Proof.
  split.
  - apply (proj1 (proj2 (proj2 chat_routes_validate_by_falsiness))
                 numberRequest (fun _ => Route.Returns [Some (js "ok")])).
    + reflexivity.
    + reflexivity.
  - apply (proj2 (proj2 (proj2 chat_routes_validate_by_falsiness))
                 noSearchKey numberRequest
                 (fun _ => Route.Returns [Route.TextDelta (js "ok")])).
    + reflexivity.
    + reflexivity.
Defined.

(* ================================================================== *)
(** * Layout: what never changes *)

Lemma neqb_refl (a : Qc) : neqb a a = false.
Proof.
  unfold neqb, Qc_eq_bool. destruct (Qc_eq_dec a a); [reflexivity | congruence].
Qed.

Lemma neqb_false (a b : Qc) : neqb a b = false -> a = b.
Proof.
  unfold neqb, Qc_eq_bool. destruct (Qc_eq_dec a b); [auto | discriminate].
Qed.

Lemma forEachNode_fst (f : ChatNode -> ChatNode * bool) (nodes : list ChatNode) :
  fst (forEachNode f nodes) = map (fun n => fst (f n)) nodes.
Proof. induction nodes as [|n rest IH]; simpl; [|rewrite IH]; reflexivity. Qed.

Lemma forgetPosition_fields (a b : ChatNode) :
  forgetPosition a = forgetPosition b ->
  id a = id b /\ height a = height b /\ isManual a = isManual b
  /\ map forgetPosition (children a) = map forgetPosition (children b).
Proof.
  destruct a, b. unfold isManual. simpl. intros H. inversion H. subst. auto.
Qed.

Lemma getSubtreeHeight_forget (node : ChatNode) :
  getSubtreeHeight (forgetPosition node) = getSubtreeHeight node.
Proof.
  induction node as [node IH] using ChatNode_nested_ind.
  destruct node as [i q cs px py h m conv th]. simpl in *.
  assert (E : map getSubtreeHeight (map forgetPosition cs)
              = map getSubtreeHeight cs).
  { rewrite map_map. induction IH; simpl; congruence. }
  rewrite E. destruct cs; reflexivity.
Qed.

Lemma getSubtreeWidth_forget (node : ChatNode) :
  getSubtreeWidth (forgetPosition node) = getSubtreeWidth node.
Proof.
  induction node as [node IH] using ChatNode_nested_ind.
  destruct node as [i q cs px py h m conv th]. simpl in *.
  assert (E : map getSubtreeWidth (map forgetPosition cs)
              = map getSubtreeWidth cs).
  { rewrite map_map. induction IH; simpl; congruence. }
  rewrite E. destruct cs; reflexivity.
Qed.

Lemma getSubtreeHeight_same_shape (a b : ChatNode) :
  forgetPosition a = forgetPosition b -> getSubtreeHeight a = getSubtreeHeight b.
Proof.
  intros H. rewrite <- (getSubtreeHeight_forget a), H.
  apply getSubtreeHeight_forget.
Qed.

Lemma getSubtreeWidth_same_shape (a b : ChatNode) :
  forgetPosition a = forgetPosition b -> getSubtreeWidth a = getSubtreeWidth b.
Proof.
  intros H. rewrite <- (getSubtreeWidth_forget a), H.
  apply getSubtreeWidth_forget.
Qed.

Lemma map_same_shape (extent : ChatNode -> Qc) (l1 l2 : list ChatNode) :
  (forall a b, forgetPosition a = forgetPosition b -> extent a = extent b) ->
  map forgetPosition l1 = map forgetPosition l2 ->
  map extent l1 = map extent l2.
Proof.
  intros Hext. revert l2.
  induction l1 as [|a l1 IH]; intros [|b l2] H; try discriminate; [reflexivity|].
  simpl in *. inversion H. f_equal; auto.
Qed.

Lemma newPositionHorizontal_same_shape (nodeX offset : Qc) (a b : ChatNode) :
  forgetPosition a = forgetPosition b ->
  newPositionHorizontal nodeX offset a = newPositionHorizontal nodeX offset b.
Proof.
  intros H. unfold newPositionHorizontal.
  rewrite (getSubtreeHeight_same_shape _ _ H).
  destruct (forgetPosition_fields _ _ H) as (_ & -> & _). reflexivity.
Qed.

Lemma newPositionVertical_same_shape (nodeY nodeHeight offset : Qc)
      (a b : ChatNode) :
  forgetPosition a = forgetPosition b ->
  newPositionVertical nodeY nodeHeight offset a
  = newPositionVertical nodeY nodeHeight offset b.
Proof.
  intros H. unfold newPositionVertical.
  rewrite (getSubtreeWidth_same_shape _ _ H). reflexivity.
Qed.

Lemma forEachChild_cons (extent : ChatNode -> Qc) (spacing : Qc)
      (newPosition : Qc -> ChatNode -> Qc * Qc)
      (positionFrom : Qc -> Qc -> ChatNode -> ChatNode * bool)
      (c : ChatNode) (rest : list ChatNode) (offset : Qc) :
  forEachChild extent spacing newPosition positionFrom (c :: rest) offset
  = let at_ := landing newPosition offset c in
    let r := positionFrom (fst at_) (snd at_) c in
    let rs := forEachChild extent spacing newPosition positionFrom rest
                           (offset + (extent c + spacing)) in
    (fst r :: fst rs,
     moves c (fst (newPosition offset c)) (snd (newPosition offset c))
     || snd r || snd rs).
Proof.
  unfold landing. simpl.
  destruct (moves c (fst (newPosition offset c)) (snd (newPosition offset c)));
    reflexivity.
Qed.

Lemma forEachChild_keeps_shape (extent : ChatNode -> Qc) (spacing : Qc)
      (newPosition : Qc -> ChatNode -> Qc * Qc)
      (positionFrom : Qc -> Qc -> ChatNode -> ChatNode * bool)
      (cs : list ChatNode) :
  Forall (placesOnly positionFrom) cs ->
  forall offset,
    map forgetPosition
        (fst (forEachChild extent spacing newPosition positionFrom cs offset))
    = map forgetPosition cs.
Proof.
  induction 1 as [|c cs Hc _ IH]; intros offset; [reflexivity|].
  rewrite forEachChild_cons. simpl. rewrite IH.
  destruct (Hc (fst (landing newPosition offset c))
               (snd (landing newPosition offset c))) as (-> & _). reflexivity.
Qed.

Lemma positionFromHorizontal_unfold (nx ny : Qc) (node : ChatNode) :
  positionFromHorizontal nx ny node
  = let rs :=
      forEachChild getSubtreeHeight VERTICAL_SPACING (newPositionHorizontal nx)
        positionFromHorizontal (children node)
        (ny + height node / two
         - reduceWithSpacing VERTICAL_SPACING
             (map getSubtreeHeight (children node)) / two) in
    (mkChatNode (id node) (quotedText node) (fst rs) nx ny (height node)
                (manualPosition node) (conversation node) (isThinking node),
     snd rs).
Proof. destruct node; reflexivity. Qed.

Lemma positionFromVertical_unfold (nx ny : Qc) (node : ChatNode) :
  positionFromVertical nx ny node
  = let rs :=
      forEachChild getSubtreeWidth HORIZONTAL_SPACING
        (newPositionVertical ny (height node))
        positionFromVertical (children node)
        (nx + CARD_WIDTH / two
         - reduceWithSpacing HORIZONTAL_SPACING
             (map getSubtreeWidth (children node)) / two) in
    (mkChatNode (id node) (quotedText node) (fst rs) nx ny (height node)
                (manualPosition node) (conversation node) (isThinking node),
     snd rs).
Proof. destruct node; reflexivity. Qed.

Lemma positionFromHorizontal_placesOnly (node : ChatNode) :
  placesOnly positionFromHorizontal node.
Proof.
  induction node as [node IH] using ChatNode_nested_ind.
  intros px py. rewrite positionFromHorizontal_unfold. simpl.
  rewrite (forEachChild_keeps_shape _ _ _ _ _ IH).
  destruct node; auto.
Qed.

Lemma positionFromVertical_placesOnly (node : ChatNode) :
  placesOnly positionFromVertical node.
Proof.
  induction node as [node IH] using ChatNode_nested_ind.
  intros px py. rewrite positionFromVertical_unfold. simpl.
  rewrite (forEachChild_keeps_shape _ _ _ _ _ IH).
  destruct node; auto.
Qed.

(* ================================================================== *)
(** * Layout: the loop over the children *)

Section ForEachChild.

Variable extent : ChatNode -> Qc.
Variable spacing : Qc.
Variable newPosition : Qc -> ChatNode -> Qc * Qc.
Variable positionFrom : Qc -> Qc -> ChatNode -> ChatNode * bool.

Hypothesis positionFrom_placesOnly : forall c, placesOnly positionFrom c.
Hypothesis extent_same_shape :
  forall a b, forgetPosition a = forgetPosition b -> extent a = extent b.
Hypothesis newPosition_same_shape :
  forall offset a b, forgetPosition a = forgetPosition b ->
                     newPosition offset a = newPosition offset b.

Local Abbreviation loop := (forEachChild extent spacing newPosition positionFrom).
Local Abbreviation settled := (settle newPosition positionFrom).

Lemma settled_shape (offset : Qc) (c : ChatNode) :
  forgetPosition (settled offset c) = forgetPosition c.
Proof. apply positionFrom_placesOnly. Qed.

Lemma settled_position (offset : Qc) (c : ChatNode) :
  (x (settled offset c), y (settled offset c)) = landing newPosition offset c.
Proof.
  unfold settle.
  destruct (positionFrom_placesOnly c (fst (landing newPosition offset c))
              (snd (landing newPosition offset c))) as (_ & -> & ->).
  destruct (landing newPosition offset c); reflexivity.
Qed.

(** A child the loop has left somewhere does not move when the loop
    comes by again with the same offset. *)
Lemma settled_stays (offset : Qc) (c : ChatNode) :
  moves (settled offset c) (fst (newPosition offset (settled offset c)))
        (snd (newPosition offset (settled offset c))) = false
  /\ landing newPosition offset (settled offset c)
     = landing newPosition offset c.
Proof.
  pose proof (settled_shape offset c) as Hs.
  pose proof (settled_position offset c) as Hp.
  rewrite (newPosition_same_shape offset _ _ Hs).
  destruct (forgetPosition_fields _ _ Hs) as (_ & _ & Hm & _).
  assert (Hx : x (settled offset c) = fst (landing newPosition offset c))
    by (rewrite <- Hp; reflexivity).
  assert (Hy : y (settled offset c) = snd (landing newPosition offset c))
    by (rewrite <- Hp; reflexivity).
  assert (Hmoves : moves (settled offset c) (fst (newPosition offset c))
                         (snd (newPosition offset c)) = false).
  { unfold moves. rewrite Hm, Hx, Hy. unfold landing, moves.
    destruct (isManual c); [reflexivity|]. simpl.
    destruct (neqb (x c) (fst (newPosition offset c))
              || neqb (y c) (snd (newPosition offset c))) eqn:E; simpl.
    - rewrite !neqb_refl. reflexivity.
    - exact E. }
  split; [assumption|].
  unfold landing at 1. rewrite (newPosition_same_shape offset _ _ Hs), Hmoves.
  exact Hp.
Qed.

Lemma loop_cons (c : ChatNode) (cs : list ChatNode) (offset : Qc) :
  loop (c :: cs) offset
  = (settled offset c :: fst (loop cs (offset + (extent c + spacing))),
     moves c (fst (newPosition offset c)) (snd (newPosition offset c))
     || snd (positionFrom (fst (landing newPosition offset c))
                          (snd (landing newPosition offset c)) c)
     || snd (loop cs (offset + (extent c + spacing)))).
Proof. rewrite forEachChild_cons. reflexivity. Qed.

Lemma loop_idempotent (cs : list ChatNode) :
  Forall (fun c => forall px py,
              positionFrom px py (fst (positionFrom px py c))
              = (fst (positionFrom px py c), false)) cs ->
  forall offset,
    loop (fst (loop cs offset)) offset = (fst (loop cs offset), false).
Proof.
  induction 1 as [|c cs Hc _ IH]; intros offset; [reflexivity|].
  rewrite (loop_cons c cs). cbn [fst snd]. rewrite loop_cons.
  destruct (settled_stays offset c) as [Hm Hl].
  assert (Hagain :
            positionFrom (fst (landing newPosition offset (settled offset c)))
                         (snd (landing newPosition offset (settled offset c)))
                         (settled offset c)
            = (settled offset c, false)).
  { rewrite Hl. unfold settle. apply Hc. }
  change (settled offset (settled offset c))
    with (fst (positionFrom
                 (fst (landing newPosition offset (settled offset c)))
                 (snd (landing newPosition offset (settled offset c)))
                 (settled offset c))).
  rewrite Hagain, Hm.
  rewrite (extent_same_shape _ _ (settled_shape offset c)), IH.
  reflexivity.
Qed.

Lemma loop_unchanged (cs : list ChatNode) :
  Forall (fun c => forall px py,
              snd (positionFrom px py c) = false ->
              fst (positionFrom px py c) = withPosition c px py) cs ->
  forall offset, snd (loop cs offset) = false -> fst (loop cs offset) = cs.
Proof.
  induction 1 as [|c cs Hc _ IH]; intros offset; [reflexivity|].
  rewrite loop_cons. cbn [fst snd]. intros Hno.
  apply Bool.orb_false_elim in Hno. destruct Hno as [Hno Hrest].
  apply Bool.orb_false_elim in Hno. destruct Hno as [Hm Hr].
  rewrite (IH _ Hrest). f_equal.
  unfold settle, landing in *. rewrite Hm in *. cbn [fst snd] in *.
  rewrite (Hc _ _ Hr). destruct c; reflexivity.
Qed.

(** A child that is not manually positioned is left at [newPosition],
    computed with the offset its elder siblings have pushed along. *)
Lemma loop_places (cs : list ChatNode) :
  forall offset before child after,
    fst (loop cs offset) = before ++ child :: after ->
    isManual child = false ->
    (x child, y child)
    = newPosition (offsetAfter extent spacing before offset) child.
Proof.
  induction cs as [|c cs IH]; intros offset before child after Hout Hman.
  - destruct before; discriminate.
  - rewrite loop_cons in Hout. cbn [fst snd] in Hout.
    destruct before as [|b before]; simpl in Hout; inversion Hout as [[Hc Hrest]].
    + unfold offsetAfter. simpl.
      rewrite settled_position.
      pose proof (settled_shape offset c) as Hs.
      rewrite (newPosition_same_shape offset _ _ Hs).
      destruct (forgetPosition_fields _ _ Hs) as (_ & _ & Hm & _).
      rewrite Hc, Hman in Hm.
      unfold landing, moves. rewrite <- Hm. simpl.
      destruct (neqb (x c) (fst (newPosition offset c))) eqn:Ex; simpl.
      * destruct (newPosition offset c); reflexivity.
      * destruct (neqb (y c) (snd (newPosition offset c))) eqn:Ey; simpl.
        -- destruct (newPosition offset c); reflexivity.
        -- apply neqb_false in Ex, Ey. rewrite Ex, Ey.
           destruct (newPosition offset c); reflexivity.
    + rewrite (IH _ _ _ _ Hrest Hman). f_equal.
      unfold offsetAfter. simpl.
      rewrite (extent_same_shape _ _ (settled_shape offset c)). reflexivity.
Qed.

Lemma loop_outputs (cs : list ChatNode) (offset : Qc) :
  Forall (fun o => exists c px py, o = fst (positionFrom px py c))
         (fst (loop cs offset)).
Proof.
  revert offset. induction cs as [|c cs IH]; intros offset.
  - constructor.
  - rewrite loop_cons. cbn [fst snd]. constructor; [|apply IH].
    unfold settle. eauto.
Qed.

(** The loop keeps the children in their places in the list, and a
    manually positioned child where it is on the canvas. *)
Lemma loop_nth (cs : list ChatNode) :
  forall offset i c,
    nth_error cs i = Some c ->
    exists px py,
      nth_error (fst (loop cs offset)) i = Some (fst (positionFrom px py c))
      /\ (isManual c = true -> px = x c /\ py = y c).
Proof.
  induction cs as [|c0 cs IH]; intros offset i c Hn.
  - destruct i; discriminate.
  - rewrite loop_cons. cbn [fst snd].
    destruct i as [|i]; simpl in *.
    + inversion Hn; subst c0.
      exists (fst (landing newPosition offset c)),
             (snd (landing newPosition offset c)).
      split; [reflexivity|]. intros Hman.
      unfold landing, moves. rewrite Hman. simpl. auto.
    + apply IH, Hn.
Qed.

End ForEachChild.

(* ================================================================== *)
(** * Layout: one node and its subtree *)

Lemma reduceWithSpacing_from (spacing : Qc) (sizes : list Qc) (start : Qc) :
  fold_left (fun acc s => acc + s + spacing) sizes start
  = start + fold_right (fun s acc => s + spacing + acc) 0 sizes.
Proof.
  revert start. induction sizes as [|s sizes IH]; intros start; simpl.
  - ring.
  - rewrite IH. ring.
Qed.

Lemma reduceWithSpacing_stackExtent (extent : ChatNode -> Qc) (spacing : Qc)
      (cs : list ChatNode) :
  reduceWithSpacing spacing (map extent cs) = stackExtent extent spacing cs.
Proof.
  unfold reduceWithSpacing, stackExtent, stackOffset.
  rewrite reduceWithSpacing_from.
  replace (fold_right (fun s acc => s + spacing + acc) 0 (map extent cs))
    with (fold_right (fun c acc => extent c + spacing + acc) 0 cs).
  - ring.
  - induction cs as [|c cs IH]; simpl; [|rewrite IH]; reflexivity.
Qed.

(** A step shared by the proofs about the two [positionFrom]: the loop
    returns children of the shape it was given. *)
Ltac same_children_shape places :=
  match goal with
  | |- context [forEachChild ?e ?s ?np ?pf ?cs ?off] =>
      pose proof (forEachChild_keeps_shape e s np pf cs
                    (proj2 (Forall_forall _ _) (fun c _ => places c)) off)
  end.

Lemma positionFromHorizontal_idempotent (node : ChatNode) :
  forall px py,
    positionFromHorizontal px py (fst (positionFromHorizontal px py node))
    = (fst (positionFromHorizontal px py node), false).
Proof.
  induction node as [node IH] using ChatNode_nested_ind. intros px py.
  rewrite (positionFromHorizontal_unfold px py node). cbv zeta. cbn [fst].
  same_children_shape positionFromHorizontal_placesOnly.
  rewrite positionFromHorizontal_unfold. cbv zeta. cbn [children height].
  rewrite (map_same_shape getSubtreeHeight _ _ getSubtreeHeight_same_shape H).
  rewrite (loop_idempotent getSubtreeHeight VERTICAL_SPACING
             (newPositionHorizontal px) positionFromHorizontal
             positionFromHorizontal_placesOnly getSubtreeHeight_same_shape
             (newPositionHorizontal_same_shape px) (children node) IH).
  reflexivity.
Qed.

Lemma positionFromVertical_idempotent (node : ChatNode) :
  forall px py,
    positionFromVertical px py (fst (positionFromVertical px py node))
    = (fst (positionFromVertical px py node), false).
Proof.
  induction node as [node IH] using ChatNode_nested_ind. intros px py.
  rewrite (positionFromVertical_unfold px py node). cbv zeta. cbn [fst].
  same_children_shape positionFromVertical_placesOnly.
  rewrite positionFromVertical_unfold. cbv zeta. cbn [children height].
  rewrite (map_same_shape getSubtreeWidth _ _ getSubtreeWidth_same_shape H).
  rewrite (loop_idempotent getSubtreeWidth HORIZONTAL_SPACING
             (newPositionVertical py (height node)) positionFromVertical
             positionFromVertical_placesOnly getSubtreeWidth_same_shape
             (newPositionVertical_same_shape py (height node))
             (children node) IH).
  reflexivity.
Qed.

Lemma positionFromHorizontal_unchanged (node : ChatNode) :
  forall px py,
    snd (positionFromHorizontal px py node) = false ->
    fst (positionFromHorizontal px py node) = withPosition node px py.
Proof.
  induction node as [node IH] using ChatNode_nested_ind. intros px py.
  rewrite positionFromHorizontal_unfold. cbv zeta. cbn [fst snd]. intros Hno.
  rewrite (loop_unchanged _ _ _ _ _ IH _ Hno). reflexivity.
Qed.

Lemma positionFromVertical_unchanged (node : ChatNode) :
  forall px py,
    snd (positionFromVertical px py node) = false ->
    fst (positionFromVertical px py node) = withPosition node px py.
Proof.
  induction node as [node IH] using ChatNode_nested_ind. intros px py.
  rewrite positionFromVertical_unfold. cbv zeta. cbn [fst snd]. intros Hno.
  rewrite (loop_unchanged _ _ _ _ _ IH _ Hno). reflexivity.
Qed.

(** The children of a node a [positionFrom] returns are stacked on it. *)
Lemma positionFromHorizontal_stacked (node : ChatNode) (px py : Qc) :
  stackedHorizontal (fst (positionFromHorizontal px py node)).
Proof.
  rewrite positionFromHorizontal_unfold. cbv zeta. cbn [fst].
  same_children_shape positionFromHorizontal_placesOnly.
  intros before child after Hch Hman. cbn [children x y height] in *.
  pose proof (loop_places getSubtreeHeight VERTICAL_SPACING
                (newPositionHorizontal px) positionFromHorizontal
                positionFromHorizontal_placesOnly getSubtreeHeight_same_shape
                (newPositionHorizontal_same_shape px)
                (children node) _ _ _ _ Hch Hman) as Hp.
  unfold newPositionHorizontal in Hp.
  pose proof (f_equal fst Hp) as Hx. pose proof (f_equal snd Hp) as Hy.
  cbn [fst snd] in Hx, Hy.
  rewrite (map_same_shape getSubtreeHeight _ _ getSubtreeHeight_same_shape H).
  split; assumption.
Qed.

Lemma positionFromVertical_stacked (node : ChatNode) (px py : Qc) :
  stackedVertical (fst (positionFromVertical px py node)).
Proof.
  rewrite positionFromVertical_unfold. cbv zeta. cbn [fst].
  same_children_shape positionFromVertical_placesOnly.
  intros before child after Hch Hman. cbn [children x y height] in *.
  pose proof (loop_places getSubtreeWidth HORIZONTAL_SPACING
                (newPositionVertical py (height node)) positionFromVertical
                positionFromVertical_placesOnly getSubtreeWidth_same_shape
                (newPositionVertical_same_shape py (height node))
                (children node) _ _ _ _ Hch Hman) as Hp.
  unfold newPositionVertical in Hp.
  pose proof (f_equal fst Hp) as Hx. pose proof (f_equal snd Hp) as Hy.
  cbn [fst snd] in Hx, Hy.
  rewrite (map_same_shape getSubtreeWidth _ _ getSubtreeWidth_same_shape H).
  split; assumption.
Qed.

(* ================================================================== *)
(** * Layout: the whole tree *)

Lemma nodeAt_cons (i : nat) (rest : list nat) (nodes : list ChatNode) :
  nodeAt (i :: rest) nodes
  = match nth_error nodes i with
    | None => None
    | Some node =>
        match rest with
        | [] => Some node
        | _ :: _ => nodeAt rest (children node)
        end
    end.
Proof. reflexivity. Qed.

(** A property of the top-level nodes that passes from a node to its
    children holds of every node of the tree. *)
Lemma nodeAt_invariant (Q : ChatNode -> Prop) :
  (forall o, Q o -> Forall Q (children o)) ->
  forall path nodes n,
    Forall Q nodes -> nodeAt path nodes = Some n -> Q n.
Proof.
  intros Hdown path.
  induction path as [|i rest IH]; intros nodes n Hall Hat; [discriminate|].
  rewrite nodeAt_cons in Hat.
  destruct (nth_error nodes i) as [node|] eqn:En; [|discriminate].
  assert (Hnode : Q node).
  { rewrite Forall_forall in Hall. apply Hall. eapply nth_error_In, En. }
  destruct rest as [|j rest].
  - inversion Hat; subst. assumption.
  - apply (IH (children node)); [apply Hdown; assumption | assumption].
Qed.

Lemma layoutHorizontal_fst (nodes : list ChatNode) :
  fst (layoutHorizontal nodes)
  = map (fun n => fst (positionFromHorizontal (x n) (y n) n)) nodes.
Proof. unfold layoutHorizontal. apply forEachNode_fst. Qed.

Lemma layoutVertical_fst (nodes : list ChatNode) :
  fst (layoutVertical nodes)
  = map (fun n => fst (positionFromVertical (x n) (y n) n)) nodes.
Proof. unfold layoutVertical. apply forEachNode_fst. Qed.

Lemma layoutHorizontal_stacked (nodes : list ChatNode) :
  forall path parent,
    nodeAt path (fst (layoutHorizontal nodes)) = Some parent ->
    stackedHorizontal parent.
Proof.
  intros path parent Hat.
  assert (Hout : exists c px py, parent = fst (positionFromHorizontal px py c)).
  { apply (nodeAt_invariant
             (fun o => exists c px py, o = fst (positionFromHorizontal px py c)))
      with (path := path) (nodes := fst (layoutHorizontal nodes)); [| |exact Hat].
    - intros o (c & px & py & ->).
      rewrite positionFromHorizontal_unfold. cbv zeta. cbn [fst children].
      apply loop_outputs.
    - rewrite layoutHorizontal_fst. apply Forall_forall. intros o Ho.
      apply in_map_iff in Ho. destruct Ho as (c & <- & _). eauto. }
  destruct Hout as (c & px & py & ->). apply positionFromHorizontal_stacked.
Qed.

Lemma layoutVertical_stacked (nodes : list ChatNode) :
  forall path parent,
    nodeAt path (fst (layoutVertical nodes)) = Some parent ->
    stackedVertical parent.
Proof.
  intros path parent Hat.
  assert (Hout : exists c px py, parent = fst (positionFromVertical px py c)).
  { apply (nodeAt_invariant
             (fun o => exists c px py, o = fst (positionFromVertical px py c)))
      with (path := path) (nodes := fst (layoutVertical nodes)); [| |exact Hat].
    - intros o (c & px & py & ->).
      rewrite positionFromVertical_unfold. cbv zeta. cbn [fst children].
      apply loop_outputs.
    - rewrite layoutVertical_fst. apply Forall_forall. intros o Ho.
      apply in_map_iff in Ho. destruct Ho as (c & <- & _). eauto. }
  destruct Hout as (c & px & py & ->). apply positionFromVertical_stacked.
Qed.

Lemma getSubtreeHeight_unfold (node : ChatNode) :
  getSubtreeHeight node
  = match children node with
    | [] => height node
    | _ :: _ =>
        Qcmax (height node)
              (stackExtent getSubtreeHeight VERTICAL_SPACING (children node))
    end.
Proof.
  rewrite <- reduceWithSpacing_stackExtent. destruct node; reflexivity.
Qed.

Lemma Qc_list_eq (l1 l2 : list Qc) : map this l1 = map this l2 -> l1 = l2.
Proof.
  revert l2. induction l1 as [|a l1 IH]; intros [|b l2] H;
    try discriminate; [reflexivity|].
  simpl in H. inversion H as [[Hab Hrest]]. f_equal; [|auto].
  apply Qc_is_canon. rewrite Hab. reflexivity.
Qed.

(** [Math.max] gives one of its two arguments, and neither is above it. *)
Lemma Qcmax_ge_l (a b : Qc) : a <= Qcmax a b.
Proof.
  unfold Qcmax. destruct (Qclt_le_dec a b) as [H|H];
    [apply Qclt_le_weak, H | apply Qcle_refl].
Qed.

Lemma Qcmax_ge_r (a b : Qc) : b <= Qcmax a b.
Proof.
  unfold Qcmax. destruct (Qclt_le_dec a b) as [H|H];
    [apply Qcle_refl | exact H].
Qed.

Lemma Qcmax_either (a b : Qc) : Qcmax a b = a \/ Qcmax a b = b.
Proof. unfold Qcmax. destruct (Qclt_le_dec a b); auto. Qed.

(** The [reduce] of the layouts sums the sizes with one spacing between
    neighbours: the first size and, for each further one, a spacing and
    that size. *)
Lemma reduceWithSpacing_sum (spacing first : Qc) (others : list Qc) :
  reduceWithSpacing spacing (first :: others)
  = fold_left (fun acc size => acc + spacing + size) others first.
Proof.
  unfold reduceWithSpacing. simpl.
  replace (- spacing + first + spacing) with first by ring.
  revert first. induction others as [|o others IH]; intros first;
    [reflexivity|].
  simpl. rewrite <- IH.
  rewrite !reduceWithSpacing_from. ring.
Qed.

(** [C2].  After [layoutHorizontal], at every node of the tree, each child
    that is not manually positioned has [x = parent.x + CARD_WIDTH +
    HORIZONTAL_SPACING]; the children take consecutive slots, one
    [VERTICAL_SPACING] apart, each slot as high as the child's subtree and
    the child centred in it, in a stack that starts half its whole height
    above the middle of the parent.  The subtree height of a node without
    children is its own height; that of a node with children is the
    larger of its own height and the summed subtree heights of its
    children with the gaps between them: it is one of the two and neither
    is above it.  A parent at [y = 500] of height 200 with two children
    of height 100 gets them at [y = 460] and [y = 640].  In the second
    example the subtree heights of the three children are 280 (the two
    stacked children of a lower card), 500 (a card higher than its two
    stacked children) and 100, and every card of the tree is placed
    accordingly. *)
Theorem layoutHorizontal_places_children :
  (forall chatTree path parent,
      nodeAt path (fst (layoutHorizontal chatTree)) = Some parent ->
      stackedHorizontal parent)
  /\ (forall node,
         children node = [] -> getSubtreeHeight node = height node)
  /\ (forall node,
         children node <> [] ->
         let summed :=
           reduceWithSpacing VERTICAL_SPACING
                             (map getSubtreeHeight (children node)) in
         height node <= getSubtreeHeight node
         /\ summed <= getSubtreeHeight node
         /\ (getSubtreeHeight node = height node
             \/ getSubtreeHeight node = summed))
  /\ (forall (first : Qc) (others : list Qc),
         reduceWithSpacing VERTICAL_SPACING (first :: others)
         = fold_left (fun acc size => acc + VERTICAL_SPACING + size)
                     others first)
  /\ map y (flat_map children (fst (layoutHorizontal centeringExample)))
     = [ofZ 460; ofZ 640]
  /\ map getSubtreeHeight (flat_map children subtreeExample)
     = [ofZ 280; ofZ 500; ofZ 100]
  /\ map flat_x (flatten (fst (layoutHorizontal subtreeExample)))
     = [ofZ 725; ofZ 1525; ofZ 2325; ofZ 2325; ofZ 1525; ofZ 2325; ofZ 2325;
        ofZ 1525]
  /\ map flat_y (flatten (fst (layoutHorizontal subtreeExample)))
     = [ofZ 500; ofZ 170; ofZ 80; ofZ 260; ofZ 440; ofZ 550; ofZ 730;
        ofZ 1020].
Proof.
  assert (Hunfold : forall node,
             getSubtreeHeight node
             = match children node with
               | [] => height node
               | _ :: _ =>
                   Qcmax (height node)
                         (reduceWithSpacing VERTICAL_SPACING
                            (map getSubtreeHeight (children node)))
               end)
    by (intros node; destruct node; reflexivity).
  split; [|split; [|split; [|split; [|split; [|split; [|split]]]]]].
  - intros chatTree path parent Hat.
    eapply layoutHorizontal_stacked; eassumption.
  - intros node Hleaf. rewrite Hunfold, Hleaf. reflexivity.
  - intros node Hcs. cbv zeta. rewrite Hunfold.
    destruct (children node) as [|c cs]; [contradiction|].
    split; [apply Qcmax_ge_l|]. split; [apply Qcmax_ge_r|].
    apply Qcmax_either.
  - intros first others. apply reduceWithSpacing_sum.
  - apply Qc_list_eq. vm_compute. reflexivity.
  - apply Qc_list_eq. vm_compute. reflexivity.
  - apply Qc_list_eq. vm_compute. reflexivity.
  - apply Qc_list_eq. vm_compute. reflexivity.
Qed.

Lemma layoutHorizontal_places_children_witness :
  stackedHorizontal
    (mkChatNode 1 None
       [ mkChatNode 2 None [] (ofZ 1525) (ofZ 460) (ofZ 100) None [] None;
         mkChatNode 3 None [] (ofZ 1525) (ofZ 640) (ofZ 100) None [] None ]
       (ofZ 725) (ofZ 500) (ofZ 200) None [] None)
  /\ height (mkChatNode 1 None
               [ mkChatNode 2 None [] (ofZ 0) (ofZ 0) (ofZ 100) None [] None;
                 mkChatNode 3 None [] (ofZ 0) (ofZ 0) (ofZ 100) None [] None ]
               (ofZ 725) (ofZ 500) (ofZ 200) None [] None)
     <= getSubtreeHeight
          (mkChatNode 1 None
             [ mkChatNode 2 None [] (ofZ 0) (ofZ 0) (ofZ 100) None [] None;
               mkChatNode 3 None [] (ofZ 0) (ofZ 0) (ofZ 100) None [] None ]
             (ofZ 725) (ofZ 500) (ofZ 200) None [] None).
Proof.
  split.
  - apply (proj1 layoutHorizontal_places_children centeringExample
                 [0%nat] _ eq_refl).
  - refine (proj1 (proj1 (proj2 (proj2 layoutHorizontal_places_children))
                 (mkChatNode 1 None
                    [ mkChatNode 2 None [] (ofZ 0) (ofZ 0) (ofZ 100) None []
                                 None;
                      mkChatNode 3 None [] (ofZ 0) (ofZ 0) (ofZ 100) None []
                                 None ]
                    (ofZ 725) (ofZ 500) (ofZ 200) None [] None) _)).
    discriminate.
Defined.

(* ================================================================== *)
(** * [updateHeights] *)

Lemma updateHeightsIn_unfold (clientHeight : Z -> option Z) (node : ChatNode) :
  updateHeightsIn clientHeight node
  = let measured :=
      match clientHeight (id node) with
      | Some h => (0 <? h)%Z && neqb (height node) (ofZ h)
      | None => false
      end in
    let newHeight :=
      match clientHeight (id node) with
      | Some h => if measured then ofZ h else height node
      | None => height node
      end in
    let rs := updateHeights clientHeight (children node) in
    (mkChatNode (id node) (quotedText node) (fst rs) (x node) (y node) newHeight
                (manualPosition node) (conversation node) (isThinking node),
     measured || snd rs).
Proof. destruct node; reflexivity. Qed.

Lemma updateHeights_cons (clientHeight : Z -> option Z) (node : ChatNode)
      (rest : list ChatNode) :
  updateHeights clientHeight (node :: rest)
  = (fst (updateHeightsIn clientHeight node)
       :: fst (updateHeights clientHeight rest),
     snd (updateHeightsIn clientHeight node)
     || snd (updateHeights clientHeight rest)).
Proof. reflexivity. Qed.

(** The flag is raised whenever a height is assigned. *)
Lemma updateHeights_unchanged (clientHeight : Z -> option Z)
      (nodes : list ChatNode) :
  snd (updateHeights clientHeight nodes) = false ->
  fst (updateHeights clientHeight nodes) = nodes.
Proof.
  induction nodes as [|node rest IHc IHr] using forest_ind; [reflexivity|].
  rewrite updateHeights_cons, updateHeightsIn_unfold. cbv zeta. cbn [fst snd].
  intros Hno.
  apply Bool.orb_false_elim in Hno. destruct Hno as [Hno Hrest].
  apply Bool.orb_false_elim in Hno. destruct Hno as [Hm Hcs].
  rewrite (IHr Hrest), (IHc Hcs), Hm.
  destruct node as [i q cs px py h m conv th]. simpl.
  destruct (clientHeight i); reflexivity.
Qed.

(** Once the heights are the measured ones, measuring again assigns
    nothing. *)
Lemma updateHeights_settles (clientHeight : Z -> option Z)
      (nodes : list ChatNode) :
  snd (updateHeights clientHeight (fst (updateHeights clientHeight nodes)))
  = false.
Proof.
  induction nodes as [|node rest IHc IHr] using forest_ind; [reflexivity|].
  rewrite (updateHeights_cons clientHeight node rest). cbn [fst].
  rewrite updateHeights_cons. cbn [snd]. rewrite IHr, Bool.orb_false_r.
  rewrite (updateHeightsIn_unfold clientHeight node). cbv zeta. cbn [fst].
  rewrite updateHeightsIn_unfold. cbv zeta. cbn [snd id height children].
  rewrite IHc, Bool.orb_false_r.
  destruct (clientHeight (id node)) as [h|]; [|reflexivity].
  destruct (0 <? h)%Z; [|reflexivity]. simpl.
  destruct (neqb (height node) (ofZ h)) eqn:E; [apply neqb_refl | exact E].
Qed.

(** Whether measuring assigns anything does not depend on the positions. *)
Lemma updateHeights_flag_same_shape (clientHeight : Z -> option Z)
      (l1 : list ChatNode) :
  forall l2, map forgetPosition l1 = map forgetPosition l2 ->
             snd (updateHeights clientHeight l1)
             = snd (updateHeights clientHeight l2).
Proof.
  induction l1 as [|a l1 IHc IHr] using forest_ind; intros [|b l2] H;
    try discriminate; [reflexivity|].
  simpl in H. inversion H as [[Hab Hrest]].
  rewrite !updateHeights_cons. cbn [snd]. rewrite (IHr _ Hrest). f_equal.
  rewrite !updateHeightsIn_unfold. cbv zeta. cbn [snd].
  destruct (forgetPosition_fields _ _ Hab) as (-> & -> & _ & Hcs).
  rewrite (IHc _ Hcs). reflexivity.
Qed.

(** [fst (updateHeightsIn clientHeight node)] keeps everything of the node
    but the heights. *)
Lemma updateHeightsIn_keeps (clientHeight : Z -> option Z) (node : ChatNode) :
  let measured := fst (updateHeightsIn clientHeight node) in
  id measured = id node /\ x measured = x node /\ y measured = y node
  /\ isManual measured = isManual node
  /\ children measured
     = map (fun c => fst (updateHeightsIn clientHeight c)) (children node).
Proof.
  rewrite updateHeightsIn_unfold. cbv zeta. cbn [fst]. unfold isManual.
  cbn [id x y manualPosition children]. repeat split.
  unfold updateHeights. apply forEachNode_fst.
Qed.

(* ================================================================== *)
(** * Layout: running it again *)

Lemma layout_same_shape (layoutMode : LayoutMode) (nodes : list ChatNode) :
  map forgetPosition (fst (layout layoutMode nodes)) = map forgetPosition nodes.
Proof.
  destruct layoutMode; simpl;
    [rewrite layoutHorizontal_fst | rewrite layoutVertical_fst];
    rewrite map_map; apply map_ext; intros n.
  - apply positionFromHorizontal_placesOnly.
  - apply positionFromVertical_placesOnly.
Qed.

Lemma forEachNode_idempotent (f : ChatNode -> ChatNode * bool) :
  (forall n, f (fst (f n)) = (fst (f n), false)) ->
  forall nodes,
    forEachNode f (fst (forEachNode f nodes))
    = (fst (forEachNode f nodes), false).
Proof.
  intros Hf nodes. induction nodes as [|n rest IH]; [reflexivity|].
  simpl. rewrite IH, Hf. reflexivity.
Qed.

Lemma positionChildrenHorizontal_idempotent (n : ChatNode) :
  positionChildrenHorizontal (fst (positionChildrenHorizontal n))
  = (fst (positionChildrenHorizontal n), false).
Proof.
  unfold positionChildrenHorizontal.
  destruct (positionFromHorizontal_placesOnly n (x n) (y n)) as (_ & Hx & Hy).
  rewrite Hx, Hy. apply positionFromHorizontal_idempotent.
Qed.

Lemma positionChildrenVertical_idempotent (n : ChatNode) :
  positionChildrenVertical (fst (positionChildrenVertical n))
  = (fst (positionChildrenVertical n), false).
Proof.
  unfold positionChildrenVertical.
  destruct (positionFromVertical_placesOnly n (x n) (y n)) as (_ & Hx & Hy).
  rewrite Hx, Hy. apply positionFromVertical_idempotent.
Qed.

Lemma layout_idempotent (layoutMode : LayoutMode) (nodes : list ChatNode) :
  layout layoutMode (fst (layout layoutMode nodes))
  = (fst (layout layoutMode nodes), false).
Proof.
  destruct layoutMode; simpl; apply forEachNode_idempotent.
  - apply positionChildrenHorizontal_idempotent.
  - apply positionChildrenVertical_idempotent.
Qed.

(** The flag is raised whenever a position is assigned. *)
Lemma layout_unchanged (layoutMode : LayoutMode) (nodes : list ChatNode) :
  snd (layout layoutMode nodes) = false -> fst (layout layoutMode nodes) = nodes.
Proof.
  destruct layoutMode; simpl.
  - unfold layoutHorizontal. induction nodes as [|n rest IH]; [reflexivity|].
    simpl. intros Hno. apply Bool.orb_false_elim in Hno. destruct Hno as [Hn Hr].
    rewrite (IH Hr). unfold positionChildrenHorizontal in *.
    rewrite (positionFromHorizontal_unchanged _ _ _ Hn). destruct n; reflexivity.
  - unfold layoutVertical. induction nodes as [|n rest IH]; [reflexivity|].
    simpl. intros Hno. apply Bool.orb_false_elim in Hno. destruct Hno as [Hn Hr].
    rewrite (IH Hr). unfold positionChildrenVertical in *.
    rewrite (positionFromVertical_unchanged _ _ _ Hn). destruct n; reflexivity.
Qed.

Lemma layoutEffect_layout (clientHeight : Z -> option Z)
      (layoutMode : LayoutMode) (chatTree : list ChatNode) :
  layoutEffect clientHeight layoutMode chatTree
  = (fst (layout layoutMode (fst (updateHeights clientHeight chatTree))),
     snd (updateHeights clientHeight chatTree)
     || snd (layout layoutMode (fst (updateHeights clientHeight chatTree)))).
Proof. destruct layoutMode; reflexivity. Qed.

(** The state after the effect is the working copy, replaced or not. *)
Lemma runLayout_newTree (clientHeight : Z -> option Z)
      (layoutMode : LayoutMode) (chatTree : list ChatNode) :
  runLayout clientHeight layoutMode chatTree
  = fst (layoutEffect clientHeight layoutMode chatTree).
Proof.
  unfold runLayout.
  destruct (snd (layoutEffect clientHeight layoutMode chatTree)) eqn:E;
    [reflexivity|].
  rewrite layoutEffect_layout in *. cbn [fst snd] in *.
  apply Bool.orb_false_elim in E. destruct E as [Hm Hl].
  rewrite (layout_unchanged _ _ Hl). symmetry.
  apply updateHeights_unchanged, Hm.
Qed.

(** [C3].  With the measured heights the same, running the effect on the
    state the first run left raises no flag and computes the tree it was
    given: no height and no position is assigned, in either mode. *)
Theorem layout_idempotent_on_second_run :
  forall (clientHeight : Z -> option Z) (layoutMode : LayoutMode)
         (chatTree : list ChatNode),
    let afterFirst := runLayout clientHeight layoutMode chatTree in
    layoutEffect clientHeight layoutMode afterFirst = (afterFirst, false)
    /\ runLayout clientHeight layoutMode afterFirst = afterFirst.
Proof.
  intros clientHeight layoutMode chatTree afterFirst.
  assert (Hrun : layoutEffect clientHeight layoutMode afterFirst
                 = (afterFirst, false)).
  { subst afterFirst. rewrite runLayout_newTree.
    rewrite (layoutEffect_layout clientHeight layoutMode chatTree). cbn [fst].
    set (measured := fst (updateHeights clientHeight chatTree)).
    rewrite layoutEffect_layout.
    assert (Hflag : snd (updateHeights clientHeight
                           (fst (layout layoutMode measured))) = false).
    { rewrite (updateHeights_flag_same_shape clientHeight _ measured
                 (layout_same_shape layoutMode measured)).
      apply updateHeights_settles. }
    rewrite Hflag, (updateHeights_unchanged _ _ Hflag), layout_idempotent.
    reflexivity. }
  split; [assumption|].
  unfold runLayout. rewrite Hrun. reflexivity.
Qed.

(* ================================================================== *)
(** * Layout: following a node through it *)

Lemma nodeAt_map (g : ChatNode -> ChatNode) :
  (forall n, children (g n) = map g (children n)) ->
  forall path nodes,
    nodeAt path (map g nodes) = option_map g (nodeAt path nodes).
Proof.
  intros Hg path.
  induction path as [|i rest IH]; intros nodes; [reflexivity|].
  rewrite !nodeAt_cons, nth_error_map.
  destruct (nth_error nodes i) as [node|]; [|reflexivity]. simpl.
  destruct rest as [|j rest]; [reflexivity|].
  rewrite Hg. apply IH.
Qed.

Section PathsThroughLayout.

Variable extent : ChatNode -> Qc.
Variable spacing : Qc.
Variable positionFrom : Qc -> Qc -> ChatNode -> ChatNode * bool.
Variable newPositionOf : Qc -> Qc -> ChatNode -> Qc -> ChatNode -> Qc * Qc.
Variable startOf : Qc -> Qc -> ChatNode -> Qc.

Hypothesis children_positionFrom :
  forall px py node,
    children (fst (positionFrom px py node))
    = fst (forEachChild extent spacing (newPositionOf px py node)
                        positionFrom (children node) (startOf px py node)).

Lemma nodeAt_forEachChild (path : list nat) :
  forall cs n,
    nodeAt path cs = Some n ->
    forall newPosition offset,
    exists px py,
      nodeAt path (fst (forEachChild extent spacing newPosition positionFrom
                                     cs offset))
      = Some (fst (positionFrom px py n))
      /\ (isManual n = true -> px = x n /\ py = y n).
Proof.
  induction path as [|i rest IH]; intros cs n Hat newPosition offset;
    [discriminate|].
  rewrite nodeAt_cons in *.
  destruct (nth_error cs i) as [c|] eqn:En; [|discriminate].
  destruct (loop_nth extent spacing newPosition positionFrom cs offset i c En)
    as (px & py & Hnth & Hman).
  rewrite Hnth. destruct rest as [|j rest].
  - inversion Hat; subst c. exists px, py. auto.
  - rewrite children_positionFrom. apply IH, Hat.
Qed.

Lemma nodeAt_forEachNode (path : list nat) (nodes : list ChatNode)
      (n : ChatNode) :
  nodeAt path nodes = Some n ->
  exists px py,
    nodeAt path (fst (forEachNode (fun r => positionFrom (x r) (y r) r) nodes))
    = Some (fst (positionFrom px py n))
    /\ (isManual n = true -> px = x n /\ py = y n).
Proof.
  destruct path as [|i rest]; [discriminate|].
  rewrite forEachNode_fst, !nodeAt_cons, nth_error_map.
  destruct (nth_error nodes i) as [r|]; [|discriminate]. simpl.
  destruct rest as [|j rest].
  - intros Hat. inversion Hat; subst r. exists (x n), (y n). auto.
  - intros Hat. rewrite children_positionFrom.
    apply nodeAt_forEachChild, Hat.
Qed.

End PathsThroughLayout.

Lemma nodeAt_layout (layoutMode : LayoutMode) (path : list nat)
      (nodes : list ChatNode) (n : ChatNode) :
  nodeAt path nodes = Some n ->
  isManual n = true ->
  exists n',
    nodeAt path (fst (layout layoutMode nodes)) = Some n'
    /\ id n' = id n /\ x n' = x n /\ y n' = y n /\ stacked layoutMode n'.
Proof.
  intros Hat Hman. destruct layoutMode; simpl.
  - destruct (nodeAt_forEachNode getSubtreeHeight VERTICAL_SPACING
                positionFromHorizontal
                (fun px _ _ => newPositionHorizontal px)
                (fun _ py node =>
                   py + height node / two
                   - reduceWithSpacing VERTICAL_SPACING
                       (map getSubtreeHeight (children node)) / two)
                (fun px py node =>
                   f_equal (fun r => children (fst r))
                           (positionFromHorizontal_unfold px py node))
                path nodes n Hat) as (px & py & Hout & Hkeep).
    destruct (Hkeep Hman) as [-> ->].
    exists (fst (positionFromHorizontal (x n) (y n) n)).
    split; [exact Hout|].
    destruct (positionFromHorizontal_placesOnly n (x n) (y n)) as (Hs & Hx & Hy).
    destruct (forgetPosition_fields _ _ Hs) as (Hid & _).
    split; [assumption | split; [assumption | split; [assumption|]]].
    apply positionFromHorizontal_stacked.
  - destruct (nodeAt_forEachNode getSubtreeWidth HORIZONTAL_SPACING
                positionFromVertical
                (fun _ py node => newPositionVertical py (height node))
                (fun px _ node =>
                   px + CARD_WIDTH / two
                   - reduceWithSpacing HORIZONTAL_SPACING
                       (map getSubtreeWidth (children node)) / two)
                (fun px py node =>
                   f_equal (fun r => children (fst r))
                           (positionFromVertical_unfold px py node))
                path nodes n Hat) as (px & py & Hout & Hkeep).
    destruct (Hkeep Hman) as [-> ->].
    exists (fst (positionFromVertical (x n) (y n) n)).
    split; [exact Hout|].
    destruct (positionFromVertical_placesOnly n (x n) (y n)) as (Hs & Hx & Hy).
    destruct (forgetPosition_fields _ _ Hs) as (Hid & _).
    split; [assumption | split; [assumption | split; [assumption|]]].
    apply positionFromVertical_stacked.
Qed.

(** [C4].  In either mode, a node with the manual-position flag set is at
    the same place in the tree after the effect and has the [x] and [y] it
    had, and its children that are not themselves manually positioned are
    stacked on it as on any other parent, from the position it has. *)
Theorem layout_keeps_manual_positions :
  forall (clientHeight : Z -> option Z) (layoutMode : LayoutMode)
         (chatTree : list ChatNode) (path : list nat) (n : ChatNode),
    nodeAt path chatTree = Some n ->
    isManual n = true ->
    exists n',
      nodeAt path (runLayout clientHeight layoutMode chatTree) = Some n'
      /\ id n' = id n /\ x n' = x n /\ y n' = y n
      /\ stacked layoutMode n'.
Proof.
  intros clientHeight layoutMode chatTree path n Hat Hman.
  rewrite runLayout_newTree, layoutEffect_layout. cbn [fst].
  set (measure := fun c => fst (updateHeightsIn clientHeight c)).
  assert (Hm : nodeAt path (fst (updateHeights clientHeight chatTree))
               = Some (measure n)).
  { unfold updateHeights. rewrite forEachNode_fst.
    rewrite (nodeAt_map measure), Hat; [reflexivity|].
    intros c. apply updateHeightsIn_keeps. }
  destruct (updateHeightsIn_keeps clientHeight n) as (Hid & Hx & Hy & Hmm & _).
  fold (measure n) in Hid, Hx, Hy, Hmm.
  destruct (nodeAt_layout layoutMode path _ (measure n) Hm)
    as (n' & Hout & Hid' & Hx' & Hy' & Hst); [congruence|].
  exists n'. split; [assumption|].
  split; [congruence | split; [congruence | split; [congruence | assumption]]].
Qed.

Lemma layout_keeps_manual_positions_witness :
  exists n',
    nodeAt [0%nat; 0%nat] (runLayout (fun _ => None) horizontal draggedExample)
    = Some n'
    /\ id n' = id draggedNode /\ x n' = x draggedNode /\ y n' = y draggedNode
    /\ stacked horizontal n'.
Proof.
  apply (layout_keeps_manual_positions (fun _ => None) horizontal draggedExample
           [0%nat; 0%nat] draggedNode); reflexivity.
Defined.

(* ================================================================== *)
(** * The root *)

Lemma rootId_map (g : ChatNode -> ChatNode) (nodes : list ChatNode) :
  (forall n, id (g n) = id n) -> rootId (map g nodes) = rootId nodes.
Proof.
  intros Hg. destruct nodes as [|n rest]; [reflexivity|].
  unfold rootId. simpl. rewrite Hg. reflexivity.
Qed.

Lemma addChildIn_id (sourceChatId : Z) (newNode n : ChatNode) :
  id (addChildIn sourceChatId newNode n) = id n.
Proof.
  destruct n as [i q cs px py h m conv th]. simpl.
  destruct (i =? sourceChatId)%Z; [reflexivity|]. destruct cs; reflexivity.
Qed.

Lemma updatePositionIn_id (chatId : Z) (nx ny : Qc) (n : ChatNode) :
  id (updatePositionIn chatId nx ny n) = id n.
Proof.
  destruct n as [i q cs px py h m conv th]. simpl.
  destruct (i =? chatId)%Z; reflexivity.
Qed.

Lemma appendMessage_id (chatId : Z) (message : JsString.t) (n : ChatNode) :
  id (appendMessage chatId message n) = id n.
Proof.
  destruct n as [i q cs px py h m conv th]. simpl.
  destruct (i =? chatId)%Z; reflexivity.
Qed.

Lemma setErrorState_id (chatId : Z) (n : ChatNode) :
  id (setErrorState chatId n) = id n.
Proof.
  destruct n as [i q cs px py h m conv th]. simpl.
  destruct (i =? chatId)%Z; reflexivity.
Qed.

Lemma addAssistantPlaceholder_id (chatId : Z) (n : ChatNode) :
  id (addAssistantPlaceholder chatId n) = id n.
Proof.
  destruct n as [i q cs px py h m conv th]. simpl.
  destruct (i =? chatId)%Z; reflexivity.
Qed.

Lemma appendResponseChunk_id (chatId : Z) (chunkValue : JsString.t)
      (n : ChatNode) :
  id (appendResponseChunk chatId chunkValue n) = id n.
Proof.
  destruct n as [i q cs px py h m conv th]. simpl.
  destruct (i =? chatId)%Z; [|reflexivity].
  destruct (lastMessage conv) as [[[] c]|]; reflexivity.
Qed.

Lemma readLoop_rootId (chatId : Z) (chunks : list JsString.t) :
  forall tree,
    rootId (fold_left
              (fun t chunkValue => map (appendResponseChunk chatId chunkValue) t)
              chunks tree)
    = rootId tree.
Proof.
  induction chunks as [|c chunks IH]; intros tree; [reflexivity|].
  simpl. rewrite IH. apply rootId_map. intros n. apply appendResponseChunk_id.
Qed.

Lemma rootId_same_shape (l1 l2 : list ChatNode) :
  map forgetPosition l1 = map forgetPosition l2 -> rootId l1 = rootId l2.
Proof.
  destruct l1 as [|a l1], l2 as [|b l2]; try discriminate; [reflexivity|].
  simpl. intros H. injection H as Hab _. unfold rootId. simpl.
  destruct (forgetPosition_fields _ _ Hab) as (-> & _). reflexivity.
Qed.

Lemma runLayout_rootId (clientHeight : Z -> option Z) (layoutMode : LayoutMode)
      (chatTree : list ChatNode) :
  rootId (runLayout clientHeight layoutMode chatTree) = rootId chatTree.
Proof.
  rewrite runLayout_newTree, layoutEffect_layout. cbn [fst].
  rewrite (rootId_same_shape _ _ (layout_same_shape layoutMode _)).
  unfold updateHeights. rewrite forEachNode_fst. apply rootId_map.
  intros n. apply updateHeightsIn_keeps.
Qed.

Lemma handleDelete_rootId (chatId : Z) (chatTree : list ChatNode) :
  isRoot chatTree chatId = false ->
  rootId (handleDelete chatId chatTree) = rootId chatTree.
Proof.
  destruct chatTree as [|root rest]; [reflexivity|].
  unfold handleDelete, isRoot. intros Hroot. rewrite removeNode_cons.
  rewrite Z.eqb_sym, Hroot. destruct root; reflexivity.
Qed.

Lemma perform_rootId (a : Action) (chatTree : list ChatNode) :
  offered chatTree a = true -> rootId (perform a chatTree) = rootId chatTree.
Proof.
  destruct a as [source text newId | source newId | chatId | chatId nx ny
                 | chatId message res | clientHeight layoutMode];
    simpl; intros Hoff.
  - apply rootId_map. intros n. apply addChildIn_id.
  - apply rootId_map. intros n. apply addChildIn_id.
  - apply handleDelete_rootId. apply Bool.negb_true_iff, Hoff.
  - apply rootId_map. intros n. apply updatePositionIn_id.
  - unfold handleNewMessage. destruct res as [| |chunks].
    + rewrite !rootId_map; auto using setErrorState_id, appendMessage_id.
    + apply rootId_map. intros n. apply appendMessage_id.
    + unfold readLoop. rewrite readLoop_rootId.
      rewrite !rootId_map; auto using addAssistantPlaceholder_id, appendMessage_id.
  - apply runLayout_rootId.
Qed.

(** [C7] as stated fails: [deleteNode] has no guard of its own, and with
    the id of the root it empties the tree. *)
Lemma deleteNode_removes_root :
  rootId initialTree = Some 1%Z
  /\ handleDelete 1 initialTree = []
  /\ findNode (handleDelete 1 initialTree) 1 = None.
Proof. repeat split. Qed.

(** [C7], as amended.  The tree starts with exactly one node, the root.
    The card of the root renders no delete control, and every action the
    page offers leaves the first top-level node in place with its id: in
    every state reached from the initial tree the root is still the first
    node of the tree.  [deleteNode] itself does not refuse the id of the
    root. *)
Theorem root_survives_offered_actions :
  length initialTree = 1%nat
  /\ rootId initialTree = Some 1%Z
  /\ (forall chatTree chatId,
         rootId chatTree = Some chatId -> offered chatTree (Delete chatId) = false)
  /\ (forall chatTree a root rest,
         chatTree = root :: rest ->
         offered chatTree a = true ->
         exists root' rest',
           perform a chatTree = root' :: rest' /\ id root' = id root)
  /\ (forall chatTree,
         reachable chatTree ->
         exists root rest, chatTree = root :: rest /\ id root = 1%Z).
Proof.
  assert (Hhead : forall chatTree i,
             rootId chatTree = Some i ->
             exists root rest, chatTree = root :: rest /\ id root = i).
  { intros [|root rest] i H; [discriminate|].
    unfold rootId in H. simpl in H. inversion H. eauto. }
  split; [reflexivity|]. split; [reflexivity|]. split; [|split].
  - intros [|root rest] chatId H; [discriminate|].
    unfold rootId in H. simpl in *. inversion H. rewrite Z.eqb_refl. reflexivity.
  - intros chatTree a root rest -> Hoff.
    apply Hhead. rewrite (perform_rootId _ _ Hoff). reflexivity.
  - intros chatTree Hreach. apply Hhead.
    induction Hreach as [|chatTree a _ IH Hoff]; [reflexivity|].
    rewrite (perform_rootId _ _ Hoff). exact IH.
Qed.

Lemma root_survives_offered_actions_witness :
  exists root' rest',
    perform (Delete 2) sampleTree = root' :: rest' /\ id root' = 1%Z.
Proof.
  apply (proj1 (proj2 (proj2 (proj2 root_survives_offered_actions)))
               sampleTree (Delete 2) _ _ eq_refl eq_refl).
Defined.

(* ================================================================== *)
(** * Further instances *)

Lemma truncateSelection_first_two_nonempty_lines_witness :
  truncateSelection (js "one" ++ [CR; LF; LF] ++ js "two" ++ [LF] ++ js "three")
  = js "one two".
Proof.
  apply (proj1 (proj2 (proj2 (proj1 truncateSelection_first_two_nonempty_lines
           (js "one" ++ [CR; LF; LF] ++ js "two" ++ [LF] ++ js "three"))))).
  apply Nat.leb_le. reflexivity.
Defined.

Lemma updatePosition_idempotent_witness :
  moveChildren
    (ofZ 10 - x (updatePositionIn 2 (ofZ 10) (ofZ 20) draggedNode))
    (ofZ 20 - y (updatePositionIn 2 (ofZ 10) (ofZ 20) draggedNode))
    (children (updatePositionIn 2 (ofZ 10) (ofZ 20) draggedNode))
  = children (updatePositionIn 2 (ofZ 10) (ofZ 20) draggedNode).
Proof.
  apply (proj2 (updatePosition_idempotent 2 (ofZ 10) (ofZ 20) draggedExample)
               draggedNode eq_refl).
Defined.

(* ================================================================== *)
(** * Operations addressed to an id *)

Lemma withChildren_same (node : ChatNode) :
  withChildren node (children node) = node.
Proof. destruct node; reflexivity. Qed.

Lemma map_unchanged_off_id (chatId : Z) (g : ChatNode -> ChatNode) :
  (forall node, id node <> chatId ->
                g node = withChildren node (map g (children node))) ->
  forall nodes, ~ In chatId (ids nodes) -> map g nodes = nodes.
Proof.
  intros Hg nodes.
  induction nodes as [|node rest IHc IHr] using forest_ind; intros Hn.
  - reflexivity.
  - rewrite ids_cons in Hn. simpl.
    assert (Hne : id node <> chatId) by (intros E; apply Hn; left; exact E).
    rewrite (Hg _ Hne), IHc, IHr, withChildren_same; [reflexivity| |];
      intros H; apply Hn; right; apply in_or_app; auto.
Qed.

Lemma addChildIn_off (sourceChatId : Z) (newNode node : ChatNode) :
  id node <> sourceChatId ->
  addChildIn sourceChatId newNode node
  = withChildren node (map (addChildIn sourceChatId newNode) (children node)).
Proof.
  intros Hne. destruct node as [i q cs px py h m conv th]. simpl in *.
  destruct (Z.eqb_spec i sourceChatId); [contradiction|].
  destruct cs; reflexivity.
Qed.

Lemma updatePositionIn_off (chatId : Z) (nx ny : Qc) (node : ChatNode) :
  id node <> chatId ->
  updatePositionIn chatId nx ny node
  = withChildren node (map (updatePositionIn chatId nx ny) (children node)).
Proof.
  intros Hne. destruct node as [i q cs px py h m conv th]. simpl in *.
  destruct (Z.eqb_spec i chatId); [contradiction | reflexivity].
Qed.

Lemma setErrorState_off (chatId : Z) (node : ChatNode) :
  id node <> chatId ->
  setErrorState chatId node
  = withChildren node (map (setErrorState chatId) (children node)).
Proof.
  intros Hne. destruct node as [i q cs px py h m conv th]. simpl in *.
  destruct (Z.eqb_spec i chatId); [contradiction | reflexivity].
Qed.

Lemma readLoop_absent (chatId : Z) (chunks : list JsString.t)
      (tree : list ChatNode) :
  ~ In chatId (ids tree) -> readLoop chatId chunks tree = tree.
Proof.
  intros Hn. unfold readLoop.
  induction (chunks ++ [[]]) as [|c cs IH]; [reflexivity|].
  simpl. rewrite (map_unchanged_off_id chatId); [exact IH | | exact Hn].
  intros node. apply appendResponseChunk_off.
Qed.

(** [X1].  An operation addressed to an id that no node of the tree has
    changes nothing: branching and creating from a selection add no node,
    deleting removes none, a position change moves none, and a message,
    however the request ends, is appended nowhere. *)
Theorem unknown_id_changes_nothing :
  forall (chatTree : list ChatNode) (chatId : Z),
    ~ In chatId (ids chatTree) ->
    (forall newId, handleBranch chatId newId chatTree = chatTree)
    /\ (forall text newId,
           handleCreateFromSelection chatId text newId chatTree = chatTree)
    /\ handleDelete chatId chatTree = chatTree
    /\ (forall nx ny, handleChatPositionChange chatId nx ny chatTree = chatTree)
    /\ (forall message res,
           handleNewMessage chatId message res chatTree = chatTree).
Proof.
  intros chatTree chatId Hn.
  split; [|split; [|split; [|split]]].
  - intros newId. unfold handleBranch, addChild.
    apply (map_unchanged_off_id chatId); [|exact Hn].
    intros node. apply addChildIn_off.
  - intros text newId. unfold handleCreateFromSelection, addChild.
    apply (map_unchanged_off_id chatId); [|exact Hn].
    intros node. apply addChildIn_off.
  - apply removeNode_absent, Hn.
  - intros nx ny. unfold handleChatPositionChange, updatePosition.
    apply (map_unchanged_off_id chatId); [|exact Hn].
    intros node. apply updatePositionIn_off.
  - intros message res. unfold handleNewMessage.
    assert (H1 : map (appendMessage chatId message) chatTree = chatTree).
    { apply (map_unchanged_off_id chatId); [|exact Hn].
      intros node. apply appendMessage_off. }
    rewrite H1. destruct res as [| |chunks].
    + apply (map_unchanged_off_id chatId); [|exact Hn].
      intros node. apply setErrorState_off.
    + reflexivity.
    + rewrite (map_unchanged_off_id chatId
                 (addAssistantPlaceholder chatId)); [| |exact Hn].
      * apply readLoop_absent, Hn.
      * intros node. apply addAssistantPlaceholder_off.
Qed.

Lemma unknown_id_changes_nothing_witness :
  (forall newId, handleBranch 9 newId sampleTree = sampleTree)
  /\ (forall text newId,
         handleCreateFromSelection 9 text newId sampleTree = sampleTree)
  /\ handleDelete 9 sampleTree = sampleTree
  /\ (forall nx ny, handleChatPositionChange 9 nx ny sampleTree = sampleTree)
  /\ (forall message res, handleNewMessage 9 message res sampleTree = sampleTree).
Proof.
  apply (unknown_id_changes_nothing sampleTree 9%Z).
  simpl. intuition discriminate.
Defined.

(* ================================================================== *)
(** * Adding a child *)

Lemma addChild_cons (sourceChatId : Z) (newNode node : ChatNode)
      (rest : list ChatNode) :
  addChild sourceChatId newNode (node :: rest)
  = addChildIn sourceChatId newNode node :: addChild sourceChatId newNode rest.
Proof. reflexivity. Qed.

Lemma addChild_absent (sourceChatId : Z) (newNode : ChatNode)
      (nodes : list ChatNode) :
  ~ In sourceChatId (ids nodes) -> addChild sourceChatId newNode nodes = nodes.
Proof.
  intros Hn. unfold addChild. apply (map_unchanged_off_id sourceChatId); [|exact Hn].
  intros node. apply addChildIn_off.
Qed.

Lemma flatten_app (l1 l2 : list ChatNode) :
  flatten (l1 ++ l2) = flatten l1 ++ flatten l2.
Proof. unfold flatten. apply flat_map_app. Qed.

Lemma flattenNode_unfold (node : ChatNode) :
  flattenNode node = flat node :: flatten (children node).
Proof. destruct node; reflexivity. Qed.

Lemma addChild_inserts (sourceChatId : Z) (newNode : ChatNode)
      (nodes : list ChatNode) :
  forall n, NoDup (ids nodes) -> findNode nodes sourceChatId = Some n ->
  exists before after,
    flatten nodes = before ++ flattenNode n ++ after
    /\ flatten (addChild sourceChatId newNode nodes)
       = before ++ flattenNode n ++ flattenNode newNode ++ after.
Proof.
  induction nodes as [|node rest IHc IHr] using forest_ind; intros n Hnd Hf.
  - discriminate.
  - rewrite ids_cons in Hnd. inversion Hnd as [|? ? Hhead Htail]; subst.
    rewrite findNode_cons in Hf. rewrite addChild_cons.
    destruct (Z.eqb_spec (id node) sourceChatId) as [Heq|Hne].
    + inversion Hf; subst n. exists [], (flatten rest). split.
      * reflexivity.
      * rewrite (addChild_absent sourceChatId newNode rest).
        -- destruct node as [i q cs px py h m conv th]. simpl in *.
           subst i. rewrite Z.eqb_refl. unfold withChildren. simpl.
           change (flat_map flattenNode (cs ++ [newNode]))
             with (flatten (cs ++ [newNode])).
           rewrite flatten_app. simpl. rewrite app_nil_r, <- !app_assoc.
           reflexivity.
        -- intros Hin. apply Hhead, in_or_app. rewrite Heq. auto.
    + rewrite (addChildIn_off _ _ _ Hne).
      destruct (findNode (children node) sourceChatId) eqn:Ec.
      * inversion Hf; subst c.
        destruct (IHc n (NoDup_app_remove_r _ _ Htail) eq_refl)
          as (before & after & Hflat & Hadd).
        exists (flat node :: before), (after ++ flatten rest). split.
        -- rewrite flatten_cons, Hflat. simpl. rewrite <- !app_assoc. reflexivity.
        -- rewrite flatten_withChildren. fold (addChild sourceChatId newNode (children node)).
           rewrite Hadd, (addChild_absent sourceChatId newNode rest).
           ++ simpl. rewrite <- !app_assoc. reflexivity.
           ++ apply (NoDup_app_disjoint _ _ _ Htail).
              apply (findNode_Some_present _ _ _ Ec).
      * destruct (IHr n (NoDup_app_remove_l _ _ Htail) Hf)
          as (before & after & Hflat & Hadd).
        exists (flat node :: flatten (children node) ++ before), after. split.
        -- rewrite flatten_cons, Hflat. simpl. rewrite <- !app_assoc. reflexivity.
        -- rewrite flatten_withChildren. fold (addChild sourceChatId newNode (children node)).
           rewrite Hadd, (addChild_absent sourceChatId newNode (children node)).
           ++ simpl. rewrite <- !app_assoc. reflexivity.
           ++ apply findNode_None_absent, Ec.
Qed.

Lemma truncateSelection_length (text : JsString.t) :
  (length (truncateSelection text) <= 241)%nat.
Proof.
  unfold truncateSelection, slice0, maxChars.
  destruct (Nat.ltb_spec 240 (length (firstTwo text))) as [H|H].
  - rewrite length_app, firstn_length_le by lia. simpl. lia.
  - lia.
Qed.

(** [X2].  In a tree with unique ids, creating from a selection on a node
    found in the tree adds exactly one entry to the flattened list, right
    after the node and its descendants, and leaves every other entry as it
    was.  The new node has the given id, no messages, height 150, and as
    quoted text the truncated selection, which is at most 241 code units
    long.  Branching does the same with no quoted text. *)
Theorem new_child_is_last_of_subtree :
  forall (chatTree : list ChatNode) (sourceChatId newId : Z)
         (text : JsString.t) (n : ChatNode),
    NoDup (ids chatTree) ->
    findNode chatTree sourceChatId = Some n ->
    (exists before after,
        flatten chatTree = before ++ flattenNode n ++ after
        /\ flatten (handleCreateFromSelection sourceChatId text newId chatTree)
           = before ++ flattenNode n
               ++ [mkFlatChat newId (ofZ 0) (ofZ 0) (ofZ 150)
                              (Some (truncateSelection text)) [] None]
               ++ after)
    /\ (exists before after,
           flatten chatTree = before ++ flattenNode n ++ after
           /\ flatten (handleBranch sourceChatId newId chatTree)
              = before ++ flattenNode n
                  ++ [mkFlatChat newId (ofZ 0) (ofZ 0) (ofZ 150) None [] None]
                  ++ after)
    /\ (length (truncateSelection text) <= 241)%nat.
Proof.
  intros chatTree sourceChatId newId text n Hnd Hf.
  split; [|split].
  - unfold handleCreateFromSelection.
    destruct (addChild_inserts sourceChatId
                (mkChatNode newId (Some (truncateSelection text)) [] (ofZ 0)
                            (ofZ 0) (ofZ 150) None [] None)
                chatTree n Hnd Hf) as (before & after & H1 & H2).
    exists before, after. split; [exact H1 | exact H2].
  - unfold handleBranch.
    destruct (addChild_inserts sourceChatId
                (mkChatNode newId None [] (ofZ 0) (ofZ 0) (ofZ 150) None [] None)
                chatTree n Hnd Hf) as (before & after & H1 & H2).
    exists before, after. split; [exact H1 | exact H2].
  - apply truncateSelection_length.
Qed.

Lemma new_child_is_last_of_subtree_witness :
  (exists before after,
      flatten sampleTree
      = before ++ flattenNode (branchNode 2 [leafNode 3; leafNode 4]) ++ after
      /\ flatten (handleCreateFromSelection 2 (js "quote") 7 sampleTree)
         = before ++ flattenNode (branchNode 2 [leafNode 3; leafNode 4])
             ++ [mkFlatChat 7 (ofZ 0) (ofZ 0) (ofZ 150)
                            (Some (truncateSelection (js "quote"))) [] None]
             ++ after)
  /\ (exists before after,
         flatten sampleTree
         = before ++ flattenNode (branchNode 2 [leafNode 3; leafNode 4]) ++ after
         /\ flatten (handleBranch 2 7 sampleTree)
            = before ++ flattenNode (branchNode 2 [leafNode 3; leafNode 4])
                ++ [mkFlatChat 7 (ofZ 0) (ofZ 0) (ofZ 150) None [] None]
                ++ after)
  /\ (length (truncateSelection (js "quote")) <= 241)%nat.
Proof.
  apply (new_child_is_last_of_subtree sampleTree 2%Z 7%Z (js "quote")
           (branchNode 2 [leafNode 3; leafNode 4])).
  - repeat constructor; simpl; intuition discriminate.
  - reflexivity.
Defined.

(* ================================================================== *)
(** * Deleting *)

Lemma removeNode_id_gone (chatId : Z) (nodes : list ChatNode) :
  ~ In chatId (ids (removeNode chatId nodes)).
Proof.
  induction nodes as [|node rest IHc IHr] using forest_ind.
  - intros [].
  - rewrite removeNode_cons.
    destruct (Z.eqb_spec (id node) chatId) as [Heq|Hne]; [exact IHr|].
    unfold ids. rewrite flatten_withChildren. simpl. rewrite map_app.
    intros [H|H]; [contradiction|].
    apply in_app_or in H. destruct H; [apply IHc | apply IHr]; assumption.
Qed.

Lemma removeNode_ids_subset (chatId : Z) (nodes : list ChatNode) :
  forall i, In i (ids (removeNode chatId nodes)) -> In i (ids nodes).
Proof.
  induction nodes as [|node rest IHc IHr] using forest_ind; intros i.
  - intros [].
  - rewrite removeNode_cons, ids_cons.
    destruct (Z.eqb_spec (id node) chatId) as [Heq|Hne].
    + intros H. right. apply in_or_app. right. apply IHr, H.
    + unfold ids at 1. rewrite flatten_withChildren. simpl. rewrite map_app.
      intros [H|H]; [left; exact H|]. right. apply in_or_app.
      apply in_app_or in H. destruct H; [left; apply IHc | right; apply IHr];
        assumption.
Qed.

(** [X3].  After [deleteNode(id)] no node of the tree has the id, whether
    or not ids are unique; no id appears that was not there; and deleting
    the same id again changes nothing. *)
Theorem deleteNode_leaves_no_such_id :
  forall (chatTree : list ChatNode) (chatId : Z),
    ~ In chatId (ids (handleDelete chatId chatTree))
    /\ findNode (handleDelete chatId chatTree) chatId = None
    /\ (forall i, In i (ids (handleDelete chatId chatTree)) -> In i (ids chatTree))
    /\ handleDelete chatId (handleDelete chatId chatTree)
       = handleDelete chatId chatTree.
Proof.
  intros chatTree chatId. unfold handleDelete.
  pose proof (removeNode_id_gone chatId chatTree) as Hgone.
  split; [exact Hgone|]. split; [|split].
  - destruct (findNode (removeNode chatId chatTree) chatId) as [n|] eqn:E;
      [|reflexivity].
    exfalso. apply Hgone. apply (findNode_Some_present _ _ _ E).
  - apply removeNode_ids_subset.
  - apply removeNode_absent, Hgone.
Qed.

(* ================================================================== *)
(** * Moving a node *)

Lemma flatten_moveChildren (dx dy : Qc) (cs : list ChatNode) :
  flatten (moveChildren dx dy cs) = map (shiftFlat dx dy) (flatten cs).
Proof.
  induction cs as [|node rest IHc IHr] using forest_ind; [reflexivity|].
  unfold moveChildren in *. rewrite map_cons, !flatten_cons.
  rewrite map_cons, map_app, <- IHr.
  destruct node as [i q cs px py h m conv th]. simpl in *.
  rewrite <- IHc. reflexivity.
Qed.

(** [X4].  A node found in the tree is, after [updatePosition(id, x, y)],
    at [(x, y)] with the manual-position flag set, and the flattened list
    of its descendants is the one before with every entry moved by the
    delta of the node itself: the subtree moves rigidly.  Nothing but the
    positions and the flag changes. *)
Theorem updatePosition_moves_subtree_rigidly :
  forall (chatTree : list ChatNode) (chatId : Z) (nx ny : Qc) (n : ChatNode),
    findNode chatTree chatId = Some n ->
    exists n',
      findNode (handleChatPositionChange chatId nx ny chatTree) chatId = Some n'
      /\ x n' = nx /\ y n' = ny /\ manualPosition n' = Some true
      /\ payload (flat n') = payload (flat n) /\ height n' = height n
      /\ flatten (children n')
         = map (shiftFlat (nx - x n) (ny - y n)) (flatten (children n)).
Proof.
  intros chatTree chatId nx ny n Hf.
  destruct (findNode_Some_present _ _ _ Hf) as [Hid _].
  exists (updatePositionIn chatId nx ny n).
  assert (Hat : updatePositionIn chatId nx ny n
                = mkChatNode (id n) (quotedText n)
                    (moveChildren (nx - x n) (ny - y n) (children n))
                    nx ny (height n) (Some true) (conversation n)
                    (isThinking n)).
  { destruct n as [i q cs px py h m conv th]. simpl in *. subst i.
    rewrite Z.eqb_refl. reflexivity. }
  split.
  - unfold handleChatPositionChange, updatePosition.
    apply findNode_map_Some; [apply updatePositionIn_off | exact Hf|].
    rewrite Hat. exact Hid.
  - rewrite Hat. simpl. repeat split. apply flatten_moveChildren.
Qed.

Lemma updatePosition_moves_subtree_rigidly_witness :
  exists n',
    findNode (handleChatPositionChange 2 (ofZ 40) (ofZ 60) sampleTree) 2 = Some n'
    /\ x n' = ofZ 40 /\ y n' = ofZ 60 /\ manualPosition n' = Some true
    /\ payload (flat n') = payload (flat (branchNode 2 [leafNode 3; leafNode 4]))
    /\ height n' = height (branchNode 2 [leafNode 3; leafNode 4])
    /\ flatten (children n')
       = map (shiftFlat (ofZ 40 - x (branchNode 2 [leafNode 3; leafNode 4]))
                        (ofZ 60 - y (branchNode 2 [leafNode 3; leafNode 4])))
             (flatten (children (branchNode 2 [leafNode 3; leafNode 4]))).
Proof.
  apply (updatePosition_moves_subtree_rigidly sampleTree 2%Z (ofZ 40) (ofZ 60)
           (branchNode 2 [leafNode 3; leafNode 4])).
  reflexivity.
Defined.

(* ================================================================== *)
(** * Sending a message *)

Lemma readLoop_found (chatId : Z) (chunks : list JsString.t) :
  forall (tree : list ChatNode) (n : ChatNode) (base : list ChatMessage)
         (text : JsString.t),
    findNode tree chatId = Some n ->
    conversation n = base ++ [mkChatMessage assistant text] ->
    findNode (fold_left
                (fun t chunkValue =>
                   map (appendResponseChunk chatId chunkValue) t)
                chunks tree) chatId
    = Some (withConversation n
              (base ++ [mkChatMessage assistant (text ++ concat chunks)])
              (isThinking n)).
Proof.
  induction chunks as [|chunkValue chunks IH]; intros tree n base text Hf Hconv.
  - simpl. rewrite app_nil_r, <- Hconv, Hf. destruct n; reflexivity.
  - simpl.
    destruct (findNode_Some_present _ _ _ Hf) as [Hid _].
    pose proof (appendResponseChunk_at chatId chunkValue n base text Hid Hconv)
      as Hat.
    assert (Hf' : findNode (map (appendResponseChunk chatId chunkValue) tree)
                           chatId
                  = Some (appendResponseChunk chatId chunkValue n)).
    { apply findNode_map_Some; [apply appendResponseChunk_off | assumption |].
      rewrite Hat. destruct n; assumption. }
    rewrite (IH _ _ base (text ++ chunkValue) Hf').
    + rewrite Hat, <- app_assoc. destruct n; reflexivity.
    + rewrite Hat. destruct n; reflexivity.
Qed.

(** [X6].  What a request leaves of the node it was sent from, the node
    being found in the tree.  If the response is not ok the user message
    stays, no assistant message is added and the thinking flag is cleared.
    If the response is ok but has no body the user message stays and the
    flag is never cleared.  If the body is read to its end the flag is
    cleared and the assistant message holds the chunks. *)
Theorem thinking_flag_after_request :
  forall (chatTree : list ChatNode) (chatId : Z) (message : JsString.t)
         (n : ChatNode),
    findNode chatTree chatId = Some n ->
    findNode (handleNewMessage chatId message NotOk chatTree) chatId
    = Some (withConversation n
              (conversation n ++ [mkChatMessage user message]) (Some false))
    /\ findNode (handleNewMessage chatId message OkNoBody chatTree) chatId
       = Some (withConversation n
                 (conversation n ++ [mkChatMessage user message]) (Some true))
    /\ (forall chunks,
           findNode (handleNewMessage chatId message (OkBody chunks) chatTree)
                    chatId
           = Some (withConversation n
                     (conversation n
                        ++ [mkChatMessage user message;
                            mkChatMessage assistant (concat chunks)])
                     (Some false))).
Proof.
  intros chatTree chatId message n Hf.
  destruct (findNode_Some_present _ _ _ Hf) as [Hid _].
  unfold handleNewMessage.
  set (n1 := withConversation n
               (conversation n ++ [mkChatMessage user message]) (Some true)).
  assert (Hid1 : id n1 = chatId) by (destruct n; exact Hid).
  assert (H1 : findNode (map (appendMessage chatId message) chatTree) chatId
               = Some n1).
  { assert (Hn1 : appendMessage chatId message n = n1)
      by (apply appendMessage_at; exact Hid).
    rewrite <- Hn1.
    apply findNode_map_Some; [apply appendMessage_off | assumption |].
    rewrite Hn1. exact Hid1. }
  split; [|split].
  - replace (withConversation n
               (conversation n ++ [mkChatMessage user message]) (Some false))
      with (setErrorState chatId n1).
    + apply findNode_map_Some; [apply setErrorState_off | exact H1 |].
      rewrite setErrorState_id. exact Hid1.
    + subst n1. destruct n as [i q cs px py h m conv th]. simpl in *.
      subst i. rewrite Z.eqb_refl. reflexivity.
  - exact H1.
  - intros chunks. unfold readLoop.
    set (n2 := addAssistantPlaceholder chatId n1).
    assert (Hat2 : n2 = withConversation n1
                          (conversation n1 ++ [mkChatMessage assistant []])
                          (Some false))
      by (apply addAssistantPlaceholder_at; exact Hid1).
    assert (H2 : findNode (map (addAssistantPlaceholder chatId)
                               (map (appendMessage chatId message) chatTree))
                          chatId = Some n2).
    { apply findNode_map_Some; [apply addAssistantPlaceholder_off | exact H1 |].
      rewrite addAssistantPlaceholder_id. exact Hid1. }
    rewrite (readLoop_found chatId (chunks ++ [[]]) _ n2
               (conversation n ++ [mkChatMessage user message]) [] H2).
    + rewrite Hat2, concat_app. subst n1.
      destruct n as [i q cs px py h m conv th]. unfold withConversation.
      simpl. rewrite !app_nil_r, <- app_assoc. reflexivity.
    + rewrite Hat2. subst n1. destruct n; reflexivity.
Qed.

Lemma thinking_flag_after_request_witness :
  findNode (handleNewMessage 2 (js "hi") NotOk sampleTree) 2
  = Some (withConversation (branchNode 2 [leafNode 3; leafNode 4])
            (conversation (branchNode 2 [leafNode 3; leafNode 4])
               ++ [mkChatMessage user (js "hi")]) (Some false)).
Proof.
  apply (proj1 (thinking_flag_after_request sampleTree 2%Z (js "hi")
                  (branchNode 2 [leafNode 3; leafNode 4]) eq_refl)).
Defined.

Section KeepsPlacement.

Variable g : ChatNode -> ChatNode.

(** [g] either rewrites the conversation and the flag of a node or keeps
    the node and maps over its children. *)
Hypothesis g_cases :
  forall node,
    g node = withChildren node (map g (children node))
    \/ exists conv thinking, g node = withConversation node conv thinking.

Lemma map_keeps_placement (nodes : list ChatNode) :
  map placement (flatten (map g nodes)) = map placement (flatten nodes).
Proof.
  induction nodes as [|node rest IHc IHr] using forest_ind; [reflexivity|].
  rewrite map_cons, (flatten_cons node).
  destruct (g_cases node) as [-> | (conv & thinking & ->)].
  - rewrite flatten_withChildren. simpl. rewrite !map_app, IHc, IHr.
    reflexivity.
  - rewrite flatten_cons. simpl. rewrite !map_app, IHr.
    destruct node; reflexivity.
Qed.

End KeepsPlacement.

Lemma appendMessage_cases (chatId : Z) (message : JsString.t) (node : ChatNode) :
  appendMessage chatId message node
  = withChildren node (map (appendMessage chatId message) (children node))
  \/ exists conv thinking,
      appendMessage chatId message node = withConversation node conv thinking.
Proof.
  destruct node as [i q cs px py h m conv th]. simpl.
  destruct (i =? chatId)%Z; [right; eauto | left; reflexivity].
Qed.

Lemma setErrorState_cases (chatId : Z) (node : ChatNode) :
  setErrorState chatId node
  = withChildren node (map (setErrorState chatId) (children node))
  \/ exists conv thinking,
      setErrorState chatId node = withConversation node conv thinking.
Proof.
  destruct node as [i q cs px py h m conv th]. simpl.
  destruct (i =? chatId)%Z; [right; eauto | left; reflexivity].
Qed.

Lemma addAssistantPlaceholder_cases (chatId : Z) (node : ChatNode) :
  addAssistantPlaceholder chatId node
  = withChildren node (map (addAssistantPlaceholder chatId) (children node))
  \/ exists conv thinking,
      addAssistantPlaceholder chatId node = withConversation node conv thinking.
Proof.
  destruct node as [i q cs px py h m conv th]. simpl.
  destruct (i =? chatId)%Z; [right; eauto | left; reflexivity].
Qed.

Lemma appendResponseChunk_cases (chatId : Z) (chunkValue : JsString.t)
      (node : ChatNode) :
  appendResponseChunk chatId chunkValue node
  = withChildren node
      (map (appendResponseChunk chatId chunkValue) (children node))
  \/ exists conv thinking,
      appendResponseChunk chatId chunkValue node
      = withConversation node conv thinking.
Proof.
  destruct node as [i q cs px py h m conv th]. simpl.
  destruct (i =? chatId)%Z; [|left; reflexivity].
  destruct (lastMessage conv) as [[[] c]|]; simpl.
  - left. reflexivity.
  - right. eauto.
  - left. reflexivity.
Qed.

(** [X7].  Sending a message never adds, removes or moves a node: however
    the request ends, the flattened list has the same ids, positions,
    heights and quoted texts in the same order; only conversations and
    thinking flags can differ. *)
Theorem handleNewMessage_keeps_placement :
  forall (chatTree : list ChatNode) (chatId : Z) (message : JsString.t)
         (res : FetchResult),
    map placement (flatten (handleNewMessage chatId message res chatTree))
    = map placement (flatten chatTree).
Proof.
  intros chatTree chatId message res. unfold handleNewMessage.
  assert (H1 : map placement
                   (flatten (map (appendMessage chatId message) chatTree))
               = map placement (flatten chatTree))
    by (apply map_keeps_placement, appendMessage_cases).
  destruct res as [| |chunks].
  - rewrite map_keeps_placement by apply setErrorState_cases. exact H1.
  - exact H1.
  - unfold readLoop.
    assert (H2 : forall cs tree,
               map placement
                   (flatten (fold_left
                               (fun t c => map (appendResponseChunk chatId c) t)
                               cs tree))
               = map placement (flatten tree)).
    { induction cs as [|c cs IH]; intros tree; [reflexivity|].
      simpl. rewrite IH. apply map_keeps_placement, appendResponseChunk_cases. }
    rewrite H2, map_keeps_placement by apply addAssistantPlaceholder_cases.
    exact H1.
Qed.

(* ================================================================== *)
(** * Lookups *)

Lemma findNode_absent_None (chatId : Z) (nodes : list ChatNode) :
  ~ In chatId (ids nodes) -> findNode nodes chatId = None.
Proof.
  intros Hn. destruct (findNode nodes chatId) as [n|] eqn:E; [|reflexivity].
  exfalso. apply Hn. apply (findNode_Some_present _ _ _ E).
Qed.

Lemma findNode_first (chatId : Z) (nodes : list ChatNode) :
  forall n, findNode nodes chatId = Some n ->
  exists before after,
    flatten nodes = before ++ flattenNode n ++ after
    /\ ~ In chatId (map flat_id before).
Proof.
  induction nodes as [|node rest IHc IHr] using forest_ind; intros n Hf.
  - discriminate.
  - rewrite findNode_cons in Hf.
    destruct (Z.eqb_spec (id node) chatId) as [Heq|Hne].
    + inversion Hf; subst n. exists [], (flatten rest).
      split; [reflexivity | intros []].
    + destruct (findNode (children node) chatId) eqn:Ec.
      * inversion Hf; subst c.
        destruct (IHc n eq_refl) as (before & after & Hflat & Hb).
        exists (flat node :: before), (after ++ flatten rest). split.
        -- rewrite flatten_cons, Hflat. simpl. rewrite <- !app_assoc. reflexivity.
        -- simpl. intros [H|H]; [contradiction | exact (Hb H)].
      * destruct (IHr n Hf) as (before & after & Hflat & Hb).
        exists (flat node :: flatten (children node) ++ before), after. split.
        -- rewrite flatten_cons, Hflat. simpl. rewrite <- !app_assoc. reflexivity.
        -- simpl. rewrite map_app. intros [H|H]; [contradiction|].
           apply in_app_or in H. destruct H as [H|H]; [|exact (Hb H)].
           exact (findNode_None_absent _ _ Ec H).
Qed.

(** [X8].  [findNode] finds nothing exactly when no node has the id; what
    it finds has the id and is the first such node in the order of the
    flattened list. *)
Theorem findNode_finds_first_with_id :
  forall (chatTree : list ChatNode) (chatId : Z),
    (findNode chatTree chatId = None <-> ~ In chatId (ids chatTree))
    /\ (forall n, findNode chatTree chatId = Some n ->
                  id n = chatId
                  /\ exists before after,
                      flatten chatTree = before ++ flattenNode n ++ after
                      /\ ~ In chatId (map flat_id before)).
Proof.
  intros chatTree chatId. split.
  - split; [apply findNode_None_absent | apply findNode_absent_None].
  - intros n Hf. split.
    + apply (findNode_Some_present _ _ _ Hf).
    + apply findNode_first, Hf.
Qed.

Lemma findNode_finds_first_with_id_witness :
  id (branchNode 2 [leafNode 3; leafNode 4]) = 2%Z
  /\ exists before after,
      flatten sampleTree
      = before ++ flattenNode (branchNode 2 [leafNode 3; leafNode 4]) ++ after
      /\ ~ In 2%Z (map flat_id before).
Proof.
  apply (proj2 (findNode_finds_first_with_id sampleTree 2%Z)
               (branchNode 2 [leafNode 3; leafNode 4]) eq_refl).
Defined.

(* ================================================================== *)
(** * Links and parents *)

Lemma links_cons (node : ChatNode) (rest : list ChatNode) :
  links (node :: rest)
  = map (fun child => (node, child)) (children node)
    ++ links (children node) ++ links rest.
Proof.
  unfold links. simpl. destruct node; simpl. rewrite <- app_assoc. reflexivity.
Qed.

Lemma links_length (chatTree : list ChatNode) :
  (length (links chatTree) + length chatTree = length (flatten chatTree))%nat.
Proof.
  induction chatTree as [|node rest IHc IHr] using forest_ind; [reflexivity|].
  rewrite links_cons, flatten_cons. simpl.
  rewrite !length_app, length_map. lia.
Qed.

(** [X9].  The page draws one connecting curve for every node that is not
    a top-level node, and each curve joins a node to one of its own
    children. *)
Theorem links_one_per_child :
  forall chatTree : list ChatNode,
    (length (links chatTree) + length chatTree = length (flatten chatTree))%nat
    /\ (forall parent child,
           In (parent, child) (links chatTree) -> In child (children parent)).
Proof.
  intros chatTree. split; [apply links_length|].
  induction chatTree as [|node rest IHc IHr] using forest_ind.
  - intros ? ? [].
  - rewrite links_cons. intros parent child Hin.
    apply in_app_or in Hin. destruct Hin as [Hin|Hin].
    + apply in_map_iff in Hin. destruct Hin as (c & Hc & Hin).
      inversion Hc; subst. exact Hin.
    + apply in_app_or in Hin. destruct Hin; [apply IHc | apply IHr]; assumption.
Qed.

Lemma findParent_cons (node : ChatNode) (rest : list ChatNode) (childId : Z) :
  findParent (node :: rest) childId
  = if hasChildWithId childId node then Some node
    else match findParent (children node) childId with
         | Some p => Some p
         | None => findParent rest childId
         end.
Proof.
  destruct node as [i q cs px py h m conv th].
  unfold findParent, hasChildWithId. simpl.
  destruct (existsb (fun child => (id child =? childId)%Z) cs); reflexivity.
Qed.

Lemma findParent_sound (childId : Z) (nodes : list ChatNode) :
  forall p, findParent nodes childId = Some p ->
            hasChildWithId childId p = true
            /\ exists path, nodeAt path nodes = Some p.
Proof.
  induction nodes as [|node rest IHc IHr] using forest_ind; intros p Hf.
  - discriminate.
  - rewrite findParent_cons in Hf.
    destruct (hasChildWithId childId node) eqn:Eh.
    + inversion Hf; subst p. split; [exact Eh|]. exists [0%nat]. reflexivity.
    + destruct (findParent (children node) childId) as [p'|] eqn:Ec.
      * inversion Hf; subst p'. destruct (IHc p eq_refl) as [Hc (path & Hp)].
        split; [exact Hc|]. exists (0%nat :: path).
        rewrite nodeAt_cons. simpl. destruct path; [discriminate | exact Hp].
      * destruct (IHr p Hf) as [Hc (path & Hp)].
        split; [exact Hc|]. destruct path as [|i path]; [discriminate|].
        exists (S i :: path). rewrite nodeAt_cons in *. exact Hp.
Qed.

Lemma findParent_None_all (childId : Z) (nodes : list ChatNode) :
  findParent nodes childId = None ->
  Forall (fun p => hasChildWithId childId p = false
                   /\ findParent (children p) childId = None) nodes.
Proof.
  induction nodes as [|node rest IH]; intros Hf; [constructor|].
  rewrite findParent_cons in Hf.
  destruct (hasChildWithId childId node) eqn:Eh; [discriminate|].
  destruct (findParent (children node) childId) eqn:Ec; [discriminate|].
  constructor; [split; [exact Eh | exact Ec] | apply IH, Hf].
Qed.

(** [X10].  A node [findParent] returns is a node of the tree and has a
    child with the id; and it returns nothing only when no node of the
    tree has a child with the id, in which case the request carries no
    parent conversation. *)
Theorem findParent_finds_a_parent :
  forall (chatTree : list ChatNode) (childId : Z),
    (forall p, findParent chatTree childId = Some p ->
               hasChildWithId childId p = true
               /\ exists path, nodeAt path chatTree = Some p)
    /\ (findParent chatTree childId = None ->
        (forall path p, nodeAt path chatTree = Some p ->
                        hasChildWithId childId p = false)
        /\ forall message,
            Route.parentConversation (requestBody chatTree childId message)
            = Route.JUndefined).
Proof.
  intros chatTree childId. split; [apply findParent_sound|].
  intros Hnone. split.
  - intros path p Hat.
    apply (nodeAt_invariant
             (fun p => hasChildWithId childId p = false
                       /\ findParent (children p) childId = None))
      with (path := path) (nodes := chatTree); [| |exact Hat].
    + intros o [_ Ho]. apply findParent_None_all, Ho.
    + apply findParent_None_all, Hnone.
  - intros message. unfold requestBody. rewrite Hnone. reflexivity.
Qed.

Lemma findParent_finds_a_parent_witness :
  hasChildWithId 3 (branchNode 2 [leafNode 3; leafNode 4]) = true
  /\ exists path,
      nodeAt path sampleTree = Some (branchNode 2 [leafNode 3; leafNode 4]).
Proof.
  apply (proj1 (findParent_finds_a_parent sampleTree 3%Z)
               (branchNode 2 [leafNode 3; leafNode 4]) eq_refl).
Defined.

(* ================================================================== *)
(** * From the input field to the route *)

Lemma trimStart_blank (s : JsString.t) : isBlank s = true -> trimStart s = [].
Proof.
  induction s as [|c s IH]; [reflexivity|]. simpl.
  destruct (isWhiteSpace c); [exact IH | discriminate].
Qed.

Lemma trim_blank (s : JsString.t) : isBlank s = true -> trim s = [].
Proof. intros H. unfold trim. rewrite (trimStart_blank s H). reflexivity. Qed.

Lemma trimStart_nil_blank (s : JsString.t) :
  trimStart s = [] -> isBlank s = true.
Proof.
  induction s as [|c s IH]; [reflexivity|]. simpl.
  destruct (isWhiteSpace c); [exact IH | discriminate].
Qed.

Lemma trimStart_head (s : JsString.t) (c : N) (rest : JsString.t) :
  trimStart s = c :: rest -> isWhiteSpace c = false.
Proof.
  induction s as [|d s IH]; [discriminate|]. simpl.
  destruct (isWhiteSpace d) eqn:Ed; [exact IH|].
  intros H. inversion H; subst. exact Ed.
Qed.

Lemma isBlank_rev (s : JsString.t) : isBlank (rev s) = isBlank s.
Proof.
  unfold isBlank. induction s as [|c s IH]; [reflexivity|]. simpl.
  rewrite forallb_app, IH. simpl. rewrite andb_true_r. apply andb_comm.
Qed.

Lemma trim_nonblank (s : JsString.t) :
  isBlank s = false -> truthy (trim s) = true.
Proof.
  intros Hb. destruct (trim s) as [|c r] eqn:Et; [|reflexivity].
  exfalso. unfold trim, trimEnd in Et.
  assert (Hin : trimStart (rev (trimStart s)) = []).
  { destruct (trimStart (rev (trimStart s))) as [|d l]; [reflexivity|].
    simpl in Et. destruct (rev l); discriminate. }
  apply trimStart_nil_blank in Hin. rewrite isBlank_rev in Hin.
  destruct (trimStart s) as [|d l] eqn:Es.
  - apply trimStart_nil_blank in Es. congruence.
  - apply trimStart_head in Es. unfold isBlank in Hin. simpl in Hin.
    rewrite Es in Hin. discriminate.
Qed.

(** [X11].  [handleSend] hands on nothing for an input that is empty or
    all white space and keeps the input; any other input it hands on as
    typed, untrimmed, under the id of the card, and clears the field.
    The request made for such a message carries it as the prompt and
    passes the check of the prompt in either [/api/chat] handler,
    whatever the tree: the handler goes on to the upstream call and
    answers as that call turns out. *)
Theorem sent_message_passes_prompt_check :
  (forall chatId inputValue,
      isBlank inputValue = true ->
      handleSend chatId inputValue = (None, inputValue))
  /\ (forall chatId inputValue,
         isBlank inputValue = false ->
         handleSend chatId inputValue = (Some (chatId, inputValue), []))
  /\ (forall chatTree chatId message,
         Route.prompt (requestBody chatTree chatId message)
         = Route.JString message)
  /\ (forall chatTree chatId message create,
         isBlank message = false ->
         Route.POST_plain (Some (requestBody chatTree chatId message)) create
         = match create (requestBody chatTree chatId message) with
           | Route.Returns chunks =>
               Some (Route.mkResponse 200
                       (Route.Stream (flat_map Route.enqueueContent chunks)))
           | Route.Throws e => Route.catchPlain e
           end)
  /\ (forall chatTree chatId message env streamText,
         isBlank message = false ->
         Route.POST_tool env (Some (requestBody chatTree chatId message))
                         streamText
         = match streamText (requestBody chatTree chatId message) with
           | Route.Returns parts =>
               Route.mkResponse 200
                 (Route.Stream (flat_map (Route.enqueuePart env) parts))
           | Route.Throws _ => Route.internalServerError
           end).
Proof.
  assert (Hp : forall chatTree chatId message,
             isBlank message = false ->
             Route.truthy (Route.prompt (requestBody chatTree chatId message))
             = true).
  { intros chatTree chatId message Hb. simpl.
    destruct message; [discriminate | reflexivity]. }
  split; [|split; [|split; [|split]]].
  - intros chatId inputValue Hb. unfold handleSend.
    rewrite (trim_blank _ Hb). reflexivity.
  - intros chatId inputValue Hb. unfold handleSend.
    rewrite (trim_nonblank _ Hb). reflexivity.
  - intros chatTree chatId message. reflexivity.
  - intros chatTree chatId message create Hb.
    apply POST_plain_truthy_prompt, Hp, Hb.
  - intros chatTree chatId message env streamText Hb.
    apply POST_tool_truthy_prompt, Hp, Hb.
Qed.

Lemma sent_message_passes_prompt_check_witness :
  handleSend 1 [SPACE; LF] = (None, [SPACE; LF])
  /\ handleSend 1 (js " hi ") = (Some (1%Z, js " hi "), [])
  /\ Route.POST_plain (Some (requestBody initialTree 1 (js " hi ")))
                      (fun _ => Route.Throws Route.OtherError)
     = Some Route.internalServerError.
Proof.
  split; [|split].
  - apply (proj1 sent_message_passes_prompt_check 1%Z [SPACE; LF]). reflexivity.
  - apply (proj1 (proj2 sent_message_passes_prompt_check) 1%Z (js " hi ")).
    reflexivity.
  - apply (proj1 (proj2 (proj2 (proj2 sent_message_passes_prompt_check)))
                 initialTree 1%Z (js " hi ")
                 (fun _ => Route.Throws Route.OtherError)).
    reflexivity.
Defined.

(* ================================================================== *)
(** * More on [truncateSelection] *)

Lemma join_avoids (c : N) (sep : JsString.t) (parts : list JsString.t) :
  ~ In c sep -> Forall (fun l => ~ In c l) parts -> ~ In c (join sep parts).
Proof.
  intros Hsep Hall. induction Hall as [|p ps Hp Hps IH]; [intros []|].
  simpl. destruct ps as [|p2 ps]; [exact Hp|].
  intros Hin. apply in_app_or in Hin. destruct Hin as [Hin|Hin]; [auto|].
  apply in_app_or in Hin. destruct Hin as [Hin|Hin]; [auto|]. apply IH, Hin.
Qed.

Lemma firstn_In {A : Type} (n : nat) (l : list A) (a : A) :
  In a (firstn n l) -> In a l.
Proof.
  revert n. induction l as [|b l IH]; intros [|n]; simpl; try tauto.
  intros [H|H]; [left; exact H | right; exact (IH _ H)].
Qed.

(** [X12].  The quoted text is always a single line: [truncateSelection]
    never returns a line feed.  For a selection that is empty or all white
    space it returns the empty string. *)
Theorem truncateSelection_is_one_line :
  (forall text, ~ In LF (truncateSelection text))
  /\ (forall text, isBlank text = true -> truncateSelection text = []).
Proof.
  split.
  - intros text.
    assert (Hj : ~ In LF (firstTwo text)).
    { unfold firstTwo. apply join_avoids.
      - intros [H|[]]. discriminate.
      - apply Forall_firstn_keep, Forall_filter_keep, splitLines_no_LF. }
    unfold truncateSelection, slice0.
    destruct (maxChars <? length (firstTwo text))%nat; [|exact Hj].
    intros Hin. apply in_app_or in Hin. destruct Hin as [Hin|[H|[]]].
    + apply Hj. exact (firstn_In _ _ _ Hin).
    + discriminate.
  - intros text Hb. unfold truncateSelection, firstTwo.
    rewrite (trim_blank _ Hb). reflexivity.
Qed.

Lemma truncateSelection_is_one_line_witness :
  truncateSelection [SPACE; LF; CR; LF] = [].
Proof.
  apply (proj2 truncateSelection_is_one_line [SPACE; LF; CR; LF]). reflexivity.
Defined.

(* ================================================================== *)
(** * More on the layout effect *)

Lemma getSubtreeWidth_unfold (node : ChatNode) :
  getSubtreeWidth node
  = match children node with
    | [] => CARD_WIDTH
    | _ :: _ => stackExtent getSubtreeWidth HORIZONTAL_SPACING (children node)
    end.
Proof.
  rewrite <- reduceWithSpacing_stackExtent. destruct node; reflexivity.
Qed.



Section TreeMaps.

Variable g : ChatNode -> ChatNode.
Hypothesis g_children : forall n, children (g n) = map g (children n).
Hypothesis g_payload : forall n, payload (flat (g n)) = payload (flat n).

Lemma flatten_map_payload (nodes : list ChatNode) :
  map payload (flatten (map g nodes)) = map payload (flatten nodes).
Proof.
  induction nodes as [|node rest IHc IHr] using forest_ind; [reflexivity|].
  rewrite map_cons, !flatten_cons, g_children.
  simpl. rewrite !map_app, IHc, IHr, g_payload. reflexivity.
Qed.

End TreeMaps.

Lemma payload_same_shape (l1 l2 : list ChatNode) :
  map forgetPosition l1 = map forgetPosition l2 ->
  map payload (flatten l1) = map payload (flatten l2).
Proof.
  intros H.
  rewrite <- (flatten_map_payload forgetPosition) with (nodes := l1);
    [|intros []; reflexivity | intros []; reflexivity].
  rewrite <- (flatten_map_payload forgetPosition) with (nodes := l2);
    [|intros []; reflexivity | intros []; reflexivity].
  rewrite H. reflexivity.
Qed.

Lemma runLayout_top_level (clientHeight : Z -> option Z)
      (layoutMode : LayoutMode) (chatTree : list ChatNode) (i : nat)
      (r : ChatNode) :
  nth_error chatTree i = Some r ->
  exists r', nth_error (runLayout clientHeight layoutMode chatTree) i = Some r'
             /\ x r' = x r /\ y r' = y r.
Proof.
  intros Hn. rewrite runLayout_newTree, layoutEffect_layout. cbn [fst].
  unfold updateHeights. rewrite forEachNode_fst.
  set (measure := fun c => fst (updateHeightsIn clientHeight c)).
  destruct (updateHeightsIn_keeps clientHeight r) as (_ & Hx & Hy & _).
  fold (measure r) in Hx, Hy.
  destruct layoutMode; simpl;
    [rewrite layoutHorizontal_fst | rewrite layoutVertical_fst];
    rewrite !nth_error_map, Hn; simpl.
  - destruct (positionFromHorizontal_placesOnly (measure r)
                (x (measure r)) (y (measure r))) as (_ & Hx' & Hy').
    eexists. split; [reflexivity|]. split; congruence.
  - destruct (positionFromVertical_placesOnly (measure r)
                (x (measure r)) (y (measure r))) as (_ & Hx' & Hy').
    eexists. split; [reflexivity|]. split; congruence.
Qed.

(** [X14].  The layout effect only measures and places: the flattened
    list keeps its ids, quoted texts, conversations and thinking flags in
    the same order, so no node is added, dropped or reordered; and a
    top-level node is never moved, in either mode. *)
Theorem layout_only_measures_and_places :
  forall (clientHeight : Z -> option Z) (layoutMode : LayoutMode)
         (chatTree : list ChatNode),
    map payload (flatten (runLayout clientHeight layoutMode chatTree))
    = map payload (flatten chatTree)
    /\ (forall i r,
           nth_error chatTree i = Some r ->
           exists r',
             nth_error (runLayout clientHeight layoutMode chatTree) i = Some r'
             /\ x r' = x r /\ y r' = y r).
Proof.
  intros clientHeight layoutMode chatTree. split.
  - rewrite runLayout_newTree, layoutEffect_layout. cbn [fst].
    rewrite (payload_same_shape _ _ (layout_same_shape layoutMode _)).
    unfold updateHeights. rewrite forEachNode_fst.
    apply flatten_map_payload.
    + intros n. apply updateHeightsIn_keeps.
    + intros n. rewrite updateHeightsIn_unfold. reflexivity.
  - intros i r. apply runLayout_top_level.
Qed.

Lemma layout_only_measures_and_places_witness :
  exists r',
    nth_error (runLayout (fun _ => Some 300%Z) vertical sampleTree) 0 = Some r'
    /\ x r' = ofZ 725 /\ y r' = ofZ 500.
Proof.
  apply (proj2 (layout_only_measures_and_places (fun _ => Some 300%Z) vertical
                  sampleTree) 0%nat _ eq_refl).
Defined.

(** The height [updateHeights] leaves a node with. *)
Lemma updateHeightsIn_height (clientHeight : Z -> option Z) (node : ChatNode) :
  height (fst (updateHeightsIn clientHeight node))
  = match clientHeight (id node) with
    | Some h => if (0 <? h)%Z then ofZ h else height node
    | None => height node
    end.
Proof.
  rewrite updateHeightsIn_unfold. cbv zeta. cbn [fst height].
  destruct (clientHeight (id node)) as [h|]; [|reflexivity].
  destruct (0 <? h)%Z; simpl; [|reflexivity].
  destruct (neqb (height node) (ofZ h)) eqn:E; [reflexivity|].
  apply neqb_false, E.
Qed.

Lemma nodeAt_layout_shape (layoutMode : LayoutMode) (path : list nat)
      (nodes : list ChatNode) (n : ChatNode) :
  nodeAt path nodes = Some n ->
  exists n',
    nodeAt path (fst (layout layoutMode nodes)) = Some n'
    /\ forgetPosition n' = forgetPosition n.
Proof.
  intros Hat. destruct layoutMode; simpl.
  - destruct (nodeAt_forEachNode getSubtreeHeight VERTICAL_SPACING
                positionFromHorizontal
                (fun px _ _ => newPositionHorizontal px)
                (fun _ py node =>
                   py + height node / two
                   - reduceWithSpacing VERTICAL_SPACING
                       (map getSubtreeHeight (children node)) / two)
                (fun px py node =>
                   f_equal (fun r => children (fst r))
                           (positionFromHorizontal_unfold px py node))
                path nodes n Hat) as (px & py & Hout & _).
    eexists. split; [exact Hout|]. apply positionFromHorizontal_placesOnly.
  - destruct (nodeAt_forEachNode getSubtreeWidth HORIZONTAL_SPACING
                positionFromVertical
                (fun _ py node => newPositionVertical py (height node))
                (fun px _ node =>
                   px + CARD_WIDTH / two
                   - reduceWithSpacing HORIZONTAL_SPACING
                       (map getSubtreeWidth (children node)) / two)
                (fun px py node =>
                   f_equal (fun r => children (fst r))
                           (positionFromVertical_unfold px py node))
                path nodes n Hat) as (px & py & Hout & _).
    eexists. split; [exact Hout|]. apply positionFromVertical_placesOnly.
Qed.

(** [X15].  After the effect every node of the tree whose element was
    found with a positive [clientHeight] has that height; a node whose
    element was not found, or was found with height zero, keeps the height
    it had. *)
Theorem layout_takes_measured_heights :
  forall (clientHeight : Z -> option Z) (layoutMode : LayoutMode)
         (chatTree : list ChatNode) (path : list nat) (n : ChatNode),
    nodeAt path chatTree = Some n ->
    exists n',
      nodeAt path (runLayout clientHeight layoutMode chatTree) = Some n'
      /\ id n' = id n
      /\ height n'
         = match clientHeight (id n) with
           | Some h => if (0 <? h)%Z then ofZ h else height n
           | None => height n
           end.
Proof.
  intros clientHeight layoutMode chatTree path n Hat.
  rewrite runLayout_newTree, layoutEffect_layout. cbn [fst].
  set (measure := fun c => fst (updateHeightsIn clientHeight c)).
  assert (Hm : nodeAt path (fst (updateHeights clientHeight chatTree))
               = Some (measure n)).
  { unfold updateHeights. rewrite forEachNode_fst.
    rewrite (nodeAt_map measure), Hat; [reflexivity|].
    intros c. apply updateHeightsIn_keeps. }
  destruct (nodeAt_layout_shape layoutMode path _ _ Hm) as (n' & Hout & Hs).
  exists n'. split; [exact Hout|].
  destruct (forgetPosition_fields _ _ Hs) as (Hid & Hh & _).
  destruct (updateHeightsIn_keeps clientHeight n) as (Hid' & _).
  unfold measure in *.
  split; [congruence|]. rewrite Hh. apply updateHeightsIn_height.
Qed.

Lemma layout_takes_measured_heights_witness :
  exists n',
    nodeAt [0%nat; 0%nat] (runLayout (fun _ => Some 300%Z) horizontal sampleTree)
    = Some n'
    /\ id n' = 2%Z
    /\ height n' = ofZ 300.
Proof.
  apply (layout_takes_measured_heights (fun _ => Some 300%Z) horizontal
           sampleTree [0%nat; 0%nat] (branchNode 2 [leafNode 3; leafNode 4])).
  reflexivity.
Defined.

Lemma layoutEffect_settled (clientHeight : Z -> option Z)
      (layoutMode : LayoutMode) (chatTree : list ChatNode) :
  layoutEffect clientHeight layoutMode
               (fst (layoutEffect clientHeight layoutMode chatTree))
  = (fst (layoutEffect clientHeight layoutMode chatTree), false).
Proof.
  rewrite (layoutEffect_layout clientHeight layoutMode chatTree). cbn [fst].
  set (measured := fst (updateHeights clientHeight chatTree)).
  rewrite layoutEffect_layout.
  assert (Hflag : snd (updateHeights clientHeight
                         (fst (layout layoutMode measured))) = false).
  { rewrite (updateHeights_flag_same_shape clientHeight _ measured
               (layout_same_shape layoutMode measured)).
    apply updateHeights_settles. }
  rewrite Hflag, (updateHeights_unchanged _ _ Hflag), layout_idempotent.
  reflexivity.
Qed.

(** [X16].  The flag [hasChanges] is exact: it stays false exactly when
    the working copy the effect computed equals the tree it started from.
    So the state is replaced whenever a height or a position differs and
    never otherwise. *)
Theorem hasChanges_iff_tree_differs :
  forall (clientHeight : Z -> option Z) (layoutMode : LayoutMode)
         (chatTree : list ChatNode),
    snd (layoutEffect clientHeight layoutMode chatTree) = false
    <-> fst (layoutEffect clientHeight layoutMode chatTree) = chatTree.
Proof.
  intros clientHeight layoutMode chatTree. split.
  - intros Hno. rewrite <- runLayout_newTree. unfold runLayout.
    rewrite Hno. reflexivity.
  - intros Hsame.
    pose proof (layoutEffect_settled clientHeight layoutMode chatTree) as H.
    rewrite Hsame in H. rewrite H. reflexivity.
Qed.

(* ================================================================== *)
(** * Order on the numbers *)

(** Inequalities between numbers, decided on the underlying rationals. *)
Ltac qc_arith :=
  unfold Qcle, Qclt in *;
  unfold two, CARD_WIDTH, HORIZONTAL_SPACING, VERTICAL_SPACING,
         minScale, maxScale, defaultScale, wheelFactor, ofZ in *;
  unfold Qcminus, Qcdiv in *;
  unfold Qcplus, Qcmult, Qcopp, Qcinv in *;
  unfold Q2Qc in *;
  cbn [this] in *;
  rewrite ?Qred_correct in *;
  unfold inject_Z in *;
  change (/ (2 # 1))%Q with (1 # 2)%Q in *;
  lra.

Lemma getSubtreeHeight_ge_height (node : ChatNode) :
  height node <= getSubtreeHeight node.
Proof.
  rewrite getSubtreeHeight_unfold.
  destruct (children node); [apply Qcle_refl | apply Qcmax_ge_l].
Qed.

Lemma offsetAfter_snoc (extent : ChatNode -> Qc) (spacing : Qc)
      (before : list ChatNode) (c : ChatNode) (start : Qc) :
  offsetAfter extent spacing (before ++ [c]) start
  = offsetAfter extent spacing before start + (extent c + spacing).
Proof. unfold offsetAfter. rewrite fold_left_app. reflexivity. Qed.

Lemma stackOffset_nonneg (cs : list ChatNode) :
  Forall (fun c => CARD_WIDTH <= getSubtreeWidth c) cs ->
  0 <= stackOffset getSubtreeWidth HORIZONTAL_SPACING cs.
Proof.
  unfold stackOffset. induction 1 as [|c cs Hc _ IH]; simpl.
  - apply Qcle_refl.
  - set (r := fold_right _ _ cs) in *. clearbody r.
    set (w := getSubtreeWidth c) in *. clearbody w. clear - Hc IH. qc_arith.
Qed.

Lemma getSubtreeWidth_ge_card (node : ChatNode) :
  CARD_WIDTH <= getSubtreeWidth node.
Proof.
  induction node as [node IH] using ChatNode_nested_ind.
  rewrite getSubtreeWidth_unfold.
  destruct (children node) as [|c cs]; [apply Qcle_refl|].
  inversion IH as [|? ? Hc Hcs]; subst.
  pose proof (stackOffset_nonneg cs Hcs) as Hrest.
  unfold stackExtent. change (stackOffset getSubtreeWidth HORIZONTAL_SPACING (c :: cs))
    with (getSubtreeWidth c + HORIZONTAL_SPACING
          + stackOffset getSubtreeWidth HORIZONTAL_SPACING cs).
  set (r := stackOffset _ _ cs) in *. clearbody r.
  set (w := getSubtreeWidth c) in *. clearbody w. clear - Hc Hrest. qc_arith.
Qed.

(** [X17].  After the layout two neighbouring children of a node, neither
    manually positioned, do not overlap.  In horizontal mode they have the
    same [x] and the lower one starts below the bottom of the upper one;
    in vertical mode they have the same [y] and the right one starts to
    the right of the right edge of the left one's card.  Over the
    rationals the gap between them is at least the spacing of the mode;
    the statement is the order of the cards, for which that gap is room
    to spare. *)
Theorem layout_siblings_do_not_overlap :
  (forall chatTree path parent before c1 c2 after,
      nodeAt path (fst (layoutHorizontal chatTree)) = Some parent ->
      children parent = before ++ c1 :: c2 :: after ->
      isManual c1 = false -> isManual c2 = false ->
      x c1 = x c2 /\ y c1 + height c1 < y c2)
  /\ (forall chatTree path parent before c1 c2 after,
         nodeAt path (fst (layoutVertical chatTree)) = Some parent ->
         children parent = before ++ c1 :: c2 :: after ->
         isManual c1 = false -> isManual c2 = false ->
         y c1 = y c2 /\ x c1 + CARD_WIDTH < x c2).
Proof.
  split.
  - intros chatTree path parent before c1 c2 after Hat Hch Hm1 Hm2.
    pose proof (layoutHorizontal_stacked chatTree path parent Hat) as Hst.
    destruct (Hst before c1 (c2 :: after) Hch Hm1) as [Hx1 Hy1].
    assert (Hch2 : children parent = (before ++ [c1]) ++ c2 :: after)
      by (rewrite <- app_assoc; exact Hch).
    destruct (Hst (before ++ [c1]) c2 after Hch2 Hm2) as [Hx2 Hy2].
    split; [congruence|].
    rewrite Hy1, Hy2, offsetAfter_snoc.
    pose proof (getSubtreeHeight_ge_height c1) as G1.
    pose proof (getSubtreeHeight_ge_height c2) as G2.
    set (o := offsetAfter getSubtreeHeight VERTICAL_SPACING before _).
    set (e1 := getSubtreeHeight c1) in *. set (e2 := getSubtreeHeight c2) in *.
    clearbody o e1 e2. clear - G1 G2. qc_arith.
  - intros chatTree path parent before c1 c2 after Hat Hch Hm1 Hm2.
    pose proof (layoutVertical_stacked chatTree path parent Hat) as Hst.
    destruct (Hst before c1 (c2 :: after) Hch Hm1) as [Hx1 Hy1].
    assert (Hch2 : children parent = (before ++ [c1]) ++ c2 :: after)
      by (rewrite <- app_assoc; exact Hch).
    destruct (Hst (before ++ [c1]) c2 after Hch2 Hm2) as [Hx2 Hy2].
    split; [congruence|].
    rewrite Hx1, Hx2, offsetAfter_snoc.
    pose proof (getSubtreeWidth_ge_card c1) as G1.
    pose proof (getSubtreeWidth_ge_card c2) as G2.
    set (o := offsetAfter getSubtreeWidth HORIZONTAL_SPACING before _).
    set (e1 := getSubtreeWidth c1) in *. set (e2 := getSubtreeWidth c2) in *.
    clearbody o e1 e2. clear - G1 G2. qc_arith.
Qed.

Lemma layout_siblings_do_not_overlap_witness :
  x (mkChatNode 2 None [] (ofZ 1525) (ofZ 460) (ofZ 100) None [] None)
  = x (mkChatNode 3 None [] (ofZ 1525) (ofZ 640) (ofZ 100) None [] None)
  /\ y (mkChatNode 2 None [] (ofZ 1525) (ofZ 460) (ofZ 100) None [] None)
     + height (mkChatNode 2 None [] (ofZ 1525) (ofZ 460) (ofZ 100) None [] None)
     < y (mkChatNode 3 None [] (ofZ 1525) (ofZ 640) (ofZ 100) None [] None).
Proof.
  apply (proj1 layout_siblings_do_not_overlap centeringExample [0%nat] _ []
               _ _ [] eq_refl eq_refl eq_refl eq_refl).
Defined.

(* ================================================================== *)
(** * The canvas *)

Lemma handleWheel_scale_bounds (deltaY : Qc) (client : Qc * Qc)
      (rect : option (Qc * Qc)) (st : CanvasState) :
  minScale <= scale (handleWheel deltaY client rect st)
  /\ scale (handleWheel deltaY client rect st) <= maxScale.
Proof.
  unfold handleWheel. cbn [scale]. unfold Qcmin, Qcmax.
  set (s := scale st + deltaY * wheelFactor). clearbody s.
  destruct (Qclt_le_dec minScale s);
    destruct (Qclt_le_dec _ maxScale); split; qc_arith.
Qed.

Lemma scale_in_bounds_nonzero (s : Qc) : minScale <= s -> s <> 0.
Proof.
  intros H E. subst s. revert H. unfold Qcle. vm_compute. intros H. apply H.
  reflexivity.
Qed.

Lemma handleCanvasEvent_scale_bounds (st : CanvasState) (e : CanvasEvent) :
  minScale <= scale st /\ scale st <= maxScale ->
  minScale <= scale (handleCanvasEvent st e)
  /\ scale (handleCanvasEvent st e) <= maxScale.
Proof.
  intros Hst. destruct e as [stop button client | client | | deltaY client rect
                            | chatTree window]; simpl.
  - unfold handleMouseDown. destruct stop; [exact Hst|].
    destruct (button =? 0)%Z; exact Hst.
  - unfold handleMouseMove. destruct (isPanning st); exact Hst.
  - exact Hst.
  - exact (handleWheel_scale_bounds deltaY client rect st).
  - unfold handleResetView. destruct chatTree; simpl; split; qc_arith.
Qed.

(** [X18].  The zoom factor never leaves the range from 0.1 to 3: one
    wheel event puts it there from any state, and after any sequence of
    canvas events from the initial state it is in the range, so it is
    never zero when the handlers divide by it. *)
Theorem scale_stays_in_range :
  (forall deltaY client rect st,
      minScale <= scale (handleWheel deltaY client rect st)
      /\ scale (handleWheel deltaY client rect st) <= maxScale)
  /\ (forall events,
         let st := fold_left handleCanvasEvent events initialCanvas in
         minScale <= scale st /\ scale st <= maxScale /\ scale st <> 0).
Proof.
  split; [intros deltaY client rect st;
          exact (handleWheel_scale_bounds deltaY client rect st)|].
  intros events.
  assert (H : forall st,
             minScale <= scale st /\ scale st <= maxScale ->
             minScale <= scale (fold_left handleCanvasEvent events st)
             /\ scale (fold_left handleCanvasEvent events st) <= maxScale).
  { induction events as [|e events IH]; intros st Hst; [exact Hst|].
    simpl. apply IH, handleCanvasEvent_scale_bounds, Hst. }
  destruct (H initialCanvas) as [Hlo Hhi].
  - simpl. split; qc_arith.
  - cbv zeta. split; [exact Hlo|]. split; [exact Hhi|].
    apply scale_in_bounds_nonzero, Hlo.
Qed.

Lemma pan_moves (moves : list (Qc * Qc)) :
  forall st last,
    isPanning st = true ->
    let st' := fold_left (fun s c => handleMouseMove c s) (moves ++ [last]) st in
    position st' = (fst last - fst (startPan st), snd last - snd (startPan st))
    /\ scale st' = scale st /\ isPanning st' = true
    /\ startPan st' = startPan st.
Proof.
  induction moves as [|c moves IH]; intros st last Hp.
  - simpl. unfold handleMouseMove. rewrite Hp. simpl. auto.
  - simpl.
    assert (Hc : isPanning (handleMouseMove c st) = true
                 /\ startPan (handleMouseMove c st) = startPan st
                 /\ scale (handleMouseMove c st) = scale st).
    { unfold handleMouseMove. rewrite Hp. simpl. auto. }
    destruct Hc as (Hp' & Hs' & Hsc').
    destruct (IH (handleMouseMove c st) last Hp') as (H1 & H2 & H3 & H4).
    rewrite Hs' in *. rewrite Hsc' in *. auto.
Qed.

(** [X20].  Panning follows the pointer and keeps no trace of the way it
    took: after the left button goes down on the canvas at [down], off
    any element that stops panning, and the mouse moves along any way to
    [last], the offset of the canvas is [last - (down - position)], the
    last pointer position less the offset taken at the press, at the same
    zoom; a way that ends further right or further down leaves the canvas
    at least as far right or down.  With no button down, or after the
    button is released, moving the mouse moves nothing; a press on an
    element that stops panning or of another button starts nothing. *)
Theorem pan_follows_pointer :
  (forall st down moves last,
      let st' := fold_left (fun s c => handleMouseMove c s) (moves ++ [last])
                           (handleMouseDown false 0 down st) in
      position st'
      = (fst last - (fst down - fst (position st)),
         snd last - (snd down - snd (position st)))
      /\ scale st' = scale st)
  /\ (forall st down moves1 last1 moves2 last2,
         let st1 := fold_left (fun s c => handleMouseMove c s)
                              (moves1 ++ [last1])
                              (handleMouseDown false 0 down st) in
         let st2 := fold_left (fun s c => handleMouseMove c s)
                              (moves2 ++ [last2])
                              (handleMouseDown false 0 down st) in
         (fst last1 <= fst last2 -> fst (position st1) <= fst (position st2))
         /\ (snd last1 <= snd last2
             -> snd (position st1) <= snd (position st2)))
  /\ (forall st c, handleMouseMove c (handleMouseUp st) = handleMouseUp st)
  /\ (forall st button down, handleMouseDown true button down st = st)
  /\ (forall st button down,
         button <> 0%Z -> handleMouseDown false button down st = st).
Proof.
  split; [|split; [|split; [|split]]].
  - intros st down moves last.
    destruct (pan_moves moves (handleMouseDown false 0 down st) last eq_refl)
      as (Hpos & Hsc & _).
    cbv zeta. rewrite Hpos, Hsc. simpl. split; reflexivity.
  - intros st down moves1 last1 moves2 last2.
    destruct (pan_moves moves1 (handleMouseDown false 0 down st) last1 eq_refl)
      as (Hpos1 & _).
    destruct (pan_moves moves2 (handleMouseDown false 0 down st) last2 eq_refl)
      as (Hpos2 & _).
    cbv zeta. rewrite Hpos1, Hpos2. cbn [fst snd].
    set (sx := fst (startPan (handleMouseDown false 0 down st))).
    set (sy := snd (startPan (handleMouseDown false 0 down st))).
    clearbody sx sy.
    split; intros H; clear - H; qc_arith.
  - intros st c. reflexivity.
  - intros st button down. reflexivity.
  - intros st button down Hb. unfold handleMouseDown.
    destruct (Z.eqb_spec button 0); [contradiction | reflexivity].
Qed.

Lemma pan_follows_pointer_witness :
  handleMouseDown false 2 (ofZ 5, ofZ 5) initialCanvas = initialCanvas.
Proof.
  apply (proj2 (proj2 (proj2 (proj2 pan_follows_pointer))) initialCanvas 2%Z).
  discriminate.
Defined.

(* ================================================================== *)
(** * Dragging a card *)

Lemma Qcinv_nonneg (s : Qc) : 0 < s -> 0 <= / s.
Proof.
  intros H. apply Qclt_le_weak.
  unfold Qclt in *. unfold Qcinv, Q2Qc. cbn [this].
  eapply Qlt_compat; [reflexivity | apply Qred_correct |].
  apply Qinv_lt_0_compat, H.
Qed.

Lemma Qcdiv_le_compat (a b s : Qc) : 0 < s -> a <= b -> a / s <= b / s.
Proof.
  intros Hs Hab. unfold Qcdiv. apply Qcmult_le_compat_r; [exact Hab|].
  apply Qcinv_nonneg, Hs.
Qed.

(** [X22].  A dragged card follows the pointer at the zoom of the canvas
    and keeps no trace of the way the pointer took.  At a positive zoom,
    pressing the header at [down] leaves the card where it is and notes
    the offset of the card from the pointer on the canvas; a mouse move
    to [at_] then puts the card at the canvas position of [at_], which
    is [(at_ - canvasPosition) / scale], less that offset and hands that
    very position to [onPositionChange] under the id of the card.  While a drag is on, a move after another gives what
    it gives alone, and a pointer further right or further down gives a
    card at least as far right or down.  While no drag is on, and after
    the button is released, a mouse move changes nothing and hands on
    nothing. *)
Theorem drag_follows_pointer :
  (forall props st down at_,
      0 < cardScale props ->
      let pressed := handleHeaderMouseDown props down st in
      let nextX :=
        (fst at_ - fst (canvasPosition props)) / cardScale props
        - ((fst down - fst (canvasPosition props)) / cardScale props
           - fst (boxPosition st)) in
      let nextY :=
        (snd at_ - snd (canvasPosition props)) / cardScale props
        - ((snd down - snd (canvasPosition props)) / cardScale props
           - snd (boxPosition st)) in
      boxPosition pressed = boxPosition st
      /\ handleGlobalMouseMove props at_ pressed
         = (mkDragState (nextX, nextY) true (dragStart pressed),
            Some (cardId props, nextX, nextY)))
  /\ (forall props st p q,
         0 < cardScale props ->
         isDragging st = true ->
         handleGlobalMouseMove props q (fst (handleGlobalMouseMove props p st))
         = handleGlobalMouseMove props q st)
  /\ (forall props st p q,
         0 < cardScale props ->
         isDragging st = true ->
         let at_p := boxPosition (fst (handleGlobalMouseMove props p st)) in
         let at_q := boxPosition (fst (handleGlobalMouseMove props q st)) in
         (fst p <= fst q -> fst at_p <= fst at_q)
         /\ (snd p <= snd q -> snd at_p <= snd at_q))
  /\ (forall props st at_,
         isDragging st = false ->
         handleGlobalMouseMove props at_ st = (st, None))
  /\ (forall props st at_,
         handleGlobalMouseMove props at_ (handleGlobalMouseUp st)
         = (handleGlobalMouseUp st, None)).
Proof.
  split; [|split; [|split; [|split]]].
  - intros props st down at_ Hs. cbv zeta. split; reflexivity.
  - intros props st p q Hs Hd. unfold handleGlobalMouseMove. rewrite Hd.
    cbn [fst snd isDragging dragStart]. reflexivity.
  - intros props st p q Hs Hd. cbv zeta.
    unfold handleGlobalMouseMove, toCanvas. rewrite Hd.
    cbn [fst snd boxPosition].
    split; intros H.
    + apply Qcplus_le_compat; [|apply Qcle_refl].
      apply Qcdiv_le_compat; [exact Hs|].
      apply Qcplus_le_compat; [exact H | apply Qcle_refl].
    + apply Qcplus_le_compat; [|apply Qcle_refl].
      apply Qcdiv_le_compat; [exact Hs|].
      apply Qcplus_le_compat; [exact H | apply Qcle_refl].
  - intros props st at_ Hd. unfold handleGlobalMouseMove. rewrite Hd.
    reflexivity.
  - intros props st at_. reflexivity.
Qed.

Lemma drag_follows_pointer_witness :
  handleGlobalMouseMove (mkCardProps 2 defaultScale (ofZ 0, ofZ 0))
                        (ofZ 9, ofZ 9)
                        (mkDragState (ofZ 1, ofZ 1) false (ofZ 0, ofZ 0))
  = (mkDragState (ofZ 1, ofZ 1) false (ofZ 0, ofZ 0), None)
  /\ boxPosition
       (handleHeaderMouseDown (mkCardProps 2 defaultScale (ofZ 0, ofZ 0))
          (ofZ 8, ofZ 8) (mkDragState (ofZ 1, ofZ 1) false (ofZ 0, ofZ 0)))
     = (ofZ 1, ofZ 1).
Proof.
  split.
  - apply (proj1 (proj2 (proj2 (proj2 drag_follows_pointer)))). reflexivity.
  - apply (proj1 (proj1 drag_follows_pointer
                    (mkCardProps 2 defaultScale (ofZ 0, ofZ 0))
                    (mkDragState (ofZ 1, ofZ 1) false (ofZ 0, ofZ 0))
                    (ofZ 8, ofZ 8) (ofZ 9, ofZ 9) eq_refl)).
Defined.

(* ================================================================== *)
(** * The connecting curves *)

Lemma Qcmin_Qcabs_inside (a b : Qc) :
  0 < a - (Qcmin a b - ofZ 10)
  /\ a - (Qcmin a b - ofZ 10) < Qcabs (b - a) + ofZ 20
  /\ 0 < b - (Qcmin a b - ofZ 10)
  /\ b - (Qcmin a b - ofZ 10) < Qcabs (b - a) + ofZ 20.
Proof.
  unfold Qcmin, Qcabs.
  destruct (Qclt_le_dec a b); destruct (Qclt_le_dec (b - a) 0);
    repeat split; qc_arith.
Qed.

(** [X23].  Both ends of a connecting curve lie inside the box of its
    [svg] element, for any two nodes and in either mode: each coordinate
    of an end is above zero and below the width or height of the box.
    Over the rationals an end keeps a margin of 10 from every side of the
    box; the statement is that it is inside, for which that margin is
    room to spare.  After the layout the curve to a child that is not
    manually positioned bridges exactly the gap of the mode: in
    horizontal mode it leaves the right edge of the parent's card and
    ends [HORIZONTAL_SPACING] further right, in vertical mode it leaves
    the bottom of the parent's card and ends [VERTICAL_SPACING] further
    down. *)
Theorem link_ends_inside_box :
  (forall (layoutMode : LayoutMode) (parent child : ChatNode),
      let b := linkBox layoutMode parent child in
      (0 < sx1 b /\ sx1 b < boxWidth b)
      /\ (0 < sx2 b /\ sx2 b < boxWidth b)
      /\ (0 < sy1 b /\ sy1 b < boxHeight b)
      /\ (0 < sy2 b /\ sy2 b < boxHeight b))
  /\ (forall chatTree path parent before child after,
         nodeAt path (fst (layoutHorizontal chatTree)) = Some parent ->
         children parent = before ++ child :: after ->
         isManual child = false ->
         let ends := linkEnds horizontal parent child in
         fst (fst ends) = x parent + CARD_WIDTH
         /\ fst (snd ends) = fst (fst ends) + HORIZONTAL_SPACING)
  /\ (forall chatTree path parent before child after,
         nodeAt path (fst (layoutVertical chatTree)) = Some parent ->
         children parent = before ++ child :: after ->
         isManual child = false ->
         let ends := linkEnds vertical parent child in
         snd (fst ends) = y parent + height parent
         /\ snd (snd ends) = snd (fst ends) + VERTICAL_SPACING).
Proof.
  split; [|split].
  - intros layoutMode parent child. unfold linkBox. cbv zeta.
    cbn [sx1 sx2 sy1 sy2 boxWidth boxHeight].
    destruct (Qcmin_Qcabs_inside (fst (fst (linkEnds layoutMode parent child)))
                (fst (snd (linkEnds layoutMode parent child))))
      as (A1 & A2 & A3 & A4).
    destruct (Qcmin_Qcabs_inside (snd (fst (linkEnds layoutMode parent child)))
                (snd (snd (linkEnds layoutMode parent child))))
      as (B1 & B2 & B3 & B4).
    repeat split; assumption.
  - intros chatTree path parent before child after Hat Hch Hman.
    destruct (layoutHorizontal_stacked chatTree path parent Hat
                before child after Hch Hman) as [Hx _].
    cbv zeta. unfold linkEnds. cbn [fst snd]. split; [reflexivity|exact Hx].
  - intros chatTree path parent before child after Hat Hch Hman.
    destruct (layoutVertical_stacked chatTree path parent Hat
                before child after Hch Hman) as [_ Hy].
    cbv zeta. unfold linkEnds. cbn [fst snd]. split; [reflexivity|exact Hy].
Qed.

Lemma link_ends_inside_box_witness :
  fst (snd (linkEnds horizontal
              (mkChatNode 1 None
                 [ mkChatNode 2 None [] (ofZ 1525) (ofZ 460) (ofZ 100) None []
                              None;
                   mkChatNode 3 None [] (ofZ 1525) (ofZ 640) (ofZ 100) None []
                              None ]
                 (ofZ 725) (ofZ 500) (ofZ 200) None [] None)
              (mkChatNode 2 None [] (ofZ 1525) (ofZ 460) (ofZ 100) None []
                          None)))
  = fst (fst (linkEnds horizontal
                (mkChatNode 1 None
                   [ mkChatNode 2 None [] (ofZ 1525) (ofZ 460) (ofZ 100) None
                                [] None;
                     mkChatNode 3 None [] (ofZ 1525) (ofZ 640) (ofZ 100) None
                                [] None ]
                   (ofZ 725) (ofZ 500) (ofZ 200) None [] None)
                (mkChatNode 2 None [] (ofZ 1525) (ofZ 460) (ofZ 100) None []
                            None)))
    + HORIZONTAL_SPACING.
Proof.
  apply (proj2 (proj1 (proj2 link_ends_inside_box) centeringExample [0%nat]
                      _ [] _ _ eq_refl eq_refl eq_refl)).
Defined.

(* ================================================================== *)
(** * The [/api/assistant] handler and the streams *)

Lemma enqueueContent_nonempty (chunks : list (option JsString.t)) :
  Forall (fun c => c <> []) (flat_map Route.enqueueContent chunks).
Proof.
  induction chunks as [|[content|] chunks IH]; simpl; [constructor| |exact IH].
  destruct content as [|c content]; simpl; [exact IH|].
  constructor; [discriminate | exact IH].
Qed.

(** [X24].  The [/api/assistant] handler answers 200, 400 or 500 and
    nothing else.  It answers 400 for any prompt that is not a non-empty
    string, whether or not the key is configured; 500 with "missing
    PARALLEL_API_KEY" for a valid prompt when the key is absent or empty;
    and 200 exactly when the prompt is a non-empty string, the key is
    configured and the completion call returns. *)
Theorem assistant_route_statuses :
  forall (apiKey : option JsString.t)
         (parsed : Assistant.Outcome Route.JsValue)
         (create : JsString.t -> JsString.t
                   -> Assistant.Outcome (list (option JsString.t))),
    let r := Assistant.POST apiKey parsed create in
    (Route.status r = 200%Z \/ Route.status r = 400%Z \/ Route.status r = 500%Z)
    /\ (Route.status r = 200%Z <->
        exists promptText key chunks,
          parsed = Assistant.Returns (Route.JString promptText)
          /\ promptText <> [] /\ apiKey = Some key /\ key <> []
          /\ create key promptText = Assistant.Returns chunks)
    /\ (forall prompt,
           parsed = Assistant.Returns prompt ->
           Route.isString prompt = false \/ Route.truthy prompt = false ->
           r = Route.mkResponse 400 (Route.JsonError "prompt is required"))
    /\ (forall promptText,
           parsed = Assistant.Returns (Route.JString promptText) ->
           promptText <> [] ->
           apiKey = None \/ apiKey = Some [] ->
           r = Route.mkResponse 500 (Route.JsonError "missing PARALLEL_API_KEY")).
Proof.
  intros apiKey parsed create r. subst r.
  split; [|split; [|split]].
  - unfold Assistant.POST, Assistant.catchAll.
    destruct parsed as [prompt|message]; [|auto].
    destruct prompt as [| | | |s| |]; simpl; auto.
    destruct s as [|c s]; simpl; auto.
    destruct apiKey as [[|k key]|]; simpl; auto.
    destruct (create (k :: key) (c :: s)); simpl; auto.
  - split.
    + unfold Assistant.POST, Assistant.catchAll.
      destruct parsed as [prompt|message]; [|discriminate].
      destruct prompt as [| | | |s| |]; simpl; try discriminate.
      destruct s as [|c s]; simpl; [discriminate|].
      destruct apiKey as [[|k key]|]; simpl; try discriminate.
      destruct (create (k :: key) (c :: s)) as [chunks|message] eqn:E; simpl;
        [|discriminate].
      intros _. exists (c :: s), (k :: key), chunks.
      repeat split; try discriminate. exact E.
    + intros (promptText & key & chunks & -> & Hp & -> & Hk & Hc).
      unfold Assistant.POST.
      destruct promptText as [|c s]; [contradiction|].
      destruct key as [|k key]; [contradiction|]. simpl. rewrite Hc.
      reflexivity.
  - intros prompt -> Hbad. unfold Assistant.POST.
    destruct prompt as [| | | |s| |]; try reflexivity.
    destruct Hbad as [Hb|Hb]; [discriminate|].
    simpl in Hb. rewrite Hb. reflexivity.
  - intros promptText -> Hp Hk. unfold Assistant.POST.
    destruct promptText as [|c s]; [contradiction|]. simpl.
    destruct Hk as [-> | ->]; reflexivity.
Qed.

Lemma assistant_route_statuses_witness :
  Assistant.POST None (Assistant.Returns (Route.JNumber (ofZ 5)))
                 (fun _ _ => Assistant.Returns [])
  = Route.mkResponse 400 (Route.JsonError "prompt is required").
Proof.
  apply (proj1 (proj2 (proj2 (assistant_route_statuses None
           (Assistant.Returns (Route.JNumber (ofZ 5)))
           (fun _ _ => Assistant.Returns []))))
           (Route.JNumber (ofZ 5)) eq_refl).
  left. reflexivity.
Defined.

(** [X25].  The plain [/api/chat] handler and the [/api/assistant]
    handler never put an empty chunk on the stream they answer with: a
    chunk of the completion with no content, or with empty content, is
    skipped. *)
Theorem streams_carry_no_empty_chunk :
  (forall parsed create status chunks,
      Route.POST_plain parsed create
      = Some (Route.mkResponse status (Route.Stream chunks)) ->
      status = 200%Z /\ Forall (fun c => c <> []) chunks)
  /\ (forall apiKey parsed create status chunks,
         Assistant.POST apiKey parsed create
         = Route.mkResponse status (Route.Stream chunks) ->
         status = 200%Z /\ Forall (fun c => c <> []) chunks).
Proof.
  split.
  - intros parsed create status chunks. unfold Route.POST_plain.
    destruct parsed as [f|]; [|discriminate].
    destruct (negb (Route.truthy (Route.prompt f))); [discriminate|].
    destruct (create f) as [cs|[st msg|]]; try discriminate.
    + intros H. inversion H; subst. split; [reflexivity|].
      apply enqueueContent_nonempty.
    + unfold Route.catchPlain, Route.newResponse.
      destruct st as [given|]; [|discriminate].
      destruct (_ && _); discriminate.
  - intros apiKey parsed create status chunks.
    unfold Assistant.POST, Assistant.catchAll.
    destruct parsed as [prompt|message]; [|discriminate].
    destruct prompt as [| | | |s| |]; try discriminate.
    destruct (negb (truthy s)); [discriminate|].
    destruct apiKey as [key|]; [|discriminate].
    destruct (negb (truthy key)); [discriminate|].
    destruct (create key s) as [cs|message]; [|discriminate].
    intros H. inversion H; subst. split; [reflexivity|].
    apply enqueueContent_nonempty.
Qed.

Lemma streams_carry_no_empty_chunk_witness :
  200%Z = 200%Z
  /\ Forall (fun c => c <> [])
            (flat_map Route.enqueueContent [Some (js "a"); None; Some []]).
Proof.
  apply (proj1 streams_carry_no_empty_chunk (Some newsRequest)
               (fun _ => Route.Returns [Some (js "a"); None; Some []])).
  reflexivity.
Defined.

(* ================================================================== *)
(** * A dragged card and the layout *)

Lemma findPath_cons (node : ChatNode) (rest : list ChatNode) (chatId : Z) :
  findPath (node :: rest) chatId
  = if (id node =? chatId)%Z then Some [0%nat]
    else match findPath (children node) chatId with
         | Some p => Some (0%nat :: p)
         | None => option_map bump (findPath rest chatId)
         end.
Proof.
  destruct node as [i q cs px py h m conv th].
  unfold findPath. simpl. destruct (i =? chatId)%Z; reflexivity.
Qed.

Lemma findPath_findNode (chatId : Z) (nodes : list ChatNode) :
  (findPath nodes chatId = None -> findNode nodes chatId = None)
  /\ (forall p, findPath nodes chatId = Some p ->
                p <> []
                /\ exists n, nodeAt p nodes = Some n
                             /\ findNode nodes chatId = Some n).
Proof.
  induction nodes as [|node rest IHc IHr] using forest_ind.
  - split; [reflexivity | discriminate].
  - destruct IHc as [IHcN IHcS]. destruct IHr as [IHrN IHrS].
    rewrite findPath_cons, findNode_cons.
    destruct (id node =? chatId)%Z.
    + split; [discriminate|]. intros p Hp. inversion Hp; subst.
      split; [discriminate|]. exists node. split; reflexivity.
    + destruct (findPath (children node) chatId) as [pc|] eqn:Ec.
      * split; [discriminate|]. intros p Hp. inversion Hp; subst.
        split; [discriminate|].
        destruct (IHcS pc eq_refl) as (Hne & n & Hat & Hf).
        exists n. rewrite Hf. split; [|reflexivity].
        rewrite nodeAt_cons. simpl. destruct pc; [contradiction | exact Hat].
      * rewrite (IHcN eq_refl).
        destruct (findPath rest chatId) as [pr|] eqn:Er; simpl.
        -- split; [discriminate|]. intros p Hp. inversion Hp; subst.
           destruct (IHrS pr eq_refl) as (Hne & n & Hat & Hf).
           destruct pr as [|i pr]; [contradiction|].
           split; [discriminate|]. exists n. split; [exact Hat | exact Hf].
        -- split; [intros _; apply IHrN; reflexivity | discriminate].
Qed.

Lemma findPath_tree_map (chatId : Z) (g : ChatNode -> ChatNode) :
  (forall n, id (g n) = id n) ->
  (forall n, children (g n) = map g (children n)) ->
  forall nodes, findPath (map g nodes) chatId = findPath nodes chatId.
Proof.
  intros Hid Hch nodes.
  induction nodes as [|node rest IHc IHr] using forest_ind; [reflexivity|].
  rewrite map_cons, !findPath_cons, Hid, Hch, IHc, IHr. reflexivity.
Qed.

Lemma findPath_same_shape (chatId : Z) (l1 l2 : list ChatNode) :
  map forgetPosition l1 = map forgetPosition l2 ->
  findPath l1 chatId = findPath l2 chatId.
Proof.
  intros H.
  rewrite <- (findPath_tree_map chatId forgetPosition) with (nodes := l1);
    [|intros []; reflexivity | intros []; reflexivity].
  rewrite <- (findPath_tree_map chatId forgetPosition) with (nodes := l2);
    [|intros []; reflexivity | intros []; reflexivity].
  rewrite H. reflexivity.
Qed.

Lemma runLayout_findPath (clientHeight : Z -> option Z)
      (layoutMode : LayoutMode) (chatTree : list ChatNode) (chatId : Z) :
  findPath (runLayout clientHeight layoutMode chatTree) chatId
  = findPath chatTree chatId.
Proof.
  rewrite runLayout_newTree, layoutEffect_layout. cbn [fst].
  rewrite (findPath_same_shape chatId _ _ (layout_same_shape layoutMode _)).
  unfold updateHeights. rewrite forEachNode_fst.
  apply findPath_tree_map; intros n; apply updateHeightsIn_keeps.
Qed.

Lemma runLayout_keeps_manual (clientHeight : Z -> option Z)
      (layoutMode : LayoutMode) (chatTree : list ChatNode) (path : list nat)
      (n : ChatNode) :
  nodeAt path chatTree = Some n ->
  isManual n = true ->
  exists n',
    nodeAt path (runLayout clientHeight layoutMode chatTree) = Some n'
    /\ x n' = x n /\ y n' = y n.
Proof.
  intros Hat Hman.
  rewrite runLayout_newTree, layoutEffect_layout. cbn [fst].
  assert (Hm : nodeAt path (fst (updateHeights clientHeight chatTree))
               = Some (fst (updateHeightsIn clientHeight n))).
  { unfold updateHeights. rewrite forEachNode_fst.
    rewrite (nodeAt_map (fun c => fst (updateHeightsIn clientHeight c))), Hat;
      [reflexivity|].
    intros c. apply updateHeightsIn_keeps. }
  destruct (updateHeightsIn_keeps clientHeight n) as (_ & Hx & Hy & Hmm & _).
  destruct (nodeAt_layout layoutMode path _ _ Hm)
    as (n' & Hout & _ & Hx' & Hy' & _); [congruence|].
  exists n'. split; [exact Hout|]. split; congruence.
Qed.

(** [X26].  A card stays where it was dropped.  After a position change
    of a node found in the tree, the layout effect, in either mode and
    whatever the measured heights, leaves the node [findNode] returns for
    the id at the position it was given. *)
Theorem dragged_card_stays_after_layout :
  forall (clientHeight : Z -> option Z) (layoutMode : LayoutMode)
         (chatTree : list ChatNode) (chatId : Z) (nx ny : Qc) (n : ChatNode),
    findNode chatTree chatId = Some n ->
    exists n',
      findNode (runLayout clientHeight layoutMode
                          (handleChatPositionChange chatId nx ny chatTree))
               chatId = Some n'
      /\ id n' = chatId /\ x n' = nx /\ y n' = ny.
Proof.
  intros clientHeight layoutMode chatTree chatId nx ny n Hf.
  set (moved := handleChatPositionChange chatId nx ny chatTree).
  assert (Hmoved : exists m, findNode moved chatId = Some m
                             /\ x m = nx /\ y m = ny /\ isManual m = true).
  { destruct (findNode_Some_present _ _ _ Hf) as [Hid _].
    exists (updatePositionIn chatId nx ny n). split.
    - unfold moved, handleChatPositionChange, updatePosition.
      apply findNode_map_Some; [apply updatePositionIn_off | exact Hf|].
      rewrite updatePositionIn_id. exact Hid.
    - destruct n as [i q cs px py h m conv th]. simpl in *. subst i.
      rewrite Z.eqb_refl. simpl. auto. }
  destruct Hmoved as (m & Hfm & Hx & Hy & Hman).
  destruct (findPath_findNode chatId moved) as [HN HS].
  destruct (findPath moved chatId) as [p|] eqn:Ep;
    [|rewrite (HN eq_refl) in Hfm; discriminate].
  destruct (HS p eq_refl) as (_ & m0 & Hat & Hf0).
  assert (m0 = m) by congruence. subst m0.
  destruct (runLayout_keeps_manual clientHeight layoutMode moved p m Hat Hman)
    as (n' & Hat' & Hx' & Hy').
  destruct (findPath_findNode chatId (runLayout clientHeight layoutMode moved))
    as [_ HS'].
  destruct (HS' p) as (_ & n0 & Hat0 & Hf0').
  { rewrite runLayout_findPath. exact Ep. }
  assert (n0 = n') by congruence. subst n0.
  exists n'. split; [exact Hf0'|].
  split; [apply (findNode_Some_present _ _ _ Hf0') | split; congruence].
Qed.

Lemma dragged_card_stays_after_layout_witness :
  exists n',
    findNode (runLayout (fun _ => Some 300%Z) horizontal
                        (handleChatPositionChange 2 (ofZ 40) (ofZ 60) sampleTree))
             2 = Some n'
    /\ id n' = 2%Z /\ x n' = ofZ 40 /\ y n' = ofZ 60.
Proof.
  apply (dragged_card_stays_after_layout (fun _ => Some 300%Z) horizontal
           sampleTree 2%Z (ofZ 40) (ofZ 60)
           (branchNode 2 [leafNode 3; leafNode 4])).
  reflexivity.
Defined.

(* ================================================================== *)
(** * Invariants of the tree *)

Lemma filterThenMap_app {A B : Type} (keep : A -> bool) (f : A -> B)
      (l1 l2 : list A) :
  filterThenMap keep f (l1 ++ l2)
  = filterThenMap keep f l1 ++ filterThenMap keep f l2.
Proof.
  induction l1 as [|a l1 IH]; simpl; [reflexivity|].
  destruct (keep a); simpl; rewrite IH; reflexivity.
Qed.

Lemma removeNode_addChild (sourceChatId newId : Z) (newNode : ChatNode)
      (nodes : list ChatNode) :
  id newNode = newId ->
  ~ In newId (ids nodes) ->
  removeNode newId (addChild sourceChatId newNode nodes) = nodes.
Proof.
  intros Hnew.
  induction nodes as [|node rest IHc IHr] using forest_ind; intros Hfresh.
  - reflexivity.
  - rewrite ids_cons in Hfresh.
    assert (Hne : id node <> newId) by (intros E; apply Hfresh; left; exact E).
    assert (Hc : ~ In newId (ids (children node)))
      by (intros H; apply Hfresh; right; apply in_or_app; auto).
    assert (Hr : ~ In newId (ids rest))
      by (intros H; apply Hfresh; right; apply in_or_app; auto).
    rewrite addChild_cons, removeNode_cons, addChildIn_id.
    destruct (Z.eqb_spec (id node) newId) as [|_]; [contradiction|].
    rewrite (IHr Hr). f_equal.
    destruct (Z.eqb_spec (id node) sourceChatId) as [Heq|Hoff].
    + destruct node as [i q cs px py h m conv th]. simpl in *.
      destruct (Z.eqb_spec i sourceChatId); [|contradiction].
      unfold withChildren. simpl. f_equal.
      fold (removeNode newId (cs ++ [newNode])). unfold removeNode.
      rewrite filterThenMap_app. fold (removeNode newId cs).
      rewrite (removeNode_absent newId cs Hc). simpl. unfold keeps.
      rewrite Hnew, Z.eqb_refl. simpl. apply app_nil_r.
    + rewrite (addChildIn_off _ _ _ Hoff).
      fold (addChild sourceChatId newNode (children node)).
      destruct node as [i q cs px py h m conv th]. unfold withChildren.
      simpl in *. f_equal. fold (removeNode newId (addChild sourceChatId newNode cs)).
      apply IHc, Hc.
Qed.

(** [X27].  Deleting a branch that was just created gives the tree back:
    if the new id is not yet in the tree, branching or creating from a
    selection under that id and then deleting it leaves the tree exactly
    as it was, whether or not the source was found. *)
Theorem delete_undoes_new_child :
  forall (chatTree : list ChatNode) (sourceChatId newId : Z) (text : JsString.t),
    ~ In newId (ids chatTree) ->
    handleDelete newId (handleBranch sourceChatId newId chatTree) = chatTree
    /\ handleDelete newId
         (handleCreateFromSelection sourceChatId text newId chatTree)
       = chatTree.
Proof.
  intros chatTree sourceChatId newId text Hfresh.
  unfold handleDelete, handleBranch, handleCreateFromSelection.
  split; apply removeNode_addChild; [reflexivity | exact Hfresh
                                     | reflexivity | exact Hfresh].
Qed.

Lemma delete_undoes_new_child_witness :
  handleDelete 7 (handleBranch 2 7 sampleTree) = sampleTree
  /\ handleDelete 7 (handleCreateFromSelection 2 (js "quote") 7 sampleTree)
     = sampleTree.
Proof.
  apply (delete_undoes_new_child sampleTree 2%Z 7%Z (js "quote")).
  simpl. intuition discriminate.
Defined.

Lemma perform_length (a : Action) (root : ChatNode) :
  offered [root] a = true -> length (perform a [root]) = 1%nat.
Proof.
  destruct a as [source text newId | source newId | chatId | chatId nx ny
                 | chatId message res | clientHeight layoutMode];
    cbn [perform offered]; intros Hoff.
  - reflexivity.
  - reflexivity.
  - apply Bool.negb_true_iff in Hoff. unfold handleDelete, isRoot in *.
    rewrite removeNode_cons, Z.eqb_sym, Hoff. reflexivity.
  - reflexivity.
  - unfold handleNewMessage. destruct res as [| |chunks]; try reflexivity.
    unfold readLoop.
    assert (H : forall cs t,
               length (fold_left
                         (fun t c => map (appendResponseChunk chatId c) t) cs t)
               = length t).
    { induction cs as [|c cs IH]; intros t; [reflexivity|].
      simpl. rewrite IH. apply length_map. }
    rewrite H. reflexivity.
  - rewrite runLayout_newTree, layoutEffect_layout. cbn [fst].
    assert (H : forall l, length (fst (layout layoutMode l)) = length l).
    { intros l. rewrite <- (length_map forgetPosition), layout_same_shape.
      apply length_map. }
    rewrite H. unfold updateHeights. rewrite forEachNode_fst. reflexivity.
Qed.

(** [X28].  The tree always has exactly one top-level node: in every
    state the page can reach from the initial tree the list of top-level
    nodes has length one, its node has the id of the initial root, and the
    curves drawn are one fewer than the cards. *)
Theorem reachable_tree_has_one_root :
  forall chatTree : list ChatNode,
    reachable chatTree ->
    (exists root, chatTree = [root] /\ id root = 1%Z)
    /\ (length (links chatTree) + 1 = length (flatten chatTree))%nat.
Proof.
  intros chatTree Hreach.
  assert (Hone : exists root, chatTree = [root] /\ id root = 1%Z).
  { induction Hreach as [|chatTree a _ IH Hoff].
    - eexists. split; reflexivity.
    - destruct IH as (root & -> & Hid).
      pose proof (perform_length a root Hoff) as Hlen.
      pose proof (perform_rootId a [root] Hoff) as Hroot.
      destruct (perform a [root]) as [|root' [|extra rest]];
        try discriminate.
      exists root'. split; [reflexivity|].
      unfold rootId in Hroot. simpl in Hroot. inversion Hroot. congruence. }
  split; [exact Hone|].
  destruct Hone as (root & -> & _).
  exact (links_length [root]).
Qed.

Lemma reachable_tree_has_one_root_witness :
  (exists root, perform (Branch 1 5) initialTree = [root] /\ id root = 1%Z)
  /\ (length (links (perform (Branch 1 5) initialTree)) + 1
      = length (flatten (perform (Branch 1 5) initialTree)))%nat.
Proof.
  apply (reachable_tree_has_one_root (perform (Branch 1 5) initialTree)).
  apply reachable_step; [apply reachable_initial | reflexivity].
Defined.

Lemma NoDup_cut {A : Type} (a b c : list A) :
  NoDup (a ++ b ++ c) -> NoDup (a ++ c).
Proof.
  induction b as [|z b IH]; [auto|].
  intros H. apply IH. simpl in H. exact (NoDup_remove_1 _ _ _ H).
Qed.

Lemma NoDup_insert {A : Type} (a b c : list A) (z : A) :
  NoDup (a ++ b ++ c) -> ~ In z (a ++ b ++ c) -> NoDup (a ++ b ++ [z] ++ c).
Proof.
  intros Hnd Hz.
  apply (Permutation_NoDup (l := z :: (a ++ b) ++ c)).
  - rewrite (app_assoc a b ([z] ++ c)). apply Permutation_middle.
  - constructor; rewrite <- app_assoc; assumption.
Qed.

Lemma ids_from_payload (l1 l2 : list ChatNode) :
  map payload (flatten l1) = map payload (flatten l2) -> ids l1 = ids l2.
Proof.
  intros H. unfold ids.
  assert (E : forall l, map flat_id l
                        = map (fun p => fst (fst (fst p))) (map payload l))
    by (intros l; rewrite map_map; reflexivity).
  rewrite !E, H. reflexivity.
Qed.

Lemma ids_from_placement (l1 l2 : list ChatNode) :
  map placement (flatten l1) = map placement (flatten l2) -> ids l1 = ids l2.
Proof.
  intros H. unfold ids.
  assert (E : forall l, map flat_id l
                        = map (fun p => fst (fst (fst (fst p))))
                              (map placement l))
    by (intros l; rewrite map_map; reflexivity).
  rewrite !E, H. reflexivity.
Qed.

Lemma updatePosition_payload (chatId : Z) (nx ny : Qc) (nodes : list ChatNode) :
  map payload (flatten (updatePosition chatId nx ny nodes))
  = map payload (flatten nodes).
Proof.
  induction nodes as [|node rest IHc IHr] using forest_ind; [reflexivity|].
  unfold updatePosition in *. rewrite map_cons, (flatten_cons node).
  destruct (Z.eqb_spec (id node) chatId) as [Heq|Hne].
  - assert (Hat : updatePositionIn chatId nx ny node
                  = mkChatNode (id node) (quotedText node)
                      (moveChildren (nx - x node) (ny - y node) (children node))
                      nx ny (height node) (Some true) (conversation node)
                      (isThinking node)).
    { destruct node as [i q cs px py h m conv th]. simpl in *. subst i.
      rewrite Z.eqb_refl. reflexivity. }
    rewrite Hat, flatten_cons. cbn [children].
    rewrite !map_cons, !map_app, IHr, flatten_moveChildren, map_map.
    reflexivity.
  - rewrite (updatePositionIn_off _ _ _ _ Hne), flatten_withChildren.
    simpl. rewrite !map_app, IHc, IHr. reflexivity.
Qed.

Lemma addChild_keeps_unique (sourceChatId : Z) (newNode : ChatNode)
      (nodes : list ChatNode) :
  children newNode = [] ->
  NoDup (ids nodes) -> ~ In (id newNode) (ids nodes) ->
  NoDup (ids (addChild sourceChatId newNode nodes)).
Proof.
  intros Hleaf Hnd Hfresh.
  destruct (findNode nodes sourceChatId) as [n|] eqn:Ef.
  - destruct (addChild_inserts sourceChatId newNode nodes n Hnd Ef)
      as (before & after & Hflat & Hadd).
    unfold ids in *. rewrite Hadd. rewrite Hflat in Hnd, Hfresh.
    rewrite flattenNode_unfold with (node := newNode), Hleaf.
    rewrite !map_app in *. simpl. apply NoDup_insert; assumption.
  - rewrite addChild_absent; [exact Hnd|]. apply findNode_None_absent, Ef.
Qed.

(** [X29].  Ids stay unique as long as new ids are fresh.  From a tree
    with unique ids, branching or creating from a selection under an id
    not yet in the tree gives a tree with unique ids; deleting does too;
    and a position change, a message with any outcome, and the layout
    effect leave the list of ids as it was. *)
Theorem unique_ids_are_kept :
  forall chatTree : list ChatNode,
    NoDup (ids chatTree) ->
    (forall sourceChatId newId,
        ~ In newId (ids chatTree) ->
        NoDup (ids (handleBranch sourceChatId newId chatTree)))
    /\ (forall sourceChatId text newId,
           ~ In newId (ids chatTree) ->
           NoDup (ids (handleCreateFromSelection sourceChatId text newId
                                                 chatTree)))
    /\ (forall chatId, NoDup (ids (handleDelete chatId chatTree)))
    /\ (forall chatId nx ny,
           ids (handleChatPositionChange chatId nx ny chatTree) = ids chatTree)
    /\ (forall chatId message res,
           ids (handleNewMessage chatId message res chatTree) = ids chatTree)
    /\ (forall clientHeight layoutMode,
           ids (runLayout clientHeight layoutMode chatTree) = ids chatTree).
Proof.
  intros chatTree Hnd.
  split; [|split; [|split; [|split; [|split]]]].
  - intros sourceChatId newId Hfresh. unfold handleBranch.
    apply addChild_keeps_unique; [reflexivity | exact Hnd | exact Hfresh].
  - intros sourceChatId text newId Hfresh. unfold handleCreateFromSelection.
    apply addChild_keeps_unique; [reflexivity | exact Hnd | exact Hfresh].
  - intros chatId. unfold handleDelete.
    destruct (findNode chatTree chatId) as [n|] eqn:Ef.
    + destruct (removeNode_cuts_subtree chatId chatTree n Hnd Ef)
        as (before & after & Hflat & Hrem).
      unfold ids in *. rewrite Hrem. rewrite Hflat in Hnd.
      rewrite !map_app in *. exact (NoDup_cut _ _ _ Hnd).
    + rewrite removeNode_absent; [exact Hnd|]. apply findNode_None_absent, Ef.
  - intros chatId nx ny. apply ids_from_payload, updatePosition_payload.
  - intros chatId message res.
    apply ids_from_placement.
    unfold handleNewMessage.
    assert (H1 : map placement
                     (flatten (map (appendMessage chatId message) chatTree))
                 = map placement (flatten chatTree))
      by (apply map_keeps_placement, appendMessage_cases).
    destruct res as [| |chunks].
    + rewrite map_keeps_placement by apply setErrorState_cases. exact H1.
    + exact H1.
    + unfold readLoop.
      assert (H2 : forall cs tree,
                 map placement
                     (flatten (fold_left
                                 (fun t c => map (appendResponseChunk chatId c) t)
                                 cs tree))
                 = map placement (flatten tree)).
      { induction cs as [|c cs IH]; intros tree; [reflexivity|].
        simpl. rewrite IH. apply map_keeps_placement, appendResponseChunk_cases. }
      rewrite H2, map_keeps_placement by apply addAssistantPlaceholder_cases.
      exact H1.
  - intros clientHeight layoutMode. apply ids_from_payload.
    rewrite runLayout_newTree, layoutEffect_layout. cbn [fst].
    rewrite (payload_same_shape _ _ (layout_same_shape layoutMode _)).
    unfold updateHeights. rewrite forEachNode_fst.
    apply flatten_map_payload.
    + intros n. apply updateHeightsIn_keeps.
    + intros n. rewrite updateHeightsIn_unfold. reflexivity.
Qed.

Lemma unique_ids_are_kept_witness :
  NoDup (ids (handleBranch 2 7 sampleTree))
  /\ NoDup (ids (handleDelete 2 sampleTree)).
Proof.
  assert (Hs : NoDup (ids sampleTree))
    by (repeat constructor; simpl; intuition discriminate).
  split.
  - apply (proj1 (unique_ids_are_kept sampleTree Hs) 2%Z 7%Z).
    simpl. intuition discriminate.
  - apply (proj1 (proj2 (proj2 (unique_ids_are_kept sampleTree Hs))) 2%Z).
Defined.
